(** * Quadtree index of the orb geometry package

    A shallow embedding of [quadtree/quadtree.go], and of the geometry
    primitives next to it: the rectangles of [bound.go], the points and
    multi-points of [point.go], the line strings and rings, the polygon's
    bound, and the packages [planar] and [math].

    The Go code is generic over [T math.Number].  The development fixes
    [T := int64]: coordinates are integers of [Z] and every arithmetic
    operation wraps around modulo [2^64], as Go's does.  Pointers to nodes
    are modelled by the path of child indices leading from the root to the
    node; a nil [*node] is the constructor [Nil]; run-time panics are
    results of their own.  What the Go text leaves to the platform (the
    result of a float conversion that is not exact, the capacity [make]
    grants) is a parameter of the model, the class [Platform]. *)

From Stdlib Require Import ZArith List Bool Lia Permutation Sorted.
Import ListNotations.
Local Open Scope Z_scope.

(* ===================================================================== *)
(** * Run-time panics *)
(* ===================================================================== *)

Inductive panic : Type :=
| NilPointerDereference
| IndexOutOfRange
| SliceBoundsOutOfRange
| MakeSliceCapOutOfRange.

Inductive result (A : Type) : Type :=
| Ok (a : A)
| Panic (e : panic).

Arguments Ok {A} a.
Arguments Panic {A} e.

Definition bind {A B : Type} (r : result A) (k : A -> result B) : result B :=
  match r with
  | Ok a => k a
  | Panic e => Panic e
  end.

Notation "x <- c1 ;; c2" := (bind c1 (fun x => c2))
  (at level 61, c1 at next level, right associativity).

(* ===================================================================== *)
(** * The platform *)
(* ===================================================================== *)

(** What the behaviour of the code depends on and its text does not fix.

    [sqrtFar num] is the value of [T(math.Sqrt(float64(num)))] at
    [T = int64] for a [num] outside [0 <= num < 2^52].  In that range the
    conversion to float64 is exact and the truncated root is the integer
    square root; outside it the conversion rounds, and for a negative
    [num] the root is NaN, whose conversion to an integer depends on the
    implementation.  The value is some function of [num], about which
    nothing is assumed.

    [makeLimit] is the greatest capacity for which
    [make(maxHeap[T], 0, cap)] returns: beyond it [make] panics (the
    run-time's allocation limit).  A capacity is an [int], and every
    platform grants a slice of 2^16 entries. *)
Class Platform : Type := {
  sqrtFar : Z -> Z;
  makeLimit : Z;
  makeLimit_min : 2 ^ 16 <= makeLimit;
  makeLimit_max : makeLimit < 2 ^ 63
}.

(* ===================================================================== *)
(** * Package math (the numeric helpers), at T = int64 *)
(* ===================================================================== *)

Module math.

Definition MaxOf : Z := 2 ^ 63 - 1.

(** Two's complement wrap-around of a mathematical integer to int64. *)
Definition wrap (z : Z) : Z := (z + 2 ^ 63) mod 2 ^ 64 - 2 ^ 63.

(** The Go operators [+], [-], [*] and [/] on int64. *)
Definition add (a b : Z) : Z := wrap (a + b).
Definition sub (a b : Z) : Z := wrap (a - b).
Definition mul (a b : Z) : Z := wrap (a * b).
Definition div (a b : Z) : Z := wrap (Z.quot a b).

(** [func Min[T Number](a, b T) T] and [func Max[T Number](a, b T) T] *)
Definition Min (a b : Z) : Z := if a <? b then a else b.
Definition Max (a b : Z) : Z := if a >? b then a else b.

(** [func Sqrt[T Number](num T) T], which is
    [T(math.Sqrt(float64(num)))].  For [0 <= num < 2^52] the conversion to
    float64 is exact and the truncated root is the integer square root;
    outside that range the value is the platform's. *)
Definition Sqrt {PF : Platform} (num : Z) : Z :=
  if (0 <=? num) && (num <? 2 ^ 52) then Z.sqrt num else sqrtFar num.

End math.

(* ===================================================================== *)
(** * Package orb: points, bounds, pointers *)
(* ===================================================================== *)

Module orb.

(** [PointOf[T]] is [[2]T]; [X] is index 0 and [Y] is index 1. *)
Record PointOf : Type := mkPoint { X : Z; Y : Z }.

Record BoundOf : Type := mkBound { Min : PointOf; Max : PointOf }.

(** The interface [PointerOf[T]]: anything that yields a point. *)
Class PointerOf (E : Type) : Type := Point : E -> PointOf.

(** [func (p PointOf[T]) Point() PointOf[T]]: a point is its own pointer. *)
#[global] Instance PointOf_PointerOf : PointerOf PointOf := fun p => p.

(** [func (p PointOf[T]) Equal(point PointOf[T]) bool] *)
Definition Equal (p point : PointOf) : bool :=
  (X p =? X point) && (Y p =? Y point).

(** [func (b BoundOf[T]) Contains(point PointOf[T]) bool] *)
Definition Contains (b : BoundOf) (point : PointOf) : bool :=
  if (Y point <? Y (Min b)) || (Y (Max b) <? Y point) then false
  else if (X point <? X (Min b)) || (X (Max b) <? X point) then false
  else true.

(** [func emptyBoundOf[T math.Number]() BoundOf[T]] *)
Definition emptyBoundOf : BoundOf :=
  {| Min := {| X := 1; Y := 1 |}; Max := {| X := 0; Y := 0 |} |}.

(** [func (b BoundOf[T]) ToRing() RingOf[T]].  A ring, a line string and a
    multi-point are slices of points. *)
Definition ToRing (b : BoundOf) : list PointOf :=
  [ Min b;
    {| X := X (Max b); Y := Y (Min b) |};
    Max b;
    {| X := X (Min b); Y := Y (Max b) |};
    Min b ].

(** [func (b BoundOf[T]) ToPolygon() PolygonOf[T]] *)
Definition ToPolygon (b : BoundOf) : list (list PointOf) := [ToRing b].

(** [func (b BoundOf[T]) Extend(point PointOf[T]) BoundOf[T]] *)
Definition Extend (b : BoundOf) (point : PointOf) : BoundOf :=
  if Contains b point then b
  else
    {| Min := {| X := math.Min (X (Min b)) (X point);
                 Y := math.Min (Y (Min b)) (Y point) |};
       Max := {| X := math.Max (X (Max b)) (X point);
                 Y := math.Max (Y (Max b)) (Y point) |} |}.

(** [Top], [Bottom], [Right], [Left], [LeftTop] and [RightBottom] *)
Definition Top (b : BoundOf) : Z := Y (Max b).
Definition Bottom (b : BoundOf) : Z := Y (Min b).
Definition Right (b : BoundOf) : Z := X (Max b).
Definition Left (b : BoundOf) : Z := X (Min b).
Definition LeftTop (b : BoundOf) : PointOf := {| X := Left b; Y := Top b |}.
Definition RightBottom (b : BoundOf) : PointOf := {| X := Right b; Y := Bottom b |}.

(** [func (b BoundOf[T]) IsEmpty() bool] *)
Definition IsEmpty (b : BoundOf) : bool :=
  (X (Min b) >? X (Max b)) || (Y (Min b) >? Y (Max b)).

(** [func (b BoundOf[T]) Union(other BoundOf[T]) BoundOf[T]] *)
Definition Union (b other : BoundOf) : BoundOf :=
  if IsEmpty other then b
  else
    let b := Extend b (Min other) in
    let b := Extend b (Max other) in
    let b := Extend b (LeftTop other) in
    let b := Extend b (RightBottom other) in
    b.

(** [func (b BoundOf[T]) Intersects(bound BoundOf[T]) bool] *)
Definition Intersects (b bound : BoundOf) : bool :=
  if (X (Max b) <? X (Min bound)) ||
     (X (Min b) >? X (Max bound)) ||
     (Y (Max b) <? Y (Min bound)) ||
     (Y (Min b) >? Y (Max bound))
  then false
  else true.

(** [func (b BoundOf[T]) Pad(d T) BoundOf[T]] *)
Definition Pad (b : BoundOf) (d : Z) : BoundOf :=
  {| Min := {| X := math.sub (X (Min b)) d; Y := math.sub (Y (Min b)) d |};
     Max := {| X := math.add (X (Max b)) d; Y := math.add (Y (Max b)) d |} |}.

(** [func (b BoundOf[T]) Center() PointOf[T]] *)
Definition Center (b : BoundOf) : PointOf :=
  {| X := math.div (math.add (X (Min b)) (X (Max b))) 2;
     Y := math.div (math.add (Y (Min b)) (Y (Max b))) 2 |}.

(** [func (mp MultiPointOf[T]) Bound() BoundOf[T]].  The loop extends the
    bound of the first point by every point, the first one included. *)
Definition MultiPointOf_Bound (mp : list PointOf) : BoundOf :=
  match mp with
  | [] => emptyBoundOf
  | p0 :: _ => fold_left Extend mp {| Min := p0; Max := p0 |}
  end.

(** The loop of [MultiPointOf.Equal], over two slices of the same length. *)
Fixpoint pointsEqual (mp multiPoint : list PointOf) : bool :=
  match mp, multiPoint with
  | p :: mp', q :: multiPoint' =>
    if negb (Equal p q) then false else pointsEqual mp' multiPoint'
  | _, _ => true
  end.

(** [func (mp MultiPointOf[T]) Equal(multiPoint MultiPointOf[T]) bool] *)
Definition MultiPointOf_Equal (mp multiPoint : list PointOf) : bool :=
  if negb (length mp =? length multiPoint)%nat then false
  else pointsEqual mp multiPoint.

(** Indexing a slice by a Go [int]: [None] when the index is out of range. *)
Definition getAt (ls : list PointOf) (i : Z) : option PointOf :=
  if i <? 0 then None else nth_error ls (Z.to_nat i).

(** The slice with [p] stored at index [i], an index in range. *)
Fixpoint setNth (ls : list PointOf) (i : nat) (p : PointOf) : list PointOf :=
  match ls, i with
  | [], _ => []
  | _ :: rest, O => p :: rest
  | x :: rest, S i' => x :: setNth rest i' p
  end.

(** [ls[i], ls[j] = ls[j], ls[i]]: both operands are read, with their index
    checks, before either is written. *)
Definition swapAt (ls : list PointOf) (i j : Z) : result (list PointOf) :=
  match getAt ls j, getAt ls i with
  | Some a, Some b => Ok (setNth (setNth ls (Z.to_nat i) a) (Z.to_nat j) b)
  | _, _ => Panic IndexOutOfRange
  end.

(** [func (ls LineStringOf[T]) Reverse()], returning the slice's contents
    after the call.  [l/2] is Go's division, which truncates towards zero;
    the loop runs for [i = 0, ..., l/2]. *)
Definition LineStringOf_Reverse (ls : list PointOf) : result (list PointOf) :=
  let l := Z.of_nat (length ls) - 1 in
  fold_left (fun (acc : result (list PointOf)) (i : nat) =>
               ls <- acc ;; swapAt ls (Z.of_nat i) (l - Z.of_nat i))
            (seq 0 (Z.to_nat (Z.quot l 2 + 1))) (Ok ls).

(** [func (ls LineStringOf[T]) Bound() BoundOf[T]] and
    [func (r RingOf[T]) Bound() BoundOf[T]] *)
Definition LineStringOf_Bound (ls : list PointOf) : BoundOf := MultiPointOf_Bound ls.
Definition RingOf_Bound (r : list PointOf) : BoundOf := MultiPointOf_Bound r.

(** [func (r RingOf[T]) Closed() bool]; [&&] does not index a short ring. *)
Definition RingOf_Closed (r : list PointOf) : bool :=
  (4 <=? length r)%nat &&
  match r with
  | [] => false
  | p0 :: _ => Equal p0 (last r p0)
  end.

(** The loop of [RingOf.Orientation]: [i] runs from 1 to [len(r)-2], so the
    pairs [(r[i], r[i+1])] are the consecutive pairs of [r[1:]]. *)
Fixpoint areaLoop (offsetX offsetY : Z) (ps : list PointOf) (area : Z) : Z :=
  match ps with
  | ri :: ((ri1 :: _) as rest) =>
    areaLoop offsetX offsetY rest
      (math.add area
         (math.sub
            (math.mul (math.sub (X ri) offsetX) (math.sub (Y ri1) offsetY))
            (math.mul (math.sub (X ri1) offsetX) (math.sub (Y ri) offsetY))))
  | _ => area
  end.

Section Orientation.

(** The type [Orientation] is a Go integer type and [CCW], [CW] two of its
    constants, declared in a file of the package that is not at hand: the
    function is modelled for any values of them. *)
Variable CCW CW : Z.

(** [func (r RingOf[T]) Orientation() Orientation]; [r[0]] panics on an
    empty ring. *)
Definition RingOf_Orientation (r : list PointOf) : result Z :=
  match r with
  | [] => Panic IndexOutOfRange
  | r0 :: rest =>
    let area := areaLoop (X r0) (Y r0) rest 0 in
    if area >? 0 then Ok CCW
    else if area <? 0 then Ok CW
    else Ok 0
  end.

End Orientation.

(** [func (p PolygonOf[T]) Bound() BoundOf[T]] *)
Definition PolygonOf_Bound (p : list (list PointOf)) : BoundOf :=
  match p with
  | [] => emptyBoundOf
  | p0 :: _ => RingOf_Bound p0
  end.

End orb.

(* ===================================================================== *)
(** * Package planar *)
(* ===================================================================== *)

Module planar.

(** [func DistanceSquared[T math.Number](p1, p2 orb.PointOf[T]) T] *)
Definition DistanceSquared (p1 p2 : orb.PointOf) : Z :=
  let d0 := math.sub (orb.X p1) (orb.X p2) in
  let d1 := math.sub (orb.Y p1) (orb.Y p2) in
  math.add (math.mul d0 d0) (math.mul d1 d1).

(** [func Distance[T math.Number](p1, p2 orb.PointOf[T]) T] *)
Definition Distance {PF : Platform} (p1 p2 : orb.PointOf) : Z :=
  let d0 := math.sub (orb.X p1) (orb.X p2) in
  let d1 := math.sub (orb.Y p1) (orb.Y p2) in
  math.Sqrt (math.add (math.mul d0 d0) (math.mul d1 d1)).

End planar.

(** The squared Euclidean distance over the integers, without wrap-around:
    the quantity the specification speaks about. *)
Definition sqdist (a b : orb.PointOf) : Z :=
  (orb.X a - orb.X b) * (orb.X a - orb.X b) +
  (orb.Y a - orb.Y b) * (orb.Y a - orb.Y b).

(** Coordinates small enough that neither [planar.DistanceSquared] nor the
    corners of a search square wrap around, and that [math.Sqrt] is exact. *)
Definition small (c : Z) : Prop := - 2 ^ 24 <= c <= 2 ^ 24.
Definition smallPoint (p : orb.PointOf) : Prop := small (orb.X p) /\ small (orb.Y p).
Definition smallBound (b : orb.BoundOf) : Prop :=
  smallPoint (orb.Min b) /\ smallPoint (orb.Max b).

(** [inside point left right bottom top]: the point lies in the closed cell. *)
Definition inside (point : orb.PointOf) (left right bottom top : Z) : Prop :=
  left <= orb.X point <= right /\ bottom <= orb.Y point <= top.

(** [insideBound b point]: the point lies in the closed rectangle [b]. *)
Definition insideBound (b : orb.BoundOf) (point : orb.PointOf) : Prop :=
  inside point (orb.X (orb.Min b)) (orb.X (orb.Max b))
               (orb.Y (orb.Min b)) (orb.Y (orb.Max b)).

(** The values of the type int64. *)
Definition int64 (z : Z) : Prop := - 2 ^ 63 <= z < 2 ^ 63.
Definition int64Point (p : orb.PointOf) : Prop := int64 (orb.X p) /\ int64 (orb.Y p).
Definition int64Bound (b : orb.BoundOf) : Prop :=
  int64Point (orb.Min b) /\ int64Point (orb.Max b).

(** The points of [r] moved by the vector [(dx, dy)], in int64 arithmetic. *)
Definition translate (dx dy : Z) (r : list orb.PointOf) : list orb.PointOf :=
  map (fun p => {| orb.X := math.add (orb.X p) dx; orb.Y := math.add (orb.Y p) dy |}) r.

(** The rectangle with the componentwise least [Min] and greatest [Max] of
    two rectangles. *)
Definition hull (b c : orb.BoundOf) : orb.BoundOf :=
  {| orb.Min := {| orb.X := Z.min (orb.X (orb.Min b)) (orb.X (orb.Min c));
                   orb.Y := Z.min (orb.Y (orb.Min b)) (orb.Y (orb.Min c)) |};
     orb.Max := {| orb.X := Z.max (orb.X (orb.Max b)) (orb.X (orb.Max c));
                   orb.Y := Z.max (orb.Y (orb.Max b)) (orb.Y (orb.Max c)) |} |}.

(* ===================================================================== *)
(** * Package quadtree *)
(* ===================================================================== *)

Module quadtree.

Inductive error : Type := ErrPointOutsideOfBounds.

Section Model.

Context {E : Type} {PE : orb.PointerOf E} {PF : Platform}.

(** [type FilterFunc[T] func(p orb.PointerOf[T]) bool]; [None] is the nil
    function value. *)
Definition FilterFunc : Type := option (E -> bool).

(** [*node[T]]: [Nil] is the nil pointer, [Node] a node with its value
    (the interface value, [None] when nil) and its four child links. *)
Inductive node : Type :=
| Nil
| Node (Value : option E) (c0 c1 c2 c3 : node).

Record QuadtreeOf : Type := mkQuadtree { bound : orb.BoundOf; root : node }.

(** [&node[T]{Value: p}] *)
Definition leaf (p : E) : node := Node (Some p) Nil Nil Nil Nil.

Definition isNil (n : node) : bool :=
  match n with Nil => true | Node _ _ _ _ _ => false end.

(** [n.Value] and [n.Children[i]] of a non-nil node. *)
Definition Value (n : node) : option E :=
  match n with Nil => None | Node v _ _ _ _ => v end.

Definition Children (n : node) (i : nat) : node :=
  match n, i with
  | Node _ c0 _ _ _, 0%nat => c0
  | Node _ _ c1 _ _, 1%nat => c1
  | Node _ _ _ c2 _, 2%nat => c2
  | Node _ _ _ _ c3, 3%nat => c3
  | _, _ => Nil
  end.

(** [func New[T](bound orb.BoundOf[T]) *QuadtreeOf[T]] *)
Definition New (b : orb.BoundOf) : QuadtreeOf := {| bound := b; root := Nil |}.

(** [func (q *QuadtreeOf[T]) Bound() orb.BoundOf[T]] *)
Definition Bound (q : QuadtreeOf) : orb.BoundOf := bound q.

(** [func childIndex[T](cx, cy T, point orb.PointOf[T]) int] *)
Definition childIndex (cx cy : Z) (point : orb.PointOf) : nat :=
  let i := 0%nat in
  let i := if orb.Y point <=? cy then 2%nat else i in
  let i := if orb.X point >=? cx then S i else i in
  i.

(** The cell of child [i] of a node whose cell is [left, right, bottom, top],
    as [visit.Visit] passes it down: 0 upper-left, 1 upper-right,
    2 lower-left, 3 lower-right of the centre. *)
Definition childCell (i : nat) (left right bottom top : Z) : Z * Z * Z * Z :=
  let cx := math.div (math.add left right) 2 in
  let cy := math.div (math.add bottom top) 2 in
  match i with
  | 0%nat => (left, cx, cy, top)
  | 1%nat => (cx, right, cy, top)
  | 2%nat => (left, cx, bottom, cy)
  | _ => (cx, right, bottom, cy)
  end.

(** [func (q *QuadtreeOf[T]) add(n, p, point, left, right, bottom, top)]:
    the receiver [q] is not used.  The node [n] is updated in place; the
    model returns the updated node.  [add] is only ever called on a non-nil
    node. *)
Fixpoint add (n : node) (p : E) (point : orb.PointOf)
         (left right bottom top : Z) : node :=
  match n with
  | Nil => Nil
  | Node v c0 c1 c2 c3 =>
    let i := 0%nat in
    let cy := math.div (math.add bottom top) 2 in
    let lower := orb.Y point <=? cy in
    let top' := if lower then cy else top in
    let bottom' := if lower then bottom else cy in
    let i := if lower then 2%nat else i in
    let cx := math.div (math.add left right) 2 in
    let east := orb.X point >=? cx in
    let left' := if east then cx else left in
    let right' := if east then right else cx in
    let i := if east then S i else i in
    let place (c : node) : node :=
      match c with
      | Nil => leaf p
      | Node _ _ _ _ _ => add c p point left' right' bottom' top'
      end in
    match i with
    | 0%nat => Node v (place c0) c1 c2 c3
    | 1%nat => Node v c0 (place c1) c2 c3
    | 2%nat => Node v c0 c1 (place c2) c3
    | _ => Node v c0 c1 c2 (place c3)
    end
  end.

(** [func (q *QuadtreeOf[T]) Add(p orb.PointerOf[T]) error]: the model
    returns the index after the call and the error ([None] is nil). *)
Definition Add (q : QuadtreeOf) (p : option E) : QuadtreeOf * option error :=
  match p with
  | None => (q, None)
  | Some e =>
    let point := orb.Point e in
    if negb (orb.Contains (bound q) point) then (q, Some ErrPointOutsideOfBounds)
    else
      match root q with
      | Nil => ({| bound := bound q; root := leaf e |}, None)
      | Node _ _ _ _ _ =>
        ({| bound := bound q;
            root := add (root q) e (orb.Point e)
                        (orb.X (orb.Min (bound q))) (orb.X (orb.Max (bound q)))
                        (orb.Y (orb.Min (bound q))) (orb.Y (orb.Max (bound q))) |},
         None)
      end
  end.

(** [func removeNode[T](n *node[T])].  The [for] loop looks for the first
    non-nil child, clearing every value-less child it meets on the way;
    when no child is left the node's own value is cleared, otherwise the
    child's value is pulled up and the removal continues in that child. *)
Fixpoint removeNode (n : node) : node :=
  match n with
  | Nil => Nil
  | Node _ c0 c1 c2 c3 =>
    match c0 with
    | Node (Some x) _ _ _ _ => Node (Some x) (removeNode c0) c1 c2 c3
    | _ =>
      match c1 with
      | Node (Some x) _ _ _ _ => Node (Some x) Nil (removeNode c1) c2 c3
      | _ =>
        match c2 with
        | Node (Some x) _ _ _ _ => Node (Some x) Nil Nil (removeNode c2) c3
        | _ =>
          match c3 with
          | Node (Some x) _ _ _ _ => Node (Some x) Nil Nil Nil (removeNode c3)
          | _ => Node None Nil Nil Nil Nil
          end
        end
      end
    end
  end.

(** A [*node] held by a visitor is the path of child indices from the root.
    [updateAt path f n] applies the in-place update [f] to the node that
    [path] designates below [n]. *)
Fixpoint updateAt (path : list nat) (f : node -> node) (n : node) : node :=
  match path with
  | [] => f n
  | i :: rest =>
    match n with
    | Nil => Nil
    | Node v c0 c1 c2 c3 =>
      match i with
      | 0%nat => Node v (updateAt rest f c0) c1 c2 c3
      | 1%nat => Node v c0 (updateAt rest f c1) c2 c3
      | 2%nat => Node v c0 c1 (updateAt rest f c2) c3
      | _ => Node v c0 c1 c2 (updateAt rest f c3)
      end
    end
  end.

(** The node a path designates. *)
Fixpoint nodeAt (path : list nat) (n : node) : node :=
  match path with
  | [] => n
  | i :: rest => nodeAt rest (Children n i)
  end.

(** ** The traversal engine *)

(** [type visitor[T] interface { Bound(); Visit(n *node[T]); Point() }].
    [S] is the visitor's state; [Visit] receives the node pointer (a path)
    and the node it points to, and returns the updated visitor. *)
Class visitor (S : Type) : Type := {
  visitor_Bound : S -> orb.BoundOf;
  visitor_Visit : S -> list nat -> node -> result S;
  visitor_Point : S -> orb.PointOf
}.

(** [func (v *visit[T]) Visit(n *node[T], left, right, bottom, top T)].
    [path] is the address of [n]. *)
Fixpoint visit_Visit {S : Type} {V : visitor S} (n : node) (path : list nat)
         (left right bottom top : Z) (s : S) : result S :=
  let b := visitor_Bound s in
  if (left >? orb.X (orb.Max b)) || (right <? orb.X (orb.Min b)) ||
     (bottom >? orb.Y (orb.Max b)) || (top <? orb.Y (orb.Min b))
  then Ok s
  else
    match n with
    | Nil => Panic NilPointerDereference
    | Node v c0 c1 c2 c3 =>
      s <- (match v with
            | Some _ => visitor_Visit s path n
            | None => Ok s
            end) ;;
      if isNil c0 && isNil c1 && isNil c2 && isNil c3 then Ok s
      else
        let cx := math.div (math.add left right) 2 in
        let cy := math.div (math.add bottom top) 2 in
        let i := childIndex cx cy (visitor_Point s) in
        let step (j : nat) (s : S) : result S :=
          match (j mod 4)%nat with
          | 0%nat =>
            match c0 with
            | Nil => Ok s
            | Node _ _ _ _ _ => visit_Visit c0 (path ++ [0%nat]) left cx cy top s
            end
          | 1%nat =>
            match c1 with
            | Nil => Ok s
            | Node _ _ _ _ _ => visit_Visit c1 (path ++ [1%nat]) cx right cy top s
            end
          | 2%nat =>
            match c2 with
            | Nil => Ok s
            | Node _ _ _ _ _ => visit_Visit c2 (path ++ [2%nat]) left cx bottom cy s
            end
          | _ =>
            match c3 with
            | Nil => Ok s
            | Node _ _ _ _ _ => visit_Visit c3 (path ++ [3%nat]) cx right bottom cy s
            end
          end in
        s <- step i s ;;
        s <- step (i + 1)%nat s ;;
        s <- step (i + 2)%nat s ;;
        step (i + 3)%nat s
    end.

(** One iteration of the [for j := i; j < i+4; j++] loop of [visit.Visit] at
    node [n]: nothing for a nil child, the recursive call with the child's
    cell otherwise. *)
Definition visitChild {S : Type} {V : visitor S} (n : node) (path : list nat)
           (left right bottom top : Z) (j : nat) (s : S) : result S :=
  let k := (j mod 4)%nat in
  match Children n k with
  | Nil => Ok s
  | Node _ _ _ _ _ =>
    let '(l', r', b', t') := childCell k left right bottom top in
    visit_Visit (Children n k) (path ++ [k]) l' r' b' t' s
  end.

(** [pruned b left right bottom top]: the test at the head of [visit.Visit],
    true when the cell does not meet the bound [b]. *)
Definition pruned (b : orb.BoundOf) (left right bottom top : Z) : bool :=
  (left >? orb.X (orb.Max b)) || (right <? orb.X (orb.Min b)) ||
  (bottom >? orb.Y (orb.Max b)) || (top <? orb.Y (orb.Min b)).

(** [passes f e]: the test [v.filter != nil && !v.filter(n.Value)] does not
    skip [e]. *)
Definition passes (f : FilterFunc) (e : E) : bool :=
  match f with
  | None => true
  | Some g => g e
  end.

(** The search square written by both distance visitors:
    [Min = point - d], [Max = point + d] in each coordinate. *)
Definition squareAround (point : orb.PointOf) (d : Z) : orb.BoundOf :=
  {| orb.Min := {| orb.X := math.sub (orb.X point) d; orb.Y := math.sub (orb.Y point) d |};
     orb.Max := {| orb.X := math.add (orb.X point) d; orb.Y := math.add (orb.Y point) d |} |}.

(** ** findVisitor *)

Record findVisitor : Type := mkFindVisitor {
  fv_point : orb.PointOf;
  fv_filter : FilterFunc;
  fv_closest : option (list nat);
  fv_closestBound : orb.BoundOf;
  fv_minDistSquared : Z
}.

(** [func (v *findVisitor[T]) Visit(n *node[T])] *)
Definition findVisitor_Visit (v : findVisitor) (path : list nat) (n : node)
  : result findVisitor :=
  match Value n with
  | None => Panic NilPointerDereference
  | Some val =>
    if negb (passes (fv_filter v) val) then Ok v
    else
      let point := orb.Point val in
      let d := planar.DistanceSquared point (fv_point v) in
      if d <? fv_minDistSquared v then
        let d' := math.Sqrt d in
        Ok {| fv_point := fv_point v;
              fv_filter := fv_filter v;
              fv_closest := Some path;
              fv_closestBound := squareAround (fv_point v) d';
              fv_minDistSquared := d |}
      else Ok v
  end.

#[export] Instance findVisitor_visitor : visitor findVisitor := {|
  visitor_Bound := fv_closestBound;
  visitor_Visit := findVisitor_Visit;
  visitor_Point := fv_point
|}.

(** [func (q *QuadtreeOf[T]) Matching(p orb.PointOf[T], f FilterFunc[T])].
    The result is wrapped in [result] because the traversal engine is. *)
Definition Matching (q : QuadtreeOf) (p : orb.PointOf) (f : FilterFunc)
  : result (option E) :=
  match root q with
  | Nil => Ok None
  | Node _ _ _ _ _ =>
    let b := bound q in
    let v := {| fv_point := p; fv_filter := f; fv_closest := None;
                fv_closestBound := b; fv_minDistSquared := math.MaxOf |} in
    v <- visit_Visit (root q) []
           (orb.X (orb.Min (bound q))) (orb.X (orb.Max (bound q)))
           (orb.Y (orb.Min (bound q))) (orb.Y (orb.Max (bound q))) v ;;
    match fv_closest v with
    | None => Ok None
    | Some path => Ok (Value (nodeAt path (root q)))
    end
  end.

(** [func (q *QuadtreeOf[T]) Find(p orb.PointOf[T]) orb.PointerOf[T]] *)
Definition Find (q : QuadtreeOf) (p : orb.PointOf) : result (option E) :=
  Matching q p None.

(** [func (q *QuadtreeOf[T]) Remove(p orb.PointerOf[T], eq FilterFunc[T]) bool].
    A nil [p] makes [p.Point()] panic.  The model returns the index after
    the call and the boolean. *)
Definition Remove (q : QuadtreeOf) (p : option E) (eq : FilterFunc)
  : result (QuadtreeOf * bool) :=
  match p with
  | None => Panic NilPointerDereference
  | Some e =>
    let eq :=
      match eq with
      | None =>
        let point := orb.Point e in
        Some (fun pointer : E => orb.Equal point (orb.Point pointer))
      | Some g => Some g
      end in
    let b := bound q in
    let v := {| fv_point := orb.Point e; fv_filter := eq; fv_closest := None;
                fv_closestBound := b; fv_minDistSquared := math.MaxOf |} in
    v <- visit_Visit (root q) []
           (orb.X (orb.Min (bound q))) (orb.X (orb.Max (bound q)))
           (orb.Y (orb.Min (bound q))) (orb.Y (orb.Max (bound q))) v ;;
    match fv_closest v with
    | None => Ok (q, false)
    | Some path =>
      Ok ({| bound := bound q; root := updateAt path removeNode (root q) |}, true)
    end
  end.

(** ** maxHeap *)

Record heapItem : Type := mkHeapItem { hi_point : E; hi_distance : Z }.

(** Modelled from the spec: the type [maxHeap[T]] with its methods [Push]
    and [Pop], which [quadtree.go] uses but does not declare.  The
    specification describes it as a "bounded max-heap: fixed-capacity
    priority structure keyed by squared distance", from which the search
    "pops the worst" entry.  [quadtree.go] uses it as a slice: it is made by
    [make(maxHeap[T], 0, k+1)], [len(v.maxHeap)] is the number of entries
    kept and [v.maxHeap[0]] is the entry with the greatest distance.  The
    model is the slice's contents, greatest distance first, and the
    slice's capacity. *)
Record maxHeap : Type := mkMaxHeap { heap_items : list heapItem; heap_cap : Z }.

Fixpoint heapInsert (it : heapItem) (l : list heapItem) : list heapItem :=
  match l with
  | [] => [it]
  | x :: rest =>
    if hi_distance x <=? hi_distance it then it :: x :: rest
    else x :: heapInsert it rest
  end.

(** Modelled from the spec: [func (h *maxHeap[T]) Push(point, distance)];
    the capacity is fixed, so a push onto a full heap is a slice-bounds
    panic. *)
Definition Push (h : maxHeap) (point : E) (distance : Z) : result maxHeap :=
  if Z.of_nat (length (heap_items h)) + 1 >? heap_cap h
  then Panic SliceBoundsOutOfRange
  else Ok {| heap_items := heapInsert (mkHeapItem point distance) (heap_items h);
             heap_cap := heap_cap h |}.

(** Modelled from the spec: [func (h *maxHeap[T]) Pop() heapItem[T]]
    removes and returns the entry with the greatest distance. *)
Definition Pop (h : maxHeap) : result (heapItem * maxHeap) :=
  match heap_items h with
  | [] => Panic IndexOutOfRange
  | x :: rest => Ok (x, {| heap_items := rest; heap_cap := heap_cap h |})
  end.

(** ** nearestVisitor *)

Record nearestVisitor : Type := mkNearestVisitor {
  nv_point : orb.PointOf;
  nv_filter : FilterFunc;
  nv_k : Z;
  nv_maxHeap : maxHeap;
  nv_closestBound : orb.BoundOf;
  nv_maxDistSquared : Z
}.

(** [func (v *nearestVisitor[T]) Visit(n *node[T])].  [v.maxHeap[0]] on a
    heap of length 0 is Go's index-out-of-range panic. *)
Definition nearestVisitor_Visit (v : nearestVisitor) (path : list nat) (n : node)
  : result nearestVisitor :=
  match Value n with
  | None => Panic NilPointerDereference
  | Some val =>
    if negb (passes (nv_filter v) val) then Ok v
    else
      let point := orb.Point val in
      let d := planar.DistanceSquared point (nv_point v) in
      if d <? nv_maxDistSquared v then
        h <- Push (nv_maxHeap v) val d ;;
        if Z.of_nat (length (heap_items h)) >? nv_k v then
          popped <- Pop h ;;
          let h := snd popped in
          match heap_items h with
          | [] => Panic IndexOutOfRange
          | top :: _ =>
            let d := math.Sqrt (hi_distance top) in
            Ok {| nv_point := nv_point v;
                  nv_filter := nv_filter v;
                  nv_k := nv_k v;
                  nv_maxHeap := h;
                  nv_closestBound := squareAround (nv_point v) d;
                  nv_maxDistSquared := hi_distance top |}
          end
        else
          Ok {| nv_point := nv_point v;
                nv_filter := nv_filter v;
                nv_k := nv_k v;
                nv_maxHeap := h;
                nv_closestBound := nv_closestBound v;
                nv_maxDistSquared := nv_maxDistSquared v |}
      else Ok v
  end.

#[export] Instance nearestVisitor_visitor : visitor nearestVisitor := {|
  visitor_Bound := nv_closestBound;
  visitor_Visit := nearestVisitor_Visit;
  visitor_Point := nv_point
|}.

(** The visitor that [KNearestMatching] builds before it starts the
    traversal (the struct literal and the [if len(maxDistance) > 0]
    statement that follows it). *)
Definition nearestVisitor_new (q : QuadtreeOf) (p : orb.PointOf) (k : Z)
           (f : FilterFunc) (maxDistance : list Z) : nearestVisitor :=
  let b := bound q in
  let v := {| nv_point := p;
              nv_filter := f;
              nv_k := k;
              nv_maxHeap := {| heap_items := []; heap_cap := math.add k 1 |};
              nv_closestBound := b;
              nv_maxDistSquared := math.MaxOf |} in
  match maxDistance with
  | [] => v
  | r :: _ =>
    {| nv_point := nv_point v;
       nv_filter := nv_filter v;
       nv_k := nv_k v;
       nv_maxHeap := nv_maxHeap v;
       nv_closestBound := nv_closestBound v;
       nv_maxDistSquared := math.mul r r |}
  end.

(** The loop [for i := len(v.maxHeap) - 1; i >= 0; i-- { buf[i] = v.maxHeap.Pop().point }]:
    [n] entries are still to be written, [acc] holds the entries already
    written at the end of [buf]. *)
Fixpoint repack (n : nat) (h : maxHeap) (acc : list E) : result (list E) :=
  match n with
  | O => Ok acc
  | S n' =>
    popped <- Pop h ;;
    repack n' (snd popped) (hi_point (fst popped) :: acc)
  end.

(** [make(maxHeap[T], 0, cap)] panics on a negative capacity and on a
    capacity beyond the platform's limit. *)
Definition makeFails (cap : Z) : bool := (cap <? 0) || (makeLimit <? cap).

(** [func (q *QuadtreeOf[T]) KNearestMatching(buf, p, k, f, maxDistance ...T)].
    [buf] only provides storage: every entry of the returned slice is
    overwritten, so the returned list does not depend on it.  The heap is
    made with capacity [k+1], computed in [int], which is int64 here. *)
Definition KNearestMatching (q : QuadtreeOf) (buf : list E) (p : orb.PointOf)
           (k : Z) (f : FilterFunc) (maxDistance : list Z) : result (list E) :=
  match root q with
  | Nil => Ok []
  | Node _ _ _ _ _ =>
    if makeFails (math.add k 1) then Panic MakeSliceCapOutOfRange
    else
      let v := nearestVisitor_new q p k f maxDistance in
      v <- visit_Visit (root q) []
             (orb.X (orb.Min (bound q))) (orb.X (orb.Max (bound q)))
             (orb.Y (orb.Min (bound q))) (orb.Y (orb.Max (bound q))) v ;;
      repack (length (heap_items (nv_maxHeap v))) (nv_maxHeap v) []
  end.

(** [func (q *QuadtreeOf[T]) KNearest(buf, p, k, maxDistance ...T)] *)
Definition KNearest (q : QuadtreeOf) (buf : list E) (p : orb.PointOf)
           (k : Z) (maxDistance : list Z) : result (list E) :=
  KNearestMatching q buf p k None maxDistance.

(** ** inBoundVisitor *)

Record inBoundVisitor : Type := mkInBoundVisitor {
  ib_bound : orb.BoundOf;
  ib_pointers : list E;
  ib_filter : FilterFunc
}.

(** [func (v *inBoundVisitor[T]) Visit(n *node[T])] *)
Definition inBoundVisitor_Visit (v : inBoundVisitor) (path : list nat) (n : node)
  : result inBoundVisitor :=
  match Value n with
  | None => Panic NilPointerDereference
  | Some val =>
    if negb (passes (ib_filter v) val) then Ok v
    else
      let p := orb.Point val in
      if (orb.X (orb.Min (ib_bound v)) >? orb.X p) ||
         (orb.X (orb.Max (ib_bound v)) <? orb.X p) ||
         (orb.Y (orb.Min (ib_bound v)) >? orb.Y p) ||
         (orb.Y (orb.Max (ib_bound v)) <? orb.Y p)
      then Ok v
      else Ok {| ib_bound := ib_bound v;
                 ib_pointers := ib_pointers v ++ [val];
                 ib_filter := ib_filter v |}
  end.

(** [func (v *inBoundVisitor[T]) Point() (p orb.PointOf[T])] returns the
    zero value of its named result. *)
#[export] Instance inBoundVisitor_visitor : visitor inBoundVisitor := {|
  visitor_Bound := ib_bound;
  visitor_Visit := inBoundVisitor_Visit;
  visitor_Point := fun _ => {| orb.X := 0; orb.Y := 0 |}
|}.

(** [func (q *QuadtreeOf[T]) InBoundMatching(buf, b, f)]: the result starts
    as [buf[:0]] or as the nil slice, in both cases empty. *)
Definition InBoundMatching (q : QuadtreeOf) (buf : list E) (b : orb.BoundOf)
           (f : FilterFunc) : result (list E) :=
  match root q with
  | Nil => Ok []
  | Node _ _ _ _ _ =>
    let v := {| ib_bound := b; ib_pointers := []; ib_filter := f |} in
    v <- visit_Visit (root q) []
           (orb.X (orb.Min (bound q))) (orb.X (orb.Max (bound q)))
           (orb.Y (orb.Min (bound q))) (orb.Y (orb.Max (bound q))) v ;;
    Ok (ib_pointers v)
  end.

(** [func (q *QuadtreeOf[T]) InBound(buf, b)] *)
Definition InBound (q : QuadtreeOf) (buf : list E) (b : orb.BoundOf)
  : result (list E) :=
  InBoundMatching q buf b None.

(** ** Vocabulary of the specification *)

(** The entities stored below a node. *)
Fixpoint entities (n : node) : list E :=
  match n with
  | Nil => []
  | Node v c0 c1 c2 c3 =>
    (match v with Some e => [e] | None => [] end)
      ++ entities c0 ++ entities c1 ++ entities c2 ++ entities c3
  end.

(** Every node present below [n] holds a value. *)
Fixpoint allValued (n : node) : Prop :=
  match n with
  | Nil => True
  | Node v c0 c1 c2 c3 =>
    v <> None /\ allValued c0 /\ allValued c1 /\ allValued c2 /\ allValued c3
  end.

(** The index after a sequence of [Add] calls. *)
Fixpoint addAll (q : QuadtreeOf) (ps : list (option E)) : QuadtreeOf :=
  match ps with
  | [] => q
  | p :: rest => addAll (fst (Add q p)) rest
  end.

(** The cell invariant: everything stored below a node lies in the cell the
    traversal hands to that node, and so on in the children with the
    sub-cells [visit_Visit] and [add] compute. *)
Fixpoint cellInv (n : node) (left right bottom top : Z) : Prop :=
  match n with
  | Nil => True
  | Node v c0 c1 c2 c3 =>
    let cx := math.div (math.add left right) 2 in
    let cy := math.div (math.add bottom top) 2 in
    (forall e, In e (entities n) -> inside (orb.Point e) left right bottom top) /\
    cellInv c0 left cx cy top /\
    cellInv c1 cx right cy top /\
    cellInv c2 left cx bottom cy /\
    cellInv c3 cx right bottom cy
  end.

(** The universe rectangle as the cell handed to the root. *)
Definition rootInv (q : QuadtreeOf) : Prop :=
  cellInv (root q)
          (orb.X (orb.Min (bound q))) (orb.X (orb.Max (bound q)))
          (orb.Y (orb.Min (bound q))) (orb.Y (orb.Max (bound q))).

(** The state of a [findVisitor] during a search for [p] with filter [f]
    in the tree [rt] of an index with universe [univ]: either nothing has
    been accepted yet, or [closest] points to a node of [rt] whose value
    passed the filter, [minDistSquared] is its squared distance to [p] and
    [closestBound] the square of that radius around [p]. *)
Definition findInv (rt : node) (univ : orb.BoundOf) (p : orb.PointOf)
           (f : FilterFunc) (s : findVisitor) : Prop :=
  fv_point s = p /\ fv_filter s = f /\
  match fv_closest s with
  | None => fv_minDistSquared s = math.MaxOf /\ fv_closestBound s = univ
  | Some path =>
    exists e, Value (nodeAt path rt) = Some e /\ passes f e = true /\
              insideBound univ (orb.Point e) /\
              fv_minDistSquared s = sqdist (orb.Point e) p /\
              fv_closestBound s = squareAround p (math.Sqrt (fv_minDistSquared s))
  end.

(** What a walk of a [findVisitor] from [s] to [s'] has done with the
    entities [l]: the threshold has not grown, and no entity of [l] that
    passes the filter is closer than the threshold. *)
Definition findPost (p : orb.PointOf) (f : FilterFunc)
           (s : findVisitor) (l : list E) (s' : findVisitor) : Prop :=
  fv_minDistSquared s' <= fv_minDistSquared s /\
  forall e, In e l -> passes f e = true ->
            fv_minDistSquared s' <= sqdist (orb.Point e) p.

(** The heap keeps the greatest distance first. *)
Definition heapSorted (l : list heapItem) : Prop :=
  StronglySorted (fun a b => hi_distance b <= hi_distance a) l.

(** The state of a [nearestVisitor] during a search for the [k] nearest to
    [p] with filter [f] in the tree [rt] of an index with universe [univ]:
    the heap is sorted, holds at most [k] entries, each a stored entity
    with its squared distance to [p]; and either the threshold and the
    bound are still the initial ones, or the heap is full and they are
    given by its greatest entry. *)
Definition nearestInv (rt : node) (univ : orb.BoundOf) (p : orb.PointOf)
           (f : FilterFunc) (k : Z) (s : nearestVisitor) : Prop :=
  let items := heap_items (nv_maxHeap s) in
  nv_point s = p /\ nv_filter s = f /\ nv_k s = k /\
  heap_cap (nv_maxHeap s) = k + 1 /\
  heapSorted items /\
  Z.of_nat (length items) <= k /\
  Forall (fun it => hi_distance it = sqdist (orb.Point (hi_point it)) p /\
                    In (hi_point it) (entities rt) /\
                    passes f (hi_point it) = true) items /\
  ((nv_maxDistSquared s = math.MaxOf /\ nv_closestBound s = univ) \/
   (Z.of_nat (length items) = k /\
    exists top rest,
      items = top :: rest /\
      nv_maxDistSquared s = hi_distance top /\
      nv_closestBound s = squareAround p (math.Sqrt (hi_distance top)))).

(** What a walk of a [nearestVisitor] from [s] to [s'] has done with the
    entities [l]: as long as the heap has room for all of those that pass
    the filter, it has taken them all in. *)
Definition nearestPost (f : FilterFunc) (k : Z)
           (s : nearestVisitor) (l : list E) (s' : nearestVisitor) : Prop :=
  Z.of_nat (length (heap_items (nv_maxHeap s))) +
  Z.of_nat (length (filter (passes f) l)) <= k ->
  Permutation (map hi_point (heap_items (nv_maxHeap s')))
              (map hi_point (heap_items (nv_maxHeap s)) ++ filter (passes f) l).

(** The entities a range query over [b] with filter [f] appends: those
    that pass the filter and are not rejected by the four comparisons of
    [inBoundVisitor.Visit]. *)
Definition inBoundAccepts (b : orb.BoundOf) (f : FilterFunc) (e : E) : bool :=
  passes f e &&
  negb ((orb.X (orb.Min b) >? orb.X (orb.Point e)) ||
        (orb.X (orb.Max b) <? orb.X (orb.Point e)) ||
        (orb.Y (orb.Min b) >? orb.Y (orb.Point e)) ||
        (orb.Y (orb.Max b) <? orb.Y (orb.Point e))).

Definition inBoundInv (b : orb.BoundOf) (f : FilterFunc) (s : inBoundVisitor) : Prop :=
  ib_bound s = b /\ ib_filter s = f.

Definition inBoundPost (b : orb.BoundOf) (f : FilterFunc)
           (s : inBoundVisitor) (l : list E) (s' : inBoundVisitor) : Prop :=
  Permutation (ib_pointers s') (ib_pointers s ++ filter (inBoundAccepts b f) l).

(** The entities of [ps] that [Add] accepts into an index over [b]: the
    non-nil ones whose point [b] contains. *)
Fixpoint accepted (b : orb.BoundOf) (ps : list (option E)) : list E :=
  match ps with
  | [] => []
  | None :: rest => accepted b rest
  | Some e :: rest =>
    if orb.Contains b (orb.Point e) then e :: accepted b rest else accepted b rest
  end.

(** What holds of a [findVisitor] whatever the coordinates are: as long as
    nothing has been accepted the threshold and the bound are the initial
    ones; afterwards [closest] points to a node of [rt] whose value passed
    the filter. *)
Definition findSoundInv (rt : node) (univ : orb.BoundOf) (f : FilterFunc)
           (s : findVisitor) : Prop :=
  fv_filter s = f /\
  match fv_closest s with
  | None => fv_minDistSquared s = math.MaxOf /\ fv_closestBound s = univ
  | Some path => exists e, Value (nodeAt path rt) = Some e /\ passes f e = true
  end.

(** A walk that ends with nothing accepted started with nothing accepted
    and met no entity that passes the filter. *)
Definition findSoundPost (f : FilterFunc)
           (s : findVisitor) (l : list E) (s' : findVisitor) : Prop :=
  fv_closest s' = None ->
  fv_closest s = None /\ forall e, In e l -> passes f e = false.

(** The state of a [nearestVisitor] whose threshold started at [M0]
    ([math.MaxOf], or the square of the radius given): the heap is sorted
    and holds at most [k] entries, each with its squared distance to [p],
    which is below [M0]; the threshold has not grown; and either the
    threshold and the bound are still the initial ones, or the heap is full
    and they are given by its greatest entry. *)
Definition nearestInvR (rt : node) (univ : orb.BoundOf) (p : orb.PointOf)
           (f : FilterFunc) (k M0 : Z) (s : nearestVisitor) : Prop :=
  let items := heap_items (nv_maxHeap s) in
  nv_point s = p /\ nv_filter s = f /\ nv_k s = k /\
  heap_cap (nv_maxHeap s) = k + 1 /\
  heapSorted items /\
  Z.of_nat (length items) <= k /\
  Forall (fun it => hi_distance it = sqdist (orb.Point (hi_point it)) p /\
                    insideBound univ (orb.Point (hi_point it)) /\
                    hi_distance it < M0) items /\
  nv_maxDistSquared s <= M0 /\
  ((nv_maxDistSquared s = M0 /\ nv_closestBound s = univ) \/
   (Z.of_nat (length items) = k /\
    exists top rest,
      items = top :: rest /\
      nv_maxDistSquared s = hi_distance top /\
      nv_closestBound s = squareAround p (math.Sqrt (hi_distance top)))).

(** What a walk of a [nearestVisitor] from [s] to [s'] has done with the
    entities [l]: the threshold has not grown, and the entities of [l] that
    pass the filter are in the heap, together with those it held, except
    for entities [far] that are at least as far as the final threshold. *)
Definition nearestPostR (p : orb.PointOf) (f : FilterFunc)
           (s : nearestVisitor) (l : list E) (s' : nearestVisitor) : Prop :=
  nv_maxDistSquared s' <= nv_maxDistSquared s /\
  exists far,
    Permutation (map hi_point (heap_items (nv_maxHeap s)) ++ filter (passes f) l)
                (map hi_point (heap_items (nv_maxHeap s')) ++ far) /\
    forall e, In e far -> nv_maxDistSquared s' <= sqdist (orb.Point e) p.

(** The indexes a program can build: [New], then [Add] and [Remove] calls
    that return. *)
Inductive reachable : QuadtreeOf -> Prop :=
| reach_New : forall b, reachable (New b)
| reach_Add : forall q p, reachable q -> reachable (fst (Add q p))
| reach_Remove : forall q p eq q' found,
    reachable q -> Remove q p eq = Ok (q', found) -> reachable q'.

End Model.

(** ** Concrete indexes used by the examples below.  The entities are
    plain points, which are their own pointers. *)

Definition pt (x y : Z) : orb.PointOf := {| orb.X := x; orb.Y := y |}.

(** The universe rectangle (0,0)-(10,10). *)
Definition universe10 : orb.BoundOf := {| orb.Min := pt 0 0; orb.Max := pt 10 10 |}.

(** The scenario of the specification: (1,1), (9,9), (5,5), (1,9). *)
Definition scenario : QuadtreeOf (E := orb.PointOf) :=
  addAll (New universe10) [Some (pt 1 1); Some (pt 9 9); Some (pt 5 5); Some (pt 1 9)].

(** An index with a single entity. *)
Definition single : QuadtreeOf (E := orb.PointOf) :=
  addAll (New universe10) [Some (pt 5 5)].

(** The steps of a run that loses an entity: add (5,5) and (1,9), remove
    (1,9), add (1,8), remove (5,5). *)
Definition lossy2 : QuadtreeOf (E := orb.PointOf) :=
  addAll (New universe10) [Some (pt 5 5); Some (pt 1 9)].

Definition lossy3 : QuadtreeOf (E := orb.PointOf) :=
  {| bound := universe10;
     root := Node (Some (pt 5 5)) (Node None Nil Nil Nil Nil) Nil Nil Nil |}.

Definition lossy4 : QuadtreeOf (E := orb.PointOf) :=
  {| bound := universe10;
     root := Node (Some (pt 5 5))
                  (Node None (leaf (pt 1 8)) Nil Nil Nil) Nil Nil Nil |}.

Definition lossy5 : QuadtreeOf (E := orb.PointOf) :=
  {| bound := universe10; root := Node None Nil Nil Nil Nil |}.

(** A platform on which to instantiate the theorems, which hold on every
    platform: any function and any limit in the range would do. *)
Definition examplePlatform : Platform :=
  {| sqrtFar := fun _ => 0;
     makeLimit := 2 ^ 32;
     makeLimit_min := ltac:(vm_compute; discriminate);
     makeLimit_max := eq_refl |}.

(** An index over a universe wide enough for a squared distance to wrap
    around: (2^32, 0) is stored at the root and (1, 0) below it. *)
Definition wide : QuadtreeOf (E := orb.PointOf) :=
  addAll (New {| orb.Min := pt 0 0; orb.Max := pt (2 ^ 32) (2 ^ 32) |})
         [Some (pt (2 ^ 32) 0); Some (pt 1 0)].

(* ===================================================================== *)
(** * Properties *)
(* ===================================================================== *)

Section Properties.

Context {E : Type} {PE : orb.PointerOf E} {PF : Platform}.

Implicit Types (q : QuadtreeOf (E := E)) (n : node (E := E)) (e : E).

(** ** Insertion: errors and atomicity *)

Lemma Contains_inside (b : orb.BoundOf) (point : orb.PointOf) :
  orb.Contains b point = true <->
  inside point (orb.X (orb.Min b)) (orb.X (orb.Max b))
               (orb.Y (orb.Min b)) (orb.Y (orb.Max b)).
Proof.
  unfold orb.Contains, inside.
  destruct (orb.Y point <? orb.Y (orb.Min b)) eqn:H1;
  destruct (orb.Y (orb.Max b) <? orb.Y point) eqn:H2;
  destruct (orb.X point <? orb.X (orb.Min b)) eqn:H3;
  destruct (orb.X (orb.Max b) <? orb.X point) eqn:H4;
  simpl; split; intros H; try discriminate; try reflexivity; lia.
Qed.

(** C3.  [Add] of an entity returns the out-of-bounds error exactly when
    the entity's point lies strictly outside the universe rectangle (a
    point on the edge is inside and the call succeeds), it returns no error
    exactly when the point is inside, and [Add] of a nil reference returns
    no error and the index it was given. *)
Theorem Add_error_iff_outside :
  forall q e,
    let point := orb.Point e in
    let b := bound q in
    (snd (Add q (Some e)) = Some ErrPointOutsideOfBounds <->
       (orb.X point < orb.X (orb.Min b) \/ orb.X (orb.Max b) < orb.X point \/
        orb.Y point < orb.Y (orb.Min b) \/ orb.Y (orb.Max b) < orb.Y point)) /\
    (snd (Add q (Some e)) = None <->
       (orb.X (orb.Min b) <= orb.X point <= orb.X (orb.Max b) /\
        orb.Y (orb.Min b) <= orb.Y point <= orb.Y (orb.Max b))) /\
    Add q None = (q, None).
Proof.
  intros q e point b. subst point b.
  pose proof (Contains_inside (bound q) (orb.Point e)) as HC.
  unfold inside in HC. unfold Add.
  destruct (orb.Contains (bound q) (orb.Point e)) eqn:Hc; simpl.
  - assert (Hin : orb.X (orb.Min (bound q)) <= orb.X (orb.Point e) <= orb.X (orb.Max (bound q)) /\
                  orb.Y (orb.Min (bound q)) <= orb.Y (orb.Point e) <= orb.Y (orb.Max (bound q)))
      by (apply HC; reflexivity).
    destruct (root q); simpl; repeat split; intros; try discriminate; try lia; auto.
  - assert (Hout : ~ (orb.X (orb.Min (bound q)) <= orb.X (orb.Point e) <= orb.X (orb.Max (bound q)) /\
                      orb.Y (orb.Min (bound q)) <= orb.Y (orb.Point e) <= orb.Y (orb.Max (bound q))))
      by (intros H; apply HC in H; discriminate).
    repeat split; intros; try discriminate; try reflexivity; try lia.
Qed.

(** C9.  [Add] is atomic on failure: when it is given a nil reference or
    returns the out-of-bounds error, the index after the call (root,
    stored entities and universe bound) is the index before the call. *)
Theorem Add_failure_leaves_index :
  forall q (p : option E),
    p = None \/ snd (Add q p) = Some ErrPointOutsideOfBounds ->
    fst (Add q p) = q.
Proof.
  intros q p [Hp | Herr].
  - subst p. reflexivity.
  - destruct p as [e|]; [|reflexivity].
    unfold Add in *.
    destruct (negb (orb.Contains (bound q) (orb.Point e))); [reflexivity|].
    destruct (root q); simpl in Herr; discriminate.
Qed.

(** ** Insertion: every node holds a value *)

Lemma place_cases n p point left right bottom top (P : node (E := E) -> Prop) :
  P (leaf p) ->
  (n <> Nil -> P (add n p point left right bottom top)) ->
  P (match n with
     | Nil => leaf p
     | Node _ _ _ _ _ => add n p point left right bottom top
     end).
Proof.
  destruct n; intros Hl Ha; [exact Hl|]. apply Ha. discriminate.
Qed.

Lemma add_allValued n p point left right bottom top :
  allValued n -> allValued (add n p point left right bottom top).
Proof.
  revert left right bottom top.
  induction n as [|v c0 IH0 c1 IH1 c2 IH2 c3 IH3]; intros left right bottom top H;
    [exact I|].
  simpl in H. destruct H as (Hv & H0 & H1 & H2 & H3).
  assert (Hleaf : allValued (leaf p)) by (simpl; repeat split; discriminate).
  cbn [add]. cbv zeta.
  destruct (orb.Y point <=? math.div (math.add bottom top) 2);
  destruct (orb.X point >=? math.div (math.add left right) 2);
  cbn [allValued]; repeat split; auto;
  apply place_cases; auto.
Qed.

Lemma Add_allValued q p : allValued (root q) -> allValued (root (fst (Add q p))).
Proof.
  intros H. destruct p as [e|]; [|exact H].
  unfold Add. destruct (negb (orb.Contains (bound q) (orb.Point e))); [exact H|].
  destruct (root q) eqn:Hr; cbn [fst root].
  - simpl. repeat split; discriminate.
  - rewrite <- Hr in *. apply add_allValued. exact H.
Qed.

Lemma allValued_addAll_from q ps :
  allValued (root q) -> allValued (root (addAll q ps)).
Proof.
  revert q. induction ps as [|p ps IH]; intros q H; simpl; [exact H|].
  apply IH. apply Add_allValued. exact H.
Qed.

Lemma allValued_nodeAt n :
  allValued n ->
  forall path : list nat,
    nodeAt path n = Nil \/ exists e, Value (nodeAt path n) = Some e.
Proof.
  intros H path. revert n H.
  induction path as [|i path IH]; intros n H.
  - destruct n as [|[e|] c0 c1 c2 c3]; [left; reflexivity | right; exists e; reflexivity |].
    simpl in H. destruct H as [H _]. contradiction.
  - cbn [nodeAt]. apply IH.
    destruct n as [|v c0 c1 c2 c3]; [destruct i; exact I|].
    simpl in H. destruct H as (_ & H0 & H1 & H2 & H3).
    destruct i as [|[|[|[|i]]]]; cbn [Children]; auto. exact I.
Qed.

(** C10.  In an index built by [New] followed by any sequence of [Add]
    calls (nil references and out-of-bounds entities included), every node
    present in the tree holds an entity value: whatever node pointer the
    traversal engine reaches, by any path of child links from the root, is
    either nil (the node was never created) or a node with a value. *)
Theorem addAll_allValued :
  forall (b : orb.BoundOf) (ps : list (option E)),
    let r := root (addAll (New b) ps) in
    allValued r /\
    forall path : list nat,
      nodeAt path r = Nil \/ exists e, Value (nodeAt path r) = Some e.
Proof.
  intros b ps r.
  assert (H : allValued r) by (apply allValued_addAll_from; exact I).
  split; [exact H|]. apply allValued_nodeAt. exact H.
Qed.

(** ** Quadrant choice *)

(** C8.  For a cell with centre [(cx, cy)], [childIndex] yields the lower
    half (2 or 3) exactly when the point's y is at most [cy] and the right
    half (1 or 3) exactly when its x is at least [cx]; and [add], at a node
    whose cell has that centre, touches exactly the child slot
    [childIndex] names: an empty slot receives the new leaf, an occupied one
    is descended into with the cell of that quadrant. *)
Theorem childIndex_ties_and_add_slot :
  (forall (cx cy : Z) (point : orb.PointOf),
     let i := childIndex cx cy point in
     ((i = 2 \/ i = 3)%nat <-> orb.Y point <= cy) /\
     ((i = 0 \/ i = 1)%nat <-> cy < orb.Y point) /\
     ((i = 1 \/ i = 3)%nat <-> cx <= orb.X point) /\
     ((i = 0 \/ i = 2)%nat <-> orb.X point < cx)) /\
  (forall (v : option E) (c0 c1 c2 c3 : node) (p : E) (point : orb.PointOf)
          (left right bottom top : Z),
     let n := Node v c0 c1 c2 c3 in
     let cx := math.div (math.add left right) 2 in
     let cy := math.div (math.add bottom top) 2 in
     let i := childIndex cx cy point in
     let '(l', r', b', t') := childCell i left right bottom top in
     let n' := add n p point left right bottom top in
     Value n' = v /\
     forall j : nat,
       Children n' j =
       if Nat.eqb j i then
         match Children n i with
         | Nil => leaf p
         | Node _ _ _ _ _ => add (Children n i) p point l' r' b' t'
         end
       else Children n j).
Proof.
  split.
  - intros cx cy point. unfold childIndex. cbv zeta.
    destruct (orb.Y point <=? cy) eqn:Hy; destruct (orb.X point >=? cx) eqn:Hx;
      repeat split; intros; try lia.
  - intros v c0 c1 c2 c3 p point left right bottom top.
    unfold childIndex, childCell. cbn [add]. cbv zeta.
    destruct (orb.Y point <=? math.div (math.add bottom top) 2);
    destruct (orb.X point >=? math.div (math.add left right) 2);
    (split; [reflexivity|]);
    intros [|[|[|[|j]]]]; reflexivity.
Qed.

(** ** Arithmetic without wrap-around *)

Lemma wrap_small (z : Z) : - 2 ^ 63 <= z < 2 ^ 63 -> math.wrap z = z.
Proof.
  intros H. unfold math.wrap.
  change (2 ^ 64) with 18446744073709551616.
  change (2 ^ 63) with 9223372036854775808 in *.
  rewrite Z.mod_small; lia.
Qed.

Lemma small_bounds (c : Z) : small c -> - 16777216 <= c <= 16777216.
Proof. unfold small. lia. Qed.

Lemma square_bounds (d M : Z) : - M <= d <= M -> 0 <= d * d <= M * M.
Proof. intros H. nia. Qed.

Lemma sqdist_small (a b : orb.PointOf) :
  smallPoint a -> smallPoint b -> 0 <= sqdist a b <= 2 ^ 51.
Proof.
  intros [Hax Hay] [Hbx Hby]. apply small_bounds in Hax, Hay, Hbx, Hby.
  unfold sqdist. change (2 ^ 51) with 2251799813685248.
  pose proof (square_bounds (orb.X a - orb.X b) 33554432) as H0.
  pose proof (square_bounds (orb.Y a - orb.Y b) 33554432) as H1.
  lia.
Qed.

Lemma DistanceSquared_small (a b : orb.PointOf) :
  smallPoint a -> smallPoint b -> planar.DistanceSquared a b = sqdist a b.
Proof.
  intros [Hax Hay] [Hbx Hby]. apply small_bounds in Hax, Hay, Hbx, Hby.
  pose proof (square_bounds (orb.X a - orb.X b) 33554432) as H0.
  pose proof (square_bounds (orb.Y a - orb.Y b) 33554432) as H1.
  unfold planar.DistanceSquared, sqdist, math.sub, math.mul, math.add.
  rewrite (wrap_small (orb.X a - orb.X b)) by lia.
  rewrite (wrap_small (orb.Y a - orb.Y b)) by lia.
  rewrite (wrap_small ((orb.X a - orb.X b) * (orb.X a - orb.X b))) by lia.
  rewrite (wrap_small ((orb.Y a - orb.Y b) * (orb.Y a - orb.Y b))) by lia.
  apply wrap_small. lia.
Qed.

Lemma Sqrt_bounds (m : Z) :
  0 <= m <= 2 ^ 51 ->
  0 <= math.Sqrt m <= 2 ^ 26 /\
  math.Sqrt m * math.Sqrt m <= m < (math.Sqrt m + 1) * (math.Sqrt m + 1).
Proof.
  change (2 ^ 51) with 2251799813685248. change (2 ^ 26) with 67108864.
  intros H. unfold math.Sqrt.
  change (2 ^ 52) with 4503599627370496.
  destruct (Z.leb_spec 0 m); [|lia].
  destruct (Z.ltb_spec m 4503599627370496); [|lia].
  cbn [andb].
  pose proof (Z.sqrt_spec m (proj1 H)) as Hs.
  pose proof (Z.sqrt_nonneg m) as Hn.
  cbv zeta in Hs. unfold Z.succ in Hs.
  split; [|lia]. split; [lia|]. nia.
Qed.

Lemma square_grows (d r : Z) :
  0 <= r -> d < - r \/ r < d -> (r + 1) * (r + 1) <= d * d.
Proof. intros Hr [H | H]; nia. Qed.

(** A point outside the search square of radius [Sqrt m] around [p] is at a
    squared distance greater than [m]. *)
Lemma outside_square_farther (p x : orb.PointOf) (m : Z) :
  smallPoint p -> smallPoint x -> 0 <= m <= 2 ^ 51 ->
  let b := squareAround p (math.Sqrt m) in
  ~ inside x (orb.X (orb.Min b)) (orb.X (orb.Max b))
             (orb.Y (orb.Min b)) (orb.Y (orb.Max b)) ->
  m < sqdist x p.
Proof.
  intros [Hpx Hpy] [Hxx Hxy] Hm b Hout. subst b.
  apply small_bounds in Hpx, Hpy, Hxx, Hxy.
  destruct (Sqrt_bounds m Hm) as [Hr Hsq].
  change (2 ^ 26) with 67108864 in Hr.
  unfold squareAround, inside, math.sub, math.add in Hout. cbn [orb.X orb.Y orb.Min orb.Max] in Hout.
  rewrite !wrap_small in Hout by lia.
  unfold sqdist.
  set (r := math.Sqrt m) in *.
  pose proof (square_bounds (orb.X x - orb.X p) 33554432) as H0.
  pose proof (square_bounds (orb.Y x - orb.Y p) 33554432) as H1.
  pose proof (square_grows (orb.X x - orb.X p) r (proj1 Hr)) as G0.
  pose proof (square_grows (orb.Y x - orb.Y p) r (proj1 Hr)) as G1.
  assert (Hc : (orb.X x - orb.X p < - r \/ r < orb.X x - orb.X p) \/
               (orb.Y x - orb.Y p < - r \/ r < orb.Y x - orb.Y p)) by lia.
  destruct Hc as [Hc | Hc]; [specialize (G0 Hc) | specialize (G1 Hc)]; lia.
Qed.

(** ** The traversal engine *)

Lemma childIndex_lt (cx cy : Z) (point : orb.PointOf) :
  (childIndex cx cy point < 4)%nat.
Proof.
  unfold childIndex. cbv zeta.
  destruct (orb.Y point <=? cy); destruct (orb.X point >=? cx); lia.
Qed.

Lemma visit_Visit_Node {S : Type} {V : visitor (E := E) S} v c0 c1 c2 c3 path
      left right bottom top (s : S) :
  let n := Node v c0 c1 c2 c3 in
  visit_Visit n path left right bottom top s =
  if pruned (visitor_Bound s) left right bottom top then Ok s
  else
    s1 <- (match v with
           | Some _ => visitor_Visit s path n
           | None => Ok s
           end) ;;
    if isNil c0 && isNil c1 && isNil c2 && isNil c3 then Ok s1
    else
      let i := childIndex (math.div (math.add left right) 2)
                          (math.div (math.add bottom top) 2) (visitor_Point s1) in
      s2 <- visitChild n path left right bottom top i s1 ;;
      s3 <- visitChild n path left right bottom top (i + 1) s2 ;;
      s4 <- visitChild n path left right bottom top (i + 2) s3 ;;
      visitChild n path left right bottom top (i + 3) s4.
Proof.
  intros n. subst n. cbn [visit_Visit]. unfold pruned.
  destruct ((left >? orb.X (orb.Max (visitor_Bound s))) ||
            (right <? orb.X (orb.Min (visitor_Bound s))) ||
            (bottom >? orb.Y (orb.Max (visitor_Bound s))) ||
            (top <? orb.Y (orb.Min (visitor_Bound s)))); [reflexivity|].
  destruct (match v with
            | Some _ => visitor_Visit s path (Node v c0 c1 c2 c3)
            | None => Ok s
            end) as [s1|]; [|reflexivity].
  cbn [bind].
  destruct (isNil c0 && isNil c1 && isNil c2 && isNil c3); [reflexivity|].
  unfold childIndex. cbv zeta.
  destruct (orb.Y (visitor_Point s1) <=? math.div (math.add bottom top) 2);
  destruct (orb.X (visitor_Point s1) >=? math.div (math.add left right) 2);
  reflexivity.
Qed.

Lemma pruned_outside (b : orb.BoundOf) (left right bottom top : Z)
      (x : orb.PointOf) :
  pruned b left right bottom top = true ->
  inside x left right bottom top -> ~ insideBound b x.
Proof.
  unfold pruned, insideBound, inside. intros Hp Hin Hb.
  rewrite !Z.gtb_ltb, !orb_true_iff, !Z.ltb_lt in Hp. lia.
Qed.

Lemma nodeAt_app (p1 p2 : list nat) n :
  nodeAt (p1 ++ p2) n = nodeAt p2 (nodeAt p1 n).
Proof.
  revert n. induction p1 as [|i p1 IH]; intros n; simpl; [reflexivity|]. apply IH.
Qed.

Lemma entities_child n (k : nat) e :
  In e (entities (Children n k)) -> In e (entities n).
Proof.
  destruct n as [|v c0 c1 c2 c3]; [destruct k; simpl; tauto|].
  destruct k as [|[|[|[|k]]]]; cbn [Children entities]; intros H;
    rewrite !in_app_iff; simpl in H; tauto.
Qed.

Lemma nodeAt_entities (path : list nat) n e :
  Value (nodeAt path n) = Some e -> In e (entities n).
Proof.
  revert n. induction path as [|i path IH]; intros n H.
  - destruct n as [|v c0 c1 c2 c3]; simpl in H; [discriminate|].
    subst v. simpl. left. reflexivity.
  - simpl in H. apply IH in H. eapply entities_child. exact H.
Qed.

Lemma cellInv_child n (k : nat) left right bottom top :
  cellInv n left right bottom top ->
  let '(l', r', b', t') := childCell k left right bottom top in
  cellInv (Children n k) l' r' b' t'.
Proof.
  destruct n as [|v c0 c1 c2 c3]; intros H.
  - destruct k as [|[|[|[|k]]]]; exact I.
  - cbn [cellInv] in H. destruct H as (_ & H0 & H1 & H2 & H3).
    destruct k as [|[|[|[|k]]]]; cbn [childCell Children]; auto. exact I.
Qed.

Lemma cellInv_inside n left right bottom top e :
  cellInv n left right bottom top -> In e (entities n) ->
  inside (orb.Point e) left right bottom top.
Proof.
  destruct n as [|v c0 c1 c2 c3]; intros H Hin; [destruct Hin|].
  cbn [cellInv] in H. destruct H as (H & _). apply H. exact Hin.
Qed.

Lemma perm_rot1 {A : Type} (a b c d : list A) :
  Permutation (b ++ c ++ d ++ a) (a ++ b ++ c ++ d).
Proof.
  replace (b ++ c ++ d ++ a) with ((b ++ c ++ d) ++ a)
    by (rewrite <- !app_assoc; reflexivity).
  apply Permutation_app_comm.
Qed.

Lemma perm_rot2 {A : Type} (a b c d : list A) :
  Permutation (c ++ d ++ a ++ b) (a ++ b ++ c ++ d).
Proof.
  replace (c ++ d ++ a ++ b) with ((c ++ d) ++ a ++ b)
    by (rewrite <- !app_assoc; reflexivity).
  replace (a ++ b ++ c ++ d) with ((a ++ b) ++ c ++ d)
    by (rewrite <- !app_assoc; reflexivity).
  apply Permutation_app_comm.
Qed.

Lemma perm_rot3 {A : Type} (a b c d : list A) :
  Permutation (d ++ a ++ b ++ c) (a ++ b ++ c ++ d).
Proof.
  replace (a ++ b ++ c ++ d) with ((a ++ b ++ c) ++ d)
    by (rewrite <- !app_assoc; reflexivity).
  apply Permutation_app_comm.
Qed.

(** The engine, once and for all visitors.  A visitor comes with an
    invariant [Inv] of its state and a relation [Post s l s'] that says what
    a walk from state [s] to state [s'] has done with the entities [l] it
    was offered.  Entities that lie outside the visitor's current bound may
    be skipped, a visit accounts for the visited entity, and walks compose.
    Then one [visit.Visit] call on a node accounts for every entity below
    that node, and returns. *)
Section Engine.

Context {S : Type} {V : visitor (E := E) S}.
Variable rt : node (E := E).
Variable Good : E -> Prop.
Variable Inv : S -> Prop.
Variable Post : S -> list E -> S -> Prop.

Hypothesis Post_skip :
  forall s l, Inv s ->
    (forall e, In e l -> Good e /\ ~ insideBound (visitor_Bound s) (orb.Point e)) ->
    Post s l s.
Hypothesis Post_visit :
  forall s path n e, Inv s -> nodeAt path rt = n -> Value n = Some e -> Good e ->
    exists s', visitor_Visit s path n = Ok s' /\ Inv s' /\ Post s [e] s'.
Hypothesis Post_trans :
  forall s l1 s1 l2 s2, Post s l1 s1 -> Post s1 l2 s2 -> Post s (l1 ++ l2) s2.
Hypothesis Post_perm :
  forall s l l' s', Permutation l l' -> Post s l s' -> Post s l' s'.

Lemma visitChild_spec n path left right bottom top :
  (forall k path' l r b t s,
      Children n k <> Nil -> nodeAt path' rt = Children n k ->
      cellInv (Children n k) l r b t ->
      (forall e, In e (entities (Children n k)) -> Good e) -> Inv s ->
      exists s', visit_Visit (Children n k) path' l r b t s = Ok s' /\
                 Inv s' /\ Post s (entities (Children n k)) s') ->
  nodeAt path rt = n -> cellInv n left right bottom top ->
  (forall e, In e (entities n) -> Good e) ->
  forall j s, Inv s ->
    exists s', visitChild n path left right bottom top j s = Ok s' /\
               Inv s' /\ Post s (entities (Children n (j mod 4))) s'.
Proof.
  intros IH Hat Hcell Hgood j s Hinv. unfold visitChild. cbv zeta.
  set (k := (j mod 4)%nat).
  pose proof (cellInv_child n k _ _ _ _ Hcell) as Hc.
  destruct (childCell k left right bottom top) as [[[l' r'] b'] t'].
  destruct (Children n k) eqn:Hk.
  - exists s. split; [reflexivity|]. split; [exact Hinv|].
    apply Post_skip; [exact Hinv|]. intros e [].
  - rewrite <- Hk in *. apply IH; auto.
    + rewrite Hk. discriminate.
    + rewrite nodeAt_app, Hat. reflexivity.
    + intros e He. apply Hgood. eapply entities_child. exact He.
Qed.

Lemma visit_Visit_spec n :
  forall path left right bottom top s,
    n <> Nil -> nodeAt path rt = n -> cellInv n left right bottom top ->
    (forall e, In e (entities n) -> Good e) -> Inv s ->
    exists s', visit_Visit n path left right bottom top s = Ok s' /\
               Inv s' /\ Post s (entities n) s'.
Proof.
  induction n as [|v c0 IH0 c1 IH1 c2 IH2 c3 IH3];
    intros path left right bottom top s Hn Hat Hcell Hgood Hinv; [contradiction|].
  assert (IH : forall k path' l r b t s0,
             Children (Node v c0 c1 c2 c3) k <> Nil ->
             nodeAt path' rt = Children (Node v c0 c1 c2 c3) k ->
             cellInv (Children (Node v c0 c1 c2 c3) k) l r b t ->
             (forall e, In e (entities (Children (Node v c0 c1 c2 c3) k)) -> Good e) ->
             Inv s0 ->
             exists s', visit_Visit (Children (Node v c0 c1 c2 c3) k) path' l r b t s0 = Ok s' /\
                        Inv s' /\ Post s0 (entities (Children (Node v c0 c1 c2 c3) k)) s').
  { intros k. destruct k as [|[|[|[|k]]]]; cbn [Children]; auto.
    intros; contradiction. }
  pose proof (visitChild_spec _ path left right bottom top IH Hat Hcell Hgood) as Hstep.
  rewrite visit_Visit_Node. cbv zeta.
  destruct (pruned (visitor_Bound s) left right bottom top) eqn:Hp.
  - exists s. split; [reflexivity|]. split; [exact Hinv|].
    apply Post_skip; [exact Hinv|]. intros e He. split; [auto|].
    eapply pruned_outside; [exact Hp|]. eapply cellInv_inside; eauto.
  - assert (Hv : exists s1,
               match v with
               | Some _ => visitor_Visit s path (Node v c0 c1 c2 c3)
               | None => Ok s
               end = Ok s1 /\ Inv s1 /\
               Post s (match v with Some e => [e] | None => [] end) s1).
    { destruct v as [e|].
      - apply Post_visit; auto. apply Hgood. simpl. left. reflexivity.
      - exists s. split; [reflexivity|]. split; [exact Hinv|].
        apply Post_skip; [exact Hinv|]. intros e []. }
    destruct Hv as (s1 & E1 & I1 & P1). rewrite E1. cbn [bind].
    destruct (isNil c0 && isNil c1 && isNil c2 && isNil c3) eqn:Hnil.
    + exists s1. split; [reflexivity|]. split; [exact I1|].
      rewrite !andb_true_iff in Hnil. destruct Hnil as [[[N0 N1] N2] N3].
      destruct c0; [|discriminate]. destruct c1; [|discriminate].
      destruct c2; [|discriminate]. destruct c3; [|discriminate].
      cbn [entities]. rewrite !app_nil_r. exact P1.
    + set (i := childIndex (math.div (math.add left right) 2)
                           (math.div (math.add bottom top) 2) (visitor_Point s1)).
      assert (Hi : (i < 4)%nat) by apply childIndex_lt.
      destruct (Hstep i s1 I1) as (s2 & E2 & I2 & P2).
      destruct (Hstep (i + 1)%nat s2 I2) as (s3 & E3 & I3 & P3).
      destruct (Hstep (i + 2)%nat s3 I3) as (s4 & E4 & I4 & P4).
      destruct (Hstep (i + 3)%nat s4 I4) as (s5 & E5 & I5 & P5).
      rewrite E2. cbn [bind]. rewrite E3. cbn [bind]. rewrite E4. cbn [bind].
      exists s5. split; [exact E5|]. split; [exact I5|].
      cbn [entities]. eapply Post_trans; [exact P1|].
      pose proof (Post_trans _ _ _ _ _ P2 (Post_trans _ _ _ _ _ P3
                   (Post_trans _ _ _ _ _ P4 P5))) as Hchain.
      clear - Hchain Hi Post_perm. clearbody i.
      destruct i as [|[|[|[|i]]]]; [| | | |lia]; cbn in Hchain.
      * exact Hchain.
      * eapply Post_perm; [|exact Hchain]. apply perm_rot1.
      * eapply Post_perm; [|exact Hchain]. apply perm_rot2.
      * eapply Post_perm; [|exact Hchain]. apply perm_rot3.
Qed.

End Engine.

(** ** The nearest-neighbour search *)

Lemma insideBound_small (univ : orb.BoundOf) (x : orb.PointOf) :
  smallBound univ -> insideBound univ x -> smallPoint x.
Proof.
  unfold smallBound, smallPoint, small, insideBound, inside.
  intros [[? ?] [? ?]] [? ?]. lia.
Qed.

Section FindVisitor.

Variable rt : node (E := E).
Variable univ : orb.BoundOf.
Variable p : orb.PointOf.
Variable f : FilterFunc (E := E).
Hypothesis univ_small : smallBound univ.
Hypothesis p_small : smallPoint p.

Let Good (e : E) : Prop := insideBound univ (orb.Point e).

Lemma find_Post_skip :
  forall s l, findInv rt univ p f s ->
    (forall e, In e l -> Good e /\ ~ insideBound (visitor_Bound s) (orb.Point e)) ->
    findPost p f s l s.
Proof.
  intros s l (Hpt & Hf & Hc) Hl. split; [lia|].
  intros e He Hpass. destruct (Hl e He) as [Hg Hout].
  cbn [visitor_Bound findVisitor_visitor] in Hout.
  destruct (fv_closest s) as [path|].
  - destruct Hc as (e0 & _ & _ & Hg0 & Hm & Hb).
    rewrite Hb in Hout.
    assert (Hr : 0 <= fv_minDistSquared s <= 2 ^ 51).
    { rewrite Hm. apply sqdist_small; [|exact p_small].
      eapply insideBound_small; eauto. }
    apply Z.lt_le_incl.
    apply (outside_square_farther p (orb.Point e) (fv_minDistSquared s)); auto.
    eapply insideBound_small; eauto.
  - destruct Hc as [_ Hb]. rewrite Hb in Hout. contradiction.
Qed.

Lemma find_Post_visit :
  forall s path n e, findInv rt univ p f s -> nodeAt path rt = n ->
    Value n = Some e -> Good e ->
    exists s', visitor_Visit s path n = Ok s' /\ findInv rt univ p f s' /\
               findPost p f s [e] s'.
Proof.
  intros s path n e Hinv Hat Hval Hg.
  pose proof Hinv as (Hpt & Hf & Hc).
  cbn [visitor_Visit findVisitor_visitor]. unfold findVisitor_Visit.
  rewrite Hval, Hf, Hpt.
  assert (Hes : smallPoint (orb.Point e)) by (eapply insideBound_small; eauto).
  rewrite (DistanceSquared_small _ _ Hes p_small).
  destruct (passes f e) eqn:Hpass; cbn [negb].
  - destruct (sqdist (orb.Point e) p <? fv_minDistSquared s) eqn:Hlt.
    + apply Z.ltb_lt in Hlt.
      eexists. split; [reflexivity|]. split.
      * unfold findInv. cbn [fv_point fv_filter fv_closest fv_closestBound fv_minDistSquared].
        split; [reflexivity|]. split; [reflexivity|].
        exists e. rewrite Hat. auto.
      * unfold findPost. cbn [fv_minDistSquared]. split; [lia|].
        intros e' [He'|[]] _. subst e'. lia.
    + apply Z.ltb_ge in Hlt.
      exists s. split; [reflexivity|]. split; [exact Hinv|].
      split; [lia|]. intros e' [He'|[]] _. subst e'. exact Hlt.
  - exists s. split; [reflexivity|]. split; [exact Hinv|].
    split; [lia|]. intros e' [He'|[]] Hp'. subst e'. congruence.
Qed.

Lemma find_Post_trans :
  forall s l1 s1 l2 s2, findPost p f s l1 s1 -> findPost p f s1 l2 s2 ->
    findPost p f s (l1 ++ l2) s2.
Proof.
  intros s l1 s1 l2 s2 [H1 A1] [H2 A2]. split; [lia|].
  intros e He Hpass. apply in_app_or in He. destruct He as [He|He].
  - specialize (A1 e He Hpass). lia.
  - apply A2; auto.
Qed.

Lemma find_Post_perm :
  forall s l l' s', Permutation l l' -> findPost p f s l s' -> findPost p f s l' s'.
Proof.
  intros s l l' s' Hperm [H A]. split; [exact H|].
  intros e He. apply A. eapply Permutation_in; [|exact He].
  apply Permutation_sym. exact Hperm.
Qed.

(** The search from the root: it returns, and the returned visitor has
    accounted for every stored entity. *)
Lemma find_walk left right bottom top s :
  rt <> Nil -> cellInv rt left right bottom top ->
  (forall e, In e (entities rt) -> Good e) ->
  findInv rt univ p f s ->
  exists s', visit_Visit rt [] left right bottom top s = Ok s' /\
             findInv rt univ p f s' /\ findPost p f s (entities rt) s'.
Proof.
  intros Hn Hcell Hgood Hinv.
  apply (visit_Visit_spec rt Good (findInv rt univ p f) (findPost p f)
           find_Post_skip find_Post_visit find_Post_trans find_Post_perm);
    auto.
Qed.

End FindVisitor.

(** ** The cell invariant holds in every reachable index *)

Lemma add_entities n p point left right bottom top e :
  In e (entities (add n p point left right bottom top)) ->
  e = p \/ In e (entities n).
Proof.
  revert left right bottom top.
  induction n as [|v c0 IH0 c1 IH1 c2 IH2 c3 IH3]; intros left right bottom top;
    [intros []|].
  cbn [add]. cbv zeta.
  destruct (orb.Y point <=? math.div (math.add bottom top) 2);
  destruct (orb.X point >=? math.div (math.add left right) 2);
  cbn [entities]; rewrite !in_app_iff;
  match goal with
  | |- context [match ?c with Nil => leaf p | Node _ _ _ _ _ => add ?c _ _ ?l ?r ?b ?t end] =>
    assert (Hc : In e (entities (match c with
                                 | Nil => leaf p
                                 | Node _ _ _ _ _ => add c p point l r b t
                                 end)) -> e = p \/ In e (entities c))
      by (apply place_cases;
          [ simpl; intros [H|[]]; left; symmetry; exact H
          | intros _; first [apply IH0 | apply IH1 | apply IH2 | apply IH3] ])
  end; tauto.
Qed.

Lemma add_cellInv n p point left right bottom top :
  orb.Point p = point -> inside point left right bottom top ->
  cellInv n left right bottom top ->
  cellInv (add n p point left right bottom top) left right bottom top.
Proof.
  intros Hpt. revert left right bottom top.
  induction n as [|v c0 IH0 c1 IH1 c2 IH2 c3 IH3];
    intros left right bottom top Hin Hcell; [exact I|].
  assert (Hall : forall e,
             In e (entities (add (Node v c0 c1 c2 c3) p point left right bottom top)) ->
             inside (orb.Point e) left right bottom top).
  { intros e He. apply add_entities in He. destruct He as [He|He].
    - subst e. rewrite Hpt. exact Hin.
    - eapply cellInv_inside; eauto. }
  cbn [cellInv] in Hcell. destruct Hcell as (_ & H0 & H1 & H2 & H3).
  revert Hall. cbn [add]. cbv zeta.
  unfold inside in Hin.
  destruct (orb.Y point <=? math.div (math.add bottom top) 2) eqn:Hy;
  destruct (orb.X point >=? math.div (math.add left right) 2) eqn:Hx;
  intros Hall; cbn [cellInv]; (split; [exact Hall|]);
  rewrite ?Z.leb_le, ?Z.leb_gt, ?Z.geb_le, ?Z.geb_leb in *;
  rewrite ?Z.leb_le, ?Z.leb_gt in *;
  repeat split; auto;
  (apply place_cases;
   [ cbn [leaf cellInv entities];
     split; [|repeat split; exact I];
     intros e' [He|[]]; subst e'; rewrite Hpt; unfold inside; lia
   | intros _;
     first [apply IH0 | apply IH1 | apply IH2 | apply IH3]; auto;
     unfold inside; lia ]).
Qed.

Lemma Add_rootInv q (p : option E) : rootInv q -> rootInv (fst (Add q p)).
Proof.
  intros H. destruct p as [e|]; [|exact H].
  unfold Add. destruct (orb.Contains (bound q) (orb.Point e)) eqn:Hc;
    cbn [negb]; [|exact H].
  apply Contains_inside in Hc.
  unfold rootInv in *.
  destruct (root q) eqn:Hr; cbn [fst root bound].
  - cbn [leaf cellInv entities]. split; [|repeat split; exact I].
    intros e' [He|[]]. subst e'. exact Hc.
  - rewrite <- Hr in *. apply add_cellInv; auto.
Qed.

Lemma removeNode_Node (v : option E) (c0 c1 c2 c3 : node (E := E)) :
  removeNode (Node v c0 c1 c2 c3) =
  match Value c0 with
  | Some x => Node (Some x) (removeNode c0) c1 c2 c3
  | None =>
    match Value c1 with
    | Some x => Node (Some x) Nil (removeNode c1) c2 c3
    | None =>
      match Value c2 with
      | Some x => Node (Some x) Nil Nil (removeNode c2) c3
      | None =>
        match Value c3 with
        | Some x => Node (Some x) Nil Nil Nil (removeNode c3)
        | None => Node None Nil Nil Nil Nil
        end
      end
    end
  end.
Proof.
  destruct c0 as [|[x0|] ? ? ? ?]; [| reflexivity |];
  (destruct c1 as [|[x1|] ? ? ? ?]; [| reflexivity |]);
  (destruct c2 as [|[x2|] ? ? ? ?]; [| reflexivity |]);
  (destruct c3 as [|[x3|] ? ? ? ?]; reflexivity).
Qed.

Lemma Value_entities n e : Value n = Some e -> In e (entities n).
Proof. apply (nodeAt_entities [] n e). Qed.

Ltac solve_In :=
  cbn [entities]; rewrite ?in_app_iff; cbn [In];
  intuition (subst; auto 10).

Lemma removeNode_entities n e :
  In e (entities (removeNode n)) -> In e (entities n).
Proof.
  induction n as [|v c0 IH0 c1 IH1 c2 IH2 c3 IH3]; [intros []|].
  rewrite removeNode_Node.
  destruct (Value c0) as [x0|] eqn:V0;
    [apply Value_entities in V0; solve_In|].
  destruct (Value c1) as [x1|] eqn:V1;
    [apply Value_entities in V1; solve_In|].
  destruct (Value c2) as [x2|] eqn:V2;
    [apply Value_entities in V2; solve_In|].
  destruct (Value c3) as [x3|] eqn:V3;
    [apply Value_entities in V3; solve_In|].
  solve_In.
Qed.

Lemma removeNode_cellInv n left right bottom top :
  cellInv n left right bottom top ->
  cellInv (removeNode n) left right bottom top.
Proof.
  revert left right bottom top.
  induction n as [|v c0 IH0 c1 IH1 c2 IH2 c3 IH3];
    intros left right bottom top Hcell; [exact I|].
  assert (Hall : forall e, In e (entities (removeNode (Node v c0 c1 c2 c3))) ->
                           inside (orb.Point e) left right bottom top).
  { intros e He. apply removeNode_entities in He. eapply cellInv_inside; eauto. }
  cbn [cellInv] in Hcell. destruct Hcell as (_ & H0 & H1 & H2 & H3).
  revert Hall. rewrite removeNode_Node.
  destruct (Value c0);
    [intros Hall; cbn [cellInv]; (split; [exact Hall|]); repeat split; auto|].
  destruct (Value c1);
    [intros Hall; cbn [cellInv]; (split; [exact Hall|]); repeat split; auto|].
  destruct (Value c2);
    [intros Hall; cbn [cellInv]; (split; [exact Hall|]); repeat split; auto|].
  destruct (Value c3);
    intros Hall; cbn [cellInv]; (split; [exact Hall|]); repeat split; auto.
Qed.

Lemma updateAt_entities (g : node -> node) :
  (forall n e, In e (entities (g n)) -> In e (entities n)) ->
  forall path n e, In e (entities (updateAt path g n)) -> In e (entities n).
Proof.
  intros Hg path. induction path as [|i path IH]; intros n e; [apply Hg|].
  destruct n as [|v c0 c1 c2 c3]; [intros []|].
  cbn [updateAt].
  destruct i as [|[|[|i]]]; cbn [entities]; rewrite !in_app_iff;
    intros H; pose proof (IH c0 e); pose proof (IH c1 e);
    pose proof (IH c2 e); pose proof (IH c3 e); tauto.
Qed.

Lemma updateAt_cellInv (g : node -> node) :
  (forall n e, In e (entities (g n)) -> In e (entities n)) ->
  (forall n l r b t, cellInv n l r b t -> cellInv (g n) l r b t) ->
  forall path n l r b t, cellInv n l r b t -> cellInv (updateAt path g n) l r b t.
Proof.
  intros Hg Hc path. induction path as [|i path IH]; intros n l r b t Hcell;
    [apply Hc; exact Hcell|].
  destruct n as [|v c0 c1 c2 c3]; [exact I|].
  assert (Hall : forall e, In e (entities (updateAt (i :: path) g (Node v c0 c1 c2 c3))) ->
                           inside (orb.Point e) l r b t).
  { intros e He. apply (updateAt_entities g Hg) in He. eapply cellInv_inside; eauto. }
  cbn [cellInv] in Hcell. destruct Hcell as (_ & H0 & H1 & H2 & H3).
  revert Hall. cbn [updateAt].
  destruct i as [|[|[|i]]]; intros Hall; cbn [cellInv];
    (split; [exact Hall|]); repeat split; auto.
Qed.

Lemma Remove_inversion q (p : option E) (eq : FilterFunc) q' found :
  Remove q p eq = Ok (q', found) ->
  (found = false /\ q' = q) \/
  (found = true /\ bound q' = bound q /\
   exists path, root q' = updateAt path removeNode (root q)).
Proof.
  unfold Remove. destruct p as [e|]; [|discriminate].
  match goal with
  | |- context [visit_Visit ?n ?pa ?l ?r ?b ?t ?v] =>
    destruct (visit_Visit n pa l r b t v) as [s|]
  end; cbn [bind]; [|discriminate].
  destruct (fv_closest s) as [path|]; intros H; inversion H; subst.
  - right. split; [reflexivity|]. split; [reflexivity|]. exists path. reflexivity.
  - left. split; reflexivity.
Qed.

Lemma Remove_rootInv q (p : option E) (eq : FilterFunc) q' found :
  Remove q p eq = Ok (q', found) -> rootInv q -> rootInv q'.
Proof.
  intros H Hinv. apply Remove_inversion in H.
  destruct H as [[_ H] | (_ & Hb & path & Hr)]; [subst; exact Hinv|].
  unfold rootInv in *. rewrite Hr, Hb.
  apply updateAt_cellInv; auto.
  - apply removeNode_entities.
  - apply removeNode_cellInv.
Qed.

(** Every index a program can build satisfies the cell invariant. *)
Lemma reachable_rootInv q : reachable q -> rootInv q.
Proof.
  induction 1 as [b | q p Hq IH | q p eq q' found Hq IH Hrem].
  - exact I.
  - apply Add_rootInv. exact IH.
  - eapply Remove_rootInv; eauto.
Qed.

Lemma reachable_addAll q (ps : list (option E)) :
  reachable q -> reachable (addAll q ps).
Proof.
  revert q. induction ps as [|p ps IH]; intros q H; [exact H|].
  cbn [addAll]. apply IH. apply reach_Add. exact H.
Qed.

Lemma rootInv_Good q e :
  rootInv q -> In e (entities (root q)) -> insideBound (bound q) (orb.Point e).
Proof.
  intros Hinv He. unfold insideBound. eapply cellInv_inside; eauto.
Qed.

(** The search that [Matching] and [Remove] run from the root of a
    reachable index with small coordinates. *)
Lemma find_from_root q (p : orb.PointOf) (f : FilterFunc) :
  rootInv q -> root q <> Nil -> smallBound (bound q) -> smallPoint p ->
  exists s,
    visit_Visit (root q) []
      (orb.X (orb.Min (bound q))) (orb.X (orb.Max (bound q)))
      (orb.Y (orb.Min (bound q))) (orb.Y (orb.Max (bound q)))
      {| fv_point := p; fv_filter := f; fv_closest := None;
         fv_closestBound := bound q; fv_minDistSquared := math.MaxOf |} = Ok s /\
    match fv_closest s with
    | Some path =>
      exists e, Value (nodeAt path (root q)) = Some e /\ passes f e = true /\
                forall e', In e' (entities (root q)) -> passes f e' = true ->
                           sqdist (orb.Point e) p <= sqdist (orb.Point e') p
    | None => forall e', In e' (entities (root q)) -> passes f e' = false
    end.
Proof.
  intros Hinv Hn Hub Hp.
  destruct (find_walk (root q) (bound q) p f Hub Hp _ _ _ _
              {| fv_point := p; fv_filter := f; fv_closest := None;
                 fv_closestBound := bound q; fv_minDistSquared := math.MaxOf |}
              Hn Hinv) as (s & Ew & Iw & Pw).
  - intros e He. apply rootInv_Good; auto.
  - unfold findInv. cbn. auto.
  - exists s. split; [exact Ew|].
    destruct Iw as (_ & _ & Hc). destruct Pw as [_ Pw].
    destruct (fv_closest s) as [path|].
    + destruct Hc as (e & Hv & Hpass & _ & Hm & _).
      exists e. split; [exact Hv|]. split; [exact Hpass|].
      intros e' He' Hp'. rewrite <- Hm. apply Pw; auto.
    + destruct Hc as [Hm _]. intros e' He'.
      destruct (passes f e') eqn:Hp'; [|reflexivity].
      specialize (Pw e' He' Hp'). rewrite Hm in Pw.
      assert (Hs : 0 <= sqdist (orb.Point e') p <= 2 ^ 51).
      { apply sqdist_small; [|exact Hp].
        eapply insideBound_small; [exact Hub|]. apply rootInv_Good; auto. }
      unfold math.MaxOf in Pw.
      change (2 ^ 51) with 2251799813685248 in Hs.
      change (2 ^ 63) with 9223372036854775808 in Pw. lia.
Qed.


(** ** Removal *)

Lemma perm_insert {A : Type} (x : A) (a m m' b lost : list A) :
  Permutation m (x :: m' ++ lost) ->
  Permutation (a ++ m ++ b) (x :: (a ++ m' ++ b) ++ lost).
Proof.
  intros H. rewrite H. apply Permutation_sym.
  change (a ++ (x :: m' ++ lost) ++ b) with (a ++ x :: (m' ++ lost) ++ b).
  apply Permutation_cons_app.
  rewrite <- !app_assoc. apply Permutation_app_head. apply Permutation_app_head.
  apply Permutation_app_comm.
Qed.

Lemma perm_lost {A : Type} (pre m m' lost : list A) :
  Permutation m (m' ++ lost) -> Permutation (pre ++ m) (m' ++ pre ++ lost).
Proof.
  intros H. rewrite H. rewrite Permutation_app_comm. rewrite <- app_assoc.
  apply Permutation_app_head. apply Permutation_app_comm.
Qed.

(** [removeNode] on a node holding [x] removes one occurrence of [x]; the
    entities [lost] are those below the value-less children it clears. *)
Lemma removeNode_perm n x :
  Value n = Some x ->
  exists lost, Permutation (entities n) (x :: entities (removeNode n) ++ lost).
Proof.
  revert x. induction n as [|v c0 IH0 c1 IH1 c2 IH2 c3 IH3]; intros x Hv;
    [discriminate|].
  cbn [Value] in Hv. subst v. rewrite removeNode_Node.
  destruct (Value c0) as [x0|] eqn:V0.
  { destruct (IH0 x0 eq_refl) as [lost H]. exists lost.
    cbn [entities app]. apply perm_skip.
    apply (perm_insert x0 [] (entities c0) (entities (removeNode c0))
                       (entities c1 ++ entities c2 ++ entities c3) lost H). }
  destruct (Value c1) as [x1|] eqn:V1.
  { destruct (IH1 x1 eq_refl) as [lost H]. exists (entities c0 ++ lost).
    cbn [entities app]. apply perm_skip.
    apply (perm_lost (entities c0) _
             (x1 :: entities (removeNode c1) ++ entities c2 ++ entities c3) lost).
    apply (perm_insert x1 [] (entities c1) (entities (removeNode c1))
                       (entities c2 ++ entities c3) lost H). }
  destruct (Value c2) as [x2|] eqn:V2.
  { destruct (IH2 x2 eq_refl) as [lost H]. exists ((entities c0 ++ entities c1) ++ lost).
    cbn [entities app]. apply perm_skip.
    rewrite (app_assoc (entities c0) (entities c1)).
    apply (perm_lost (entities c0 ++ entities c1) _
             (x2 :: entities (removeNode c2) ++ entities c3) lost).
    apply (perm_insert x2 [] (entities c2) (entities (removeNode c2))
                       (entities c3) lost H). }
  destruct (Value c3) as [x3|] eqn:V3.
  { destruct (IH3 x3 eq_refl) as [lost H].
    exists ((entities c0 ++ entities c1 ++ entities c2) ++ lost).
    cbn [entities app]. apply perm_skip.
    replace (entities c0 ++ entities c1 ++ entities c2 ++ entities c3)
      with ((entities c0 ++ entities c1 ++ entities c2) ++ entities c3)
      by (rewrite <- !app_assoc; reflexivity).
    apply (perm_lost (entities c0 ++ entities c1 ++ entities c2) _
             (x3 :: entities (removeNode c3)) lost).
    exact H. }
  exists (entities c0 ++ entities c1 ++ entities c2 ++ entities c3).
  cbn [entities app]. apply Permutation_refl.
Qed.

Lemma nodeAt_Nil (path : list nat) : nodeAt path (Nil (E := E)) = Nil.
Proof.
  induction path as [|i path IH]; [reflexivity|].
  cbn [nodeAt]. destruct i; exact IH.
Qed.

Lemma updateAt_removeNode_perm (path : list nat) n x :
  Value (nodeAt path n) = Some x ->
  exists lost,
    Permutation (entities n) (x :: entities (updateAt path removeNode n) ++ lost).
Proof.
  revert n. induction path as [|i path IH]; intros n Hv.
  - apply removeNode_perm. exact Hv.
  - destruct n as [|v c0 c1 c2 c3].
    + cbn [nodeAt] in Hv. replace (Children Nil i) with (Nil (E := E)) in Hv
        by (destruct i; reflexivity).
      rewrite nodeAt_Nil in Hv. discriminate.
    + cbn [nodeAt] in Hv.
      destruct i as [|[|[|[|i]]]]; cbn [Children] in Hv.
      * destruct (IH c0 Hv) as [lost H]. exists lost. cbn [updateAt entities].
        apply (perm_insert x _ (entities c0) _ _ lost H).
      * destruct (IH c1 Hv) as [lost H]. exists lost. cbn [updateAt entities].
        rewrite !(app_assoc (match v with Some e => [e] | None => [] end) (entities c0)).
        apply (perm_insert x _ (entities c1) _ _ lost H).
      * destruct (IH c2 Hv) as [lost H]. exists lost. cbn [updateAt entities].
        rewrite !(app_assoc (match v with Some e => [e] | None => [] end) (entities c0)).
        rewrite !(app_assoc (_ ++ entities c0) (entities c1)).
        apply (perm_insert x _ (entities c2) _ _ lost H).
      * destruct (IH c3 Hv) as [lost H]. exists lost. cbn [updateAt entities].
        rewrite !(app_assoc (match v with Some e => [e] | None => [] end) (entities c0)).
        rewrite !(app_assoc (_ ++ entities c0) (entities c1)).
        rewrite !(app_assoc (_ ++ entities c1) (entities c2)).
        pose proof (perm_insert x
                      (((match v with Some e => [e] | None => [] end) ++ entities c0)
                         ++ entities c1 ++ entities c2)
                      (entities c3) (entities (updateAt path removeNode c3)) [] lost H) as H'.
        rewrite !app_nil_r in H'. rewrite <- !app_assoc in *. exact H'.
      * rewrite nodeAt_Nil in Hv. discriminate.
Qed.

(** X11.  Removal from an index that has a root, at the coordinate type
    int64 and within the range of exact arithmetic.  In every index of
    int64 coordinates a program can build in which some node exists and
    whose universe rectangle has coordinates of magnitude at most 2^24, for
    every target with a point in that range: [Remove]
    returns; it returns true exactly when some stored entity is accepted by
    the matcher (by default: has the target's point); when it returns true,
    an accepted entity closest to the target's point has been taken out of
    the index and nothing has been put in; when it returns false, the index
    is the one before the call, so [Find], [KNearest] and [InBound] return
    what they returned before. *)
Lemma Remove_removes_closest_accepted :
  forall q (target : E) (eq : FilterFunc),
    reachable q -> root q <> Nil ->
    smallBound (bound q) -> smallPoint (orb.Point target) ->
    let accepts :=
      match eq with
      | Some g => g
      | None => fun x => orb.Equal (orb.Point target) (orb.Point x)
      end in
    exists q' found,
      Remove q (Some target) eq = Ok (q', found) /\
      (found = true <-> exists x, In x (entities (root q)) /\ accepts x = true) /\
      (found = true ->
         bound q' = bound q /\
         exists x lost,
           In x (entities (root q)) /\ accepts x = true /\
           (forall x', In x' (entities (root q)) -> accepts x' = true ->
                       sqdist (orb.Point x) (orb.Point target) <=
                       sqdist (orb.Point x') (orb.Point target)) /\
           Permutation (entities (root q)) (x :: entities (root q') ++ lost)) /\
      (found = false ->
         q' = q /\
         forall (p : orb.PointOf) (buf : list E) (k : Z) (maxDistance : list Z)
                (b : orb.BoundOf),
           Find q' p = Find q p /\
           KNearest q' buf p k maxDistance = KNearest q buf p k maxDistance /\
           InBound q' buf b = InBound q buf b).
Proof.
  intros q target eq Hq Hn Hub Hp accepts.
  pose proof (reachable_rootInv q Hq) as Hinv.
  destruct (find_from_root q (orb.Point target) (Some accepts) Hinv Hn Hub Hp)
    as (s & Ew & Hs).
  unfold Remove.
  replace (match eq with
           | Some g => Some g
           | None => Some (fun pointer : E =>
                             orb.Equal (orb.Point target) (orb.Point pointer))
           end) with (Some accepts) by (subst accepts; destruct eq; reflexivity).
  rewrite Ew. cbn [bind].
  destruct (fv_closest s) as [path|].
  - destruct Hs as (x & Hv & Hpass & Hmin). cbn [passes] in Hpass, Hmin.
    pose proof (nodeAt_entities path (root q) x Hv) as Hin.
    destruct (updateAt_removeNode_perm path (root q) x Hv) as [lost Hperm].
    eexists. exists true. split; [reflexivity|].
    split; [split; [intros _; exists x; auto | reflexivity]|].
    split; [|discriminate].
    intros _. split; [reflexivity|].
    exists x, lost. cbn [root]. auto.
  - cbn [passes] in Hs.
    exists q, false. split; [reflexivity|].
    split.
    { split; [discriminate|]. intros (x & Hin & Hacc).
      rewrite (Hs x Hin) in Hacc. discriminate. }
    split; [discriminate|].
    intros _. split; [reflexivity|]. intros. repeat split.
Qed.

(** ** The k-nearest search *)

Lemma heapInsert_perm (it : heapItem (E := E)) (l : list heapItem) :
  Permutation (heapInsert it l) (it :: l).
Proof.
  induction l as [|x l IH]; cbn [heapInsert]; [apply Permutation_refl|].
  destruct (hi_distance x <=? hi_distance it); [apply Permutation_refl|].
  rewrite IH. apply perm_swap.
Qed.

Lemma heapInsert_length (it : heapItem (E := E)) (l : list heapItem) :
  length (heapInsert it l) = Datatypes.S (length l).
Proof.
  apply (Permutation_length (heapInsert_perm it l)).
Qed.

Lemma heapInsert_sorted (it : heapItem (E := E)) (l : list heapItem) :
  heapSorted l -> heapSorted (heapInsert it l).
Proof.
  unfold heapSorted. induction l as [|x l IH]; intros H; cbn [heapInsert].
  - constructor; constructor.
  - apply StronglySorted_inv in H. destruct H as [Hl Hx].
    destruct (hi_distance x <=? hi_distance it) eqn:Hle.
    + apply Z.leb_le in Hle. constructor.
      * constructor; assumption.
      * constructor; [exact Hle|].
        eapply Forall_impl; [|exact Hx]. cbv beta. intros a Ha. lia.
    + apply Z.leb_gt in Hle. constructor; [apply IH; exact Hl|].
      eapply Permutation_Forall; [apply Permutation_sym, heapInsert_perm|].
      constructor; [lia | exact Hx].
Qed.

Lemma Permutation_filter {A : Type} (g : A -> bool) (l l' : list A) :
  Permutation l l' -> Permutation (filter g l) (filter g l').
Proof.
  induction 1 as [| x l l' H IH | x y l | l l' l'' H1 IH1 H2 IH2]; cbn [filter].
  - constructor.
  - destruct (g x); [constructor|]; exact IH.
  - destruct (g x); destruct (g y); try apply Permutation_refl. apply perm_swap.
  - eapply Permutation_trans; eauto.
Qed.

Lemma StronglySorted_app {A : Type} (R : A -> A -> Prop) (l1 l2 : list A) :
  StronglySorted R l1 -> StronglySorted R l2 ->
  (forall a b, In a l1 -> In b l2 -> R a b) ->
  StronglySorted R (l1 ++ l2).
Proof.
  induction l1 as [|x l1 IH]; intros H1 H2 H; [exact H2|].
  apply StronglySorted_inv in H1. destruct H1 as [H1 Hx].
  cbn [app]. constructor.
  - apply IH; auto. intros a b Ha Hb. apply H; [right; exact Ha | exact Hb].
  - apply Forall_app. split; [exact Hx|].
    apply Forall_forall. intros b Hb. apply H; [left; reflexivity | exact Hb].
Qed.

Lemma StronglySorted_rev {A : Type} (R : A -> A -> Prop) (l : list A) :
  StronglySorted R l -> StronglySorted (fun a b => R b a) (rev l).
Proof.
  induction l as [|x l IH]; intros H; [constructor|].
  apply StronglySorted_inv in H. destruct H as [Hl Hx].
  cbn [rev]. apply StronglySorted_app.
  - apply IH. exact Hl.
  - constructor; constructor.
  - intros a b Ha [Hb|[]]. subst b. rewrite <- in_rev in Ha.
    rewrite Forall_forall in Hx. apply Hx. exact Ha.
Qed.

(** The repacking loop writes the heap's entries nearest first. *)
Lemma repack_rev (h : maxHeap (E := E)) (acc : list E) :
  repack (length (heap_items h)) h acc =
  Ok (rev (map hi_point (heap_items h)) ++ acc).
Proof.
  destruct h as [items cap]. cbn [heap_items]. revert acc.
  induction items as [|x items IH]; intros acc; [reflexivity|].
  cbn [length repack Pop heap_items bind fst snd heap_cap].
  rewrite IH. cbn [map rev]. rewrite <- app_assoc. reflexivity.
Qed.

Section NearestVisitor.

Variable rt : node (E := E).
Variable univ : orb.BoundOf.
Variable p : orb.PointOf.
Variable f : FilterFunc (E := E).
Variable k : Z.
Hypothesis univ_small : smallBound univ.
Hypothesis p_small : smallPoint p.
Hypothesis k_pos : 1 <= k.

Let Good (e : E) : Prop := insideBound univ (orb.Point e).

Lemma nearest_Post_skip :
  forall s l, nearestInv rt univ p f k s ->
    (forall e, In e l -> Good e /\ ~ insideBound (visitor_Bound s) (orb.Point e)) ->
    nearestPost f k s l s.
Proof.
  intros s l (_ & _ & _ & _ & _ & _ & _ & Hdisj) Hl Hroom.
  destruct (filter (passes f) l) as [|e rest] eqn:Hfl;
    [rewrite app_nil_r; apply Permutation_refl|].
  exfalso.
  assert (He : In e (filter (passes f) l)) by (rewrite Hfl; left; reflexivity).
  apply filter_In in He. destruct He as [He _].
  destruct (Hl e He) as [Hg Hout].
  cbn [visitor_Bound nearestVisitor_visitor] in Hout.
  destruct Hdisj as [[_ Hb] | [Hfull _]].
  - rewrite Hb in Hout. contradiction.
  - cbn [length] in Hroom. lia.
Qed.

Lemma nearest_Post_visit :
  forall s path n e, nearestInv rt univ p f k s -> nodeAt path rt = n ->
    Value n = Some e -> Good e ->
    exists s', visitor_Visit s path n = Ok s' /\ nearestInv rt univ p f k s' /\
               nearestPost f k s [e] s'.
Proof.
  intros s path n e Hinv Hat Hval Hg.
  pose proof Hinv as (Hpt & Hf & Hk & Hcap & Hsorted & Hlen & Hall & Hdisj).
  cbn [visitor_Visit nearestVisitor_visitor]. unfold nearestVisitor_Visit.
  rewrite Hval, Hf, Hpt.
  assert (Hes : smallPoint (orb.Point e)) by (eapply insideBound_small; eauto).
  rewrite (DistanceSquared_small _ _ Hes p_small).
  pose proof (sqdist_small _ _ Hes p_small) as Hd.
  change (2 ^ 51) with 2251799813685248 in Hd.
  assert (Hin : In e (entities rt))
    by (apply (nodeAt_entities path); rewrite Hat; exact Hval).
  destruct (passes f e) eqn:Hpass; cbn [negb].
  2: { exists s. split; [reflexivity|]. split; [exact Hinv|].
       unfold nearestPost. cbn [filter]. rewrite Hpass, app_nil_r.
       intros _. apply Permutation_refl. }
  destruct (sqdist (orb.Point e) p <? nv_maxDistSquared s) eqn:Hlt.
  2: { apply Z.ltb_ge in Hlt.
       exists s. split; [reflexivity|]. split; [exact Hinv|].
       unfold nearestPost. cbn [filter]. rewrite Hpass. cbn [length].
       intros Hroom. exfalso.
       destruct Hdisj as [[Hm _] | [Hfull _]]; [|lia].
       rewrite Hm in Hlt. unfold math.MaxOf in Hlt.
       change (2 ^ 63) with 9223372036854775808 in Hlt. lia. }
  apply Z.ltb_lt in Hlt.
  unfold Push. rewrite Hcap.
  destruct (Z.of_nat (length (heap_items (nv_maxHeap s))) + 1 >? k + 1) eqn:Hc;
    [apply Z.gtb_lt in Hc; lia|].
  cbn [bind heap_items heap_cap]. rewrite Hk, heapInsert_length.
  set (it := {| hi_point := e; hi_distance := sqdist (orb.Point e) p |}).
  assert (Hit : hi_distance it = sqdist (orb.Point (hi_point it)) p /\
                In (hi_point it) (entities rt) /\ passes f (hi_point it) = true)
    by (subst it; cbn; auto).
  pose proof (heapInsert_sorted it _ Hsorted) as Hs'.
  assert (Hall' : Forall (fun it => hi_distance it = sqdist (orb.Point (hi_point it)) p /\
                                    In (hi_point it) (entities rt) /\
                                    passes f (hi_point it) = true)
                         (heapInsert it (heap_items (nv_maxHeap s)))).
  { eapply Permutation_Forall; [apply Permutation_sym, heapInsert_perm|].
    constructor; assumption. }
  pose proof (heapInsert_length it (heap_items (nv_maxHeap s))) as Hl'.
  destruct (Z.of_nat (Datatypes.S (length (heap_items (nv_maxHeap s)))) >? k) eqn:Hfull.
  - apply Z.gtb_lt in Hfull. unfold Pop. cbn [heap_items heap_cap].
    destruct (heapInsert it (heap_items (nv_maxHeap s))) as [|x tail] eqn:Hins;
      [discriminate|].
    cbn [bind snd heap_items].
    destruct tail as [|top rest]; [cbn [length] in Hl'; lia|].
    eexists. split; [reflexivity|]. split.
    + unfold nearestInv.
      cbn [nv_point nv_filter nv_k nv_maxHeap nv_closestBound nv_maxDistSquared
           heap_items heap_cap].
      cbn [length] in Hl'.
      split; [reflexivity|]. split; [reflexivity|]. split; [reflexivity|].
      split; [reflexivity|].
      split; [apply StronglySorted_inv in Hs'; apply Hs'|].
      split; [cbn [length]; lia|].
      split; [inversion Hall'; assumption|].
      right. split; [cbn [length]; lia|].
      exists top, rest. auto.
    + unfold nearestPost. cbn [filter]. rewrite Hpass. cbn [length].
      intros Hroom. exfalso. lia.
  - assert (Hroom' : Z.of_nat (Datatypes.S (length (heap_items (nv_maxHeap s)))) <= k).
    { destruct (Z.gtb_spec (Z.of_nat (Datatypes.S (length (heap_items (nv_maxHeap s))))) k);
        [discriminate | lia]. }
    eexists. split; [reflexivity|]. split.
    + unfold nearestInv.
      cbn [nv_point nv_filter nv_k nv_maxHeap nv_closestBound nv_maxDistSquared
           heap_items heap_cap].
      split; [reflexivity|]. split; [reflexivity|]. split; [reflexivity|].
      split; [reflexivity|]. split; [exact Hs'|].
      split; [rewrite Hl'; exact Hroom'|].
      split; [exact Hall'|].
      destruct Hdisj as [Hinit | [Hfull' _]]; [left; exact Hinit | exfalso; lia].
    + unfold nearestPost. cbn [nv_maxHeap heap_items filter]. rewrite Hpass.
      intros _.
      eapply Permutation_trans;
        [apply Permutation_map; apply heapInsert_perm|].
      cbn [map hi_point]. subst it. cbn [hi_point].
      apply Permutation_cons_append.
Qed.

Lemma nearest_Post_trans :
  forall s l1 s1 l2 s2, nearestPost f k s l1 s1 -> nearestPost f k s1 l2 s2 ->
    nearestPost f k s (l1 ++ l2) s2.
Proof.
  unfold nearestPost. intros s l1 s1 l2 s2 P1 P2.
  rewrite filter_app, length_app, Nat2Z.inj_add. intros Hroom.
  assert (H1 : Permutation (map hi_point (heap_items (nv_maxHeap s1)))
                           (map hi_point (heap_items (nv_maxHeap s)) ++
                            filter (passes f) l1)) by (apply P1; lia).
  pose proof (Permutation_length H1) as Hl.
  rewrite length_app, !length_map in Hl.
  rewrite app_assoc, <- H1. apply P2. lia.
Qed.

Lemma nearest_Post_perm :
  forall s l l' s', Permutation l l' -> nearestPost f k s l s' ->
    nearestPost f k s l' s'.
Proof.
  unfold nearestPost. intros s l l' s' Hperm P Hroom.
  pose proof (Permutation_filter (passes f) l l' Hperm) as Hf.
  rewrite <- Hf. apply P. rewrite (Permutation_length Hf). exact Hroom.
Qed.

Lemma nearest_walk left right bottom top s :
  rt <> Nil -> cellInv rt left right bottom top ->
  (forall e, In e (entities rt) -> Good e) ->
  nearestInv rt univ p f k s ->
  exists s', visit_Visit rt [] left right bottom top s = Ok s' /\
             nearestInv rt univ p f k s' /\ nearestPost f k s (entities rt) s'.
Proof.
  intros Hn Hcell Hgood Hinv.
  apply (visit_Visit_spec rt Good (nearestInv rt univ p f k) (nearestPost f k)
           nearest_Post_skip nearest_Post_visit nearest_Post_trans
           nearest_Post_perm); auto.
Qed.

End NearestVisitor.

Lemma heap_distances_sorted (p : orb.PointOf) (items : list (heapItem (E := E))) :
  heapSorted items ->
  Forall (fun it => hi_distance it = sqdist (orb.Point (hi_point it)) p) items ->
  StronglySorted (fun a b => b <= a)
                 (map (fun e => sqdist (orb.Point e) p) (map hi_point items)).
Proof.
  unfold heapSorted. induction items as [|x items IH]; intros Hs Hd; [constructor|].
  apply StronglySorted_inv in Hs. destruct Hs as [Hs Hx].
  inversion Hd as [|? ? Hdx Hd']; subst.
  cbn [map]. constructor; [apply IH; assumption|].
  rewrite Forall_forall in *. intros d Hin.
  rewrite map_map in Hin. apply in_map_iff in Hin.
  destruct Hin as (y & Hy & Hin). subst d.
  rewrite <- Hdx, <- (Hd' y Hin). apply Hx. exact Hin.
Qed.

Lemma filter_passes_None (l : list E) : filter (passes None) l = l.
Proof.
  induction l as [|x l IH]; [reflexivity|]. cbn [filter passes]. rewrite IH. reflexivity.
Qed.

Lemma makeFails_within (cap : Z) : 0 <= cap <= makeLimit -> makeFails cap = false.
Proof.
  intros H. unfold makeFails.
  destruct (Z.ltb_spec cap 0); [lia|].
  destruct (Z.ltb_spec makeLimit cap); [lia|]. reflexivity.
Qed.

(** The capacity [k+1] of the heap does not wrap around and is granted. *)
Lemma heap_capacity_granted (k : Z) :
  0 <= k < makeLimit ->
  math.add k 1 = k + 1 /\ makeFails (math.add k 1) = false.
Proof.
  intros Hk. pose proof makeLimit_max as Hmax.
  assert (H1 : math.add k 1 = k + 1).
  { unfold math.add. apply wrap_small.
    change (2 ^ 63) with 9223372036854775808 in *. lia. }
  split; [exact H1|]. rewrite H1. apply makeFails_within. lia.
Qed.

Lemma small_capacity (k : Z) : 0 <= k < 2 ^ 16 -> 0 <= k < makeLimit.
Proof. intros H. pose proof makeLimit_min. lia. Qed.

(** [KNearestMatching] when [make] grants the heap. *)
Lemma KNearestMatching_granted q (buf : list E) (p : orb.PointOf) (k : Z)
      (f : FilterFunc) (maxDistance : list Z) :
  0 <= k < makeLimit ->
  KNearestMatching q buf p k f maxDistance =
  match root q with
  | Nil => Ok []
  | Node _ _ _ _ _ =>
    v <- visit_Visit (root q) []
           (orb.X (orb.Min (bound q))) (orb.X (orb.Max (bound q)))
           (orb.Y (orb.Min (bound q))) (orb.Y (orb.Max (bound q)))
           (nearestVisitor_new q p k f maxDistance) ;;
    repack (length (heap_items (nv_maxHeap v))) (nv_maxHeap v) []
  end.
Proof.
  intros Hk. unfold KNearestMatching.
  destruct (root q); [reflexivity|].
  destruct (heap_capacity_granted k Hk) as [_ H]. rewrite H. reflexivity.
Qed.

(** [KNearestMatching] without radius, for [k >= 1], in a reachable index
    with small coordinates. *)
Lemma KNearestMatching_spec q (buf : list E) (p : orb.PointOf) (k : Z)
      (f : FilterFunc) :
  reachable q -> smallBound (bound q) -> smallPoint p -> 1 <= k < makeLimit ->
  exists res,
    KNearestMatching q buf p k f [] = Ok res /\
    Z.of_nat (length res) <= k /\
    StronglySorted Z.le (map (fun e => sqdist (orb.Point e) p) res) /\
    (forall e, In e res -> In e (entities (root q)) /\ passes f e = true) /\
    (Z.of_nat (length (filter (passes f) (entities (root q)))) <= k ->
     Permutation res (filter (passes f) (entities (root q)))).
Proof.
  intros Hq Hub Hp Hk.
  pose proof (reachable_rootInv q Hq) as Hinv.
  unfold KNearestMatching.
  destruct (root q) as [|v c0 c1 c2 c3] eqn:Hr.
  - exists []. split; [reflexivity|]. cbn [length map entities filter].
    split; [lia|]. split; [constructor|]. split; [intros e []|].
    intros _. constructor.
  - rewrite <- Hr.
    assert (Hn : root q <> Nil) by (rewrite Hr; discriminate).
    destruct (heap_capacity_granted k ltac:(lia)) as [Hk1 Hmake].
    rewrite Hmake.
    assert (Hk' : 1 <= k) by lia.
    destruct (nearest_walk (root q) (bound q) p f k Hub Hp Hk' _ _ _ _
                (nearestVisitor_new q p k f []) Hn Hinv) as (s & Ew & Iw & Pw).
    + intros e He. apply rootInv_Good; auto.
    + unfold nearestInv, nearestVisitor_new.
      cbn [nv_point nv_filter nv_k nv_maxHeap nv_closestBound nv_maxDistSquared
           heap_items heap_cap length].
      repeat split; auto; try lia; constructor.
    + rewrite Ew. cbn [bind]. rewrite repack_rev, app_nil_r.
      destruct Iw as (_ & _ & _ & _ & Hsorted & Hlen & Hall & _).
      eexists. split; [reflexivity|].
      split; [rewrite length_rev, length_map; exact Hlen|].
      split.
      { rewrite map_rev.
        apply (StronglySorted_rev (fun a b => b <= a)).
        apply heap_distances_sorted; [exact Hsorted|].
        eapply Forall_impl; [|exact Hall]. cbv beta. tauto. }
      split.
      { intros e He. rewrite <- in_rev in He. apply in_map_iff in He.
        destruct He as (it & Hit & Hin). subst e.
        rewrite Forall_forall in Hall. destruct (Hall it Hin) as (_ & H1 & H2).
        auto. }
      intros Hroom. unfold nearestPost in Pw.
      unfold nearestVisitor_new in Pw.
      cbn [nv_maxHeap heap_items length map app] in Pw.
      rewrite <- Permutation_rev. apply Pw. lia.
Qed.

(** The k-nearest search for [k >= 1], within the range of exact
    arithmetic.  In every
    index a program can build whose universe rectangle has coordinates of
    magnitude at most 2^24, for every query point [p] in that range and
    every [k] with [1 <= k] below the platform's limit on the capacity of
    the heap, [KNearest p k] returns a list of stored
    entities of length at most [k] in non-decreasing order of squared
    distance to [p]; and when [k] is at least the number [N] of stored
    entities the list holds exactly the stored entities. *)
Lemma KNearest_sorted_within_k :
  forall q (buf : list E) (p : orb.PointOf) (k : Z),
    reachable q -> smallBound (bound q) -> smallPoint p ->
    1 <= k < makeLimit ->
    exists res,
      KNearest q buf p k [] = Ok res /\
      Z.of_nat (length res) <= k /\
      StronglySorted Z.le (map (fun e => sqdist (orb.Point e) p) res) /\
      (forall e, In e res -> In e (entities (root q))) /\
      (Z.of_nat (length (entities (root q))) <= k ->
       Permutation res (entities (root q))).
Proof.
  intros q buf p k Hq Hub Hp Hk. unfold KNearest.
  destruct (KNearestMatching_spec q buf p k None Hq Hub Hp Hk)
    as (res & Hres & Hlen & Hsorted & Hin & Hall).
  rewrite filter_passes_None in Hall.
  exists res. repeat split; auto. intros e He. apply Hin. exact He.
Qed.

(** ** The range query *)

Lemma filter_none {A : Type} (g : A -> bool) (l : list A) :
  (forall x, In x l -> g x = false) -> filter g l = [].
Proof.
  induction l as [|x l IH]; intros H; [reflexivity|].
  cbn [filter]. rewrite (H x (or_introl eq_refl)).
  apply IH. intros y Hy. apply H. right. exact Hy.
Qed.

Lemma filter_all {A : Type} (g : A -> bool) (l : list A) :
  (forall x, In x l -> g x = true) -> filter g l = l.
Proof.
  induction l as [|x l IH]; intros H; [reflexivity|].
  cbn [filter]. rewrite (H x (or_introl eq_refl)).
  f_equal. apply IH. intros y Hy. apply H. right. exact Hy.
Qed.

Lemma inBoundAccepts_inside (b : orb.BoundOf) (f : FilterFunc) e :
  inBoundAccepts b f e = true <->
  passes f e = true /\ insideBound b (orb.Point e).
Proof.
  unfold inBoundAccepts, insideBound, inside.
  rewrite andb_true_iff, negb_true_iff, !orb_false_iff, !Z.gtb_ltb, !Z.ltb_ge.
  split; intros [H1 H2]; (split; [exact H1|]); lia.
Qed.

Section InBoundVisitor.

Variable rt : node (E := E).
Variable b : orb.BoundOf.
Variable f : FilterFunc (E := E).

Lemma inBound_Post_skip :
  forall s l, inBoundInv b f s ->
    (forall e, In e l -> True /\ ~ insideBound (visitor_Bound s) (orb.Point e)) ->
    inBoundPost b f s l s.
Proof.
  intros s l [Hb _] Hl. unfold inBoundPost.
  rewrite filter_none; [rewrite app_nil_r; apply Permutation_refl|].
  intros e He. destruct (Hl e He) as [_ Hout].
  cbn [visitor_Bound inBoundVisitor_visitor] in Hout. rewrite Hb in Hout.
  destruct (inBoundAccepts b f e) eqn:Ha; [|reflexivity].
  apply inBoundAccepts_inside in Ha. tauto.
Qed.

Lemma inBound_Post_visit :
  forall s path n e, inBoundInv b f s -> nodeAt path rt = n ->
    Value n = Some e -> True ->
    exists s', visitor_Visit s path n = Ok s' /\ inBoundInv b f s' /\
               inBoundPost b f s [e] s'.
Proof.
  intros s path n e [Hb Hf] _ Hval _.
  cbn [visitor_Visit inBoundVisitor_visitor]. unfold inBoundVisitor_Visit.
  rewrite Hval, Hb, Hf. unfold inBoundPost, inBoundAccepts. cbn [filter].
  destruct (passes f e); cbn [negb andb].
  - destruct ((orb.X (orb.Min b) >? orb.X (orb.Point e)) ||
              (orb.X (orb.Max b) <? orb.X (orb.Point e)) ||
              (orb.Y (orb.Min b) >? orb.Y (orb.Point e)) ||
              (orb.Y (orb.Max b) <? orb.Y (orb.Point e))); cbn [negb].
    + exists s. split; [reflexivity|]. split; [split; assumption|].
      rewrite app_nil_r. apply Permutation_refl.
    + eexists. split; [reflexivity|]. split; [split; reflexivity|].
      cbn [ib_pointers]. apply Permutation_refl.
  - exists s. split; [reflexivity|]. split; [split; assumption|].
    rewrite app_nil_r. apply Permutation_refl.
Qed.

Lemma inBound_Post_trans :
  forall s l1 s1 l2 s2, inBoundPost b f s l1 s1 -> inBoundPost b f s1 l2 s2 ->
    inBoundPost b f s (l1 ++ l2) s2.
Proof.
  unfold inBoundPost. intros s l1 s1 l2 s2 P1 P2.
  rewrite filter_app, app_assoc, <- P1. exact P2.
Qed.

Lemma inBound_Post_perm :
  forall s l l' s', Permutation l l' -> inBoundPost b f s l s' ->
    inBoundPost b f s l' s'.
Proof.
  unfold inBoundPost. intros s l l' s' Hperm P.
  rewrite <- (Permutation_filter (inBoundAccepts b f) l l' Hperm). exact P.
Qed.

Lemma inBound_walk left right bottom top s :
  rt <> Nil -> cellInv rt left right bottom top -> inBoundInv b f s ->
  exists s', visit_Visit rt [] left right bottom top s = Ok s' /\
             inBoundInv b f s' /\ inBoundPost b f s (entities rt) s'.
Proof.
  intros Hn Hcell Hinv.
  apply (visit_Visit_spec rt (fun _ => True) (inBoundInv b f) (inBoundPost b f)
           inBound_Post_skip inBound_Post_visit inBound_Post_trans
           inBound_Post_perm); auto.
Qed.

End InBoundVisitor.

(** In every index a program can build, the range query returns, up to
    order, exactly the stored entities that pass the filter and lie in the
    query rectangle; over the universe rectangle and without filter it
    returns all the stored entities. *)
Lemma InBoundMatching_complete q (buf : list E) (b : orb.BoundOf) (f : FilterFunc) :
  reachable q ->
  exists l, InBoundMatching q buf b f = Ok l /\
            Permutation l (filter (inBoundAccepts b f) (entities (root q))).
Proof.
  intros Hq. pose proof (reachable_rootInv q Hq) as Hinv.
  unfold InBoundMatching.
  destruct (root q) as [|v c0 c1 c2 c3] eqn:Hr.
  - exists []. split; [reflexivity|]. constructor.
  - rewrite <- Hr.
    assert (Hn : root q <> Nil) by (rewrite Hr; discriminate).
    destruct (inBound_walk (root q) b f _ _ _ _
                {| ib_bound := b; ib_pointers := []; ib_filter := f |} Hn Hinv)
      as (s & Ew & _ & Pw); [split; reflexivity|].
    rewrite Ew. cbn [bind]. exists (ib_pointers s). split; [reflexivity|].
    exact Pw.
Qed.

Lemma InBound_universe_complete q (buf : list E) :
  reachable q ->
  exists l, InBound q buf (bound q) = Ok l /\ Permutation l (entities (root q)).
Proof.
  intros Hq. unfold InBound.
  destruct (InBoundMatching_complete q buf (bound q) None Hq) as (l & Hl & Hperm).
  exists l. split; [exact Hl|].
  rewrite filter_all in Hperm; [exact Hperm|].
  intros e He. apply inBoundAccepts_inside. split; [reflexivity|].
  apply rootInv_Good; [apply reachable_rootInv; exact Hq | exact He].
Qed.

(** ** What insertion stores *)

Lemma add_entities_perm n p point left right bottom top :
  n <> Nil ->
  Permutation (entities (add n p point left right bottom top)) (p :: entities n).
Proof.
  revert left right bottom top.
  induction n as [|v c0 IH0 c1 IH1 c2 IH2 c3 IH3]; intros left right bottom top Hn;
    [contradiction|].
  cbn [add]. cbv zeta.
  destruct (orb.Y point <=? math.div (math.add bottom top) 2);
  destruct (orb.X point >=? math.div (math.add left right) 2);
  cbn [entities];
  match goal with
  | |- context [entities (match ?c with
                          | Nil => leaf p
                          | Node _ _ _ _ _ => add ?c p point ?l ?r ?b ?t
                          end)] =>
    assert (Hc : Permutation (entities (match c with
                                        | Nil => leaf p
                                        | Node _ _ _ _ _ => add c p point l r b t
                                        end)) (p :: entities c))
      by (destruct c;
          [ apply Permutation_refl
          | first [apply IH0 | apply IH1 | apply IH2 | apply IH3]; discriminate ]);
    rewrite Hc
  end;
  cbn [app]; rewrite <- ?Permutation_middle; apply Permutation_refl.
Qed.

Lemma Add_entities q e :
  orb.Contains (bound q) (orb.Point e) = true ->
  Permutation (entities (root (fst (Add q (Some e))))) (e :: entities (root q)).
Proof.
  intros Hc. unfold Add. rewrite Hc. cbn [negb].
  destruct (root q) eqn:Hr; cbn [fst root].
  - apply Permutation_refl.
  - rewrite <- Hr. apply add_entities_perm. rewrite Hr. discriminate.
Qed.

Lemma Add_bound q (p : option E) : bound (fst (Add q p)) = bound q.
Proof.
  destruct p as [e|]; [|reflexivity]. unfold Add.
  destruct (negb (orb.Contains (bound q) (orb.Point e))); [reflexivity|].
  destruct (root q); reflexivity.
Qed.

Lemma addAll_bound q (ps : list (option E)) : bound (addAll q ps) = bound q.
Proof.
  revert q. induction ps as [|p ps IH]; intros q; [reflexivity|].
  cbn [addAll]. rewrite IH. apply Add_bound.
Qed.

Lemma addAll_entities q (ps : list (option E)) :
  Permutation (entities (root (addAll q ps)))
              (entities (root q) ++ accepted (bound q) ps).
Proof.
  revert q. induction ps as [|p ps IH]; intros q.
  - cbn [addAll accepted]. rewrite app_nil_r. apply Permutation_refl.
  - cbn [addAll accepted]. rewrite IH, Add_bound.
    destruct p as [e|]; [|apply Permutation_refl].
    destruct (orb.Contains (bound q) (orb.Point e)) eqn:Hc.
    + rewrite (Add_entities q e Hc). cbn [app].
      apply Permutation_cons_app. apply Permutation_refl.
    + unfold Add. rewrite Hc. apply Permutation_refl.
Qed.

(** X1.  A successful [Add] stores the entity once and keeps everything
    that was stored: the entities of the index after the call are the new
    entity and the entities before the call; the universe rectangle is the
    one before the call. *)
Theorem Add_stores_the_entity :
  forall q e,
    snd (Add q (Some e)) = None ->
    Permutation (entities (root (fst (Add q (Some e))))) (e :: entities (root q)) /\
    bound (fst (Add q (Some e))) = bound q.
Proof.
  intros q e Hok. split; [|apply Add_bound].
  apply Add_entities.
  unfold Add in Hok.
  destruct (orb.Contains (bound q) (orb.Point e)); [reflexivity|].
  discriminate Hok.
Qed.

(** X2.  Every entity stored in an index built by [New], [Add] and [Remove]
    lies inside the universe rectangle the index was created with:
    [Contains] holds of its point. *)
Theorem stored_entities_inside_bound :
  forall q e,
    reachable q -> In e (entities (root q)) ->
    orb.Contains (bound q) (orb.Point e) = true.
Proof.
  intros q e Hq He. apply Contains_inside.
  apply (rootInv_Good q e (reachable_rootInv q Hq) He).
Qed.

(** ** The nearest-neighbour search, whatever the coordinates *)

Lemma wrap_range (z : Z) : - 2 ^ 63 <= math.wrap z <= 2 ^ 63 - 1.
Proof.
  unfold math.wrap.
  change (2 ^ 64) with 18446744073709551616.
  change (2 ^ 63) with 9223372036854775808.
  pose proof (Z.mod_pos_bound (z + 9223372036854775808) 18446744073709551616).
  lia.
Qed.

Lemma wrap_mod4 (z : Z) : math.wrap z mod 4 = z mod 4.
Proof.
  unfold math.wrap.
  change (2 ^ 64) with 18446744073709551616.
  change (2 ^ 63) with 9223372036854775808.
  rewrite (Z.mod_eq (z + 9223372036854775808) 18446744073709551616) by lia.
  replace (z + 9223372036854775808 -
           18446744073709551616 *
           ((z + 9223372036854775808) / 18446744073709551616) -
           9223372036854775808)
    with (z + (- 4611686018427387904 *
               ((z + 9223372036854775808) / 18446744073709551616)) * 4) by lia.
  apply Z_mod_plus_full.
Qed.

Lemma square_mod4 (d : Z) : (d * d) mod 4 = 0 \/ (d * d) mod 4 = 1.
Proof.
  rewrite Z.mul_mod by lia.
  pose proof (Z.mod_pos_bound d 4) as H.
  assert (Hc : d mod 4 = 0 \/ d mod 4 = 1 \/ d mod 4 = 2 \/ d mod 4 = 3) by lia.
  destruct Hc as [Hc | [Hc | [Hc | Hc]]]; rewrite Hc; cbn; auto.
Qed.

(** A sum of two squares is never 3 modulo 4, and wrap-around preserves
    residues modulo 4: the squared distance computed in int64 is never the
    greatest int64, with which the searches start. *)
Lemma DistanceSquared_below_MaxOf (a b : orb.PointOf) :
  planar.DistanceSquared a b < math.MaxOf.
Proof.
  unfold planar.DistanceSquared, math.add, math.mul. cbv zeta.
  set (d0 := math.sub (orb.X a) (orb.X b)).
  set (d1 := math.sub (orb.Y a) (orb.Y b)).
  pose proof (wrap_range (math.wrap (d0 * d0) + math.wrap (d1 * d1))) as Hr.
  set (D := math.wrap (math.wrap (d0 * d0) + math.wrap (d1 * d1))) in *.
  assert (Hm : D mod 4 = ((d0 * d0) mod 4 + (d1 * d1) mod 4) mod 4).
  { unfold D. rewrite wrap_mod4. rewrite Z.add_mod by lia.
    rewrite !wrap_mod4. reflexivity. }
  unfold math.MaxOf.
  change (2 ^ 63) with 9223372036854775808 in *.
  assert (HD : D <> 9223372036854775807).
  { intros HD. rewrite HD in Hm.
    change (9223372036854775807 mod 4) with 3 in Hm.
    destruct (square_mod4 d0) as [H0 | H0]; destruct (square_mod4 d1) as [H1 | H1];
      rewrite H0, H1 in Hm; cbn in Hm; discriminate. }
  lia.
Qed.

Section FindSound.

Variable rt : node (E := E).
Variable univ : orb.BoundOf.
Variable f : FilterFunc (E := E).

Let Good (e : E) : Prop := insideBound univ (orb.Point e).

Lemma findSound_Post_skip :
  forall s l, findSoundInv rt univ f s ->
    (forall e, In e l -> Good e /\ ~ insideBound (visitor_Bound s) (orb.Point e)) ->
    findSoundPost f s l s.
Proof.
  intros s l [_ Hc] Hl Hnone. split; [exact Hnone|].
  rewrite Hnone in Hc. destruct Hc as [_ Hb].
  intros e He. destruct (Hl e He) as [Hg Hout].
  cbn [visitor_Bound findVisitor_visitor] in Hout. rewrite Hb in Hout.
  contradiction.
Qed.

Lemma findSound_Post_visit :
  forall s path n e, findSoundInv rt univ f s -> nodeAt path rt = n ->
    Value n = Some e -> Good e ->
    exists s', visitor_Visit s path n = Ok s' /\ findSoundInv rt univ f s' /\
               findSoundPost f s [e] s'.
Proof.
  intros s path n e Hinv Hat Hval _.
  pose proof Hinv as [Hf Hc].
  cbn [visitor_Visit findVisitor_visitor]. unfold findVisitor_Visit.
  rewrite Hval, Hf.
  destruct (passes f e) eqn:Hpass; cbn [negb].
  - destruct (planar.DistanceSquared (orb.Point e) (fv_point s) <? fv_minDistSquared s)
      eqn:Hlt.
    + eexists. split; [reflexivity|]. split.
      * unfold findSoundInv. cbn [fv_filter fv_closest].
        split; [reflexivity|]. exists e. rewrite Hat. auto.
      * unfold findSoundPost. cbn [fv_closest]. discriminate.
    + apply Z.ltb_ge in Hlt.
      exists s. split; [reflexivity|]. split; [exact Hinv|].
      intros Hnone. exfalso. rewrite Hnone in Hc. destruct Hc as [Hm _].
      pose proof (DistanceSquared_below_MaxOf (orb.Point e) (fv_point s)). lia.
  - exists s. split; [reflexivity|]. split; [exact Hinv|].
    intros Hnone. split; [exact Hnone|].
    intros e' [He'|[]]. subst e'. exact Hpass.
Qed.

Lemma findSound_Post_trans :
  forall s l1 s1 l2 s2, findSoundPost f s l1 s1 -> findSoundPost f s1 l2 s2 ->
    findSoundPost f s (l1 ++ l2) s2.
Proof.
  intros s l1 s1 l2 s2 P1 P2 Hnone.
  destruct (P2 Hnone) as [H1 A2]. destruct (P1 H1) as [H0 A1].
  split; [exact H0|]. intros e He. apply in_app_or in He.
  destruct He; auto.
Qed.

Lemma findSound_Post_perm :
  forall s l l' s', Permutation l l' -> findSoundPost f s l s' ->
    findSoundPost f s l' s'.
Proof.
  intros s l l' s' Hperm P Hnone. destruct (P Hnone) as [H0 A].
  split; [exact H0|]. intros e He. apply A.
  eapply Permutation_in; [apply Permutation_sym; exact Hperm | exact He].
Qed.

Lemma findSound_walk left right bottom top s :
  rt <> Nil -> cellInv rt left right bottom top ->
  (forall e, In e (entities rt) -> Good e) ->
  findSoundInv rt univ f s ->
  exists s', visit_Visit rt [] left right bottom top s = Ok s' /\
             findSoundInv rt univ f s' /\ findSoundPost f s (entities rt) s'.
Proof.
  intros Hn Hcell Hgood Hinv.
  apply (visit_Visit_spec rt Good (findSoundInv rt univ f) (findSoundPost f)
           findSound_Post_skip findSound_Post_visit findSound_Post_trans
           findSound_Post_perm); auto.
Qed.

End FindSound.

Lemma findSound_from_root q (p : orb.PointOf) (f : FilterFunc) :
  rootInv q -> root q <> Nil ->
  exists s,
    visit_Visit (root q) []
      (orb.X (orb.Min (bound q))) (orb.X (orb.Max (bound q)))
      (orb.Y (orb.Min (bound q))) (orb.Y (orb.Max (bound q)))
      {| fv_point := p; fv_filter := f; fv_closest := None;
         fv_closestBound := bound q; fv_minDistSquared := math.MaxOf |} = Ok s /\
    match fv_closest s with
    | Some path =>
      exists e, Value (nodeAt path (root q)) = Some e /\ passes f e = true
    | None => forall e, In e (entities (root q)) -> passes f e = false
    end.
Proof.
  intros Hinv Hn.
  destruct (findSound_walk (root q) (bound q) f _ _ _ _
              {| fv_point := p; fv_filter := f; fv_closest := None;
                 fv_closestBound := bound q; fv_minDistSquared := math.MaxOf |}
              Hn Hinv) as (s & Ew & Iw & Pw).
  - intros e He. apply rootInv_Good; auto.
  - unfold findSoundInv. cbn. auto.
  - exists s. split; [exact Ew|].
    destruct Iw as [_ Hc]. unfold findSoundPost in Pw.
    destruct (fv_closest s) as [path|]; [exact Hc|].
    apply Pw. reflexivity.
Qed.

(** X3.  At the coordinate type int64, on every platform: in every index
    built by [New], [Add] and [Remove], for every query point and filter
    and whatever the size of the coordinates, [Matching] returns without
    panicking; an entity it returns is stored and passes the filter; and it
    returns none exactly when no stored entity passes the filter.  This
    holds whatever [math.Sqrt] yields on a squared distance that has
    wrapped around, hence whatever square the search is narrowed to once
    an entity has been accepted. *)
Theorem Matching_returns_stored_passing :
  forall q (p : orb.PointOf) (f : FilterFunc),
    reachable q ->
    exists r : option E,
      Matching q p f = Ok r /\
      (forall e, r = Some e -> In e (entities (root q)) /\ passes f e = true) /\
      (r = None <-> forall e, In e (entities (root q)) -> passes f e = false).
Proof.
  intros q p f Hq. pose proof (reachable_rootInv q Hq) as Hinv.
  unfold Matching.
  destruct (root q) as [|v c0 c1 c2 c3] eqn:Hr.
  - exists None. split; [reflexivity|].
    split; [intros e He; discriminate|].
    split; [intros _ e []| reflexivity].
  - rewrite <- Hr.
    assert (Hn : root q <> Nil) by (rewrite Hr; discriminate).
    destruct (findSound_from_root q p f Hinv Hn) as (s & Ew & Hs).
    rewrite Ew. cbn [bind].
    destruct (fv_closest s) as [path|].
    + destruct Hs as (e & Hv & Hpass).
      pose proof (nodeAt_entities path (root q) e Hv) as Hin.
      exists (Some e). split; [rewrite Hv; reflexivity|].
      split; [intros e0 He0; inversion He0; subst e0; auto|].
      split; [discriminate|].
      intros Hnone. rewrite (Hnone e Hin) in Hpass. discriminate.
    + exists None. split; [reflexivity|].
      split; [intros e He; discriminate|].
      split; [intros _; exact Hs | reflexivity].
Qed.

Lemma sqdist_zero (a b : orb.PointOf) : sqdist a b = 0 -> a = b.
Proof.
  unfold sqdist. intros H.
  pose proof (Z.square_nonneg (orb.X a - orb.X b)) as H0.
  pose proof (Z.square_nonneg (orb.Y a - orb.Y b)) as H1.
  assert (Hx : (orb.X a - orb.X b) * (orb.X a - orb.X b) = 0) by lia.
  assert (Hy : (orb.Y a - orb.Y b) * (orb.Y a - orb.Y b) = 0) by lia.
  apply Z.mul_eq_0 in Hx, Hy.
  destruct a as [ax ay], b as [bx by']. cbn in *. f_equal; lia.
Qed.

(** X4.  Insert, then look up, at the coordinate type int64.  In an index
    of int64 coordinates built by [New], [Add] and [Remove] whose universe
    rectangle has coordinates of magnitude at most 2^24, after a successful
    [Add] of an entity, [Find] at that entity's point returns a stored
    entity located at exactly that point. *)
Theorem Find_after_Add :
  forall q e,
    reachable q -> smallBound (bound q) ->
    snd (Add q (Some e)) = None ->
    exists e',
      Find (fst (Add q (Some e))) (orb.Point e) = Ok (Some e') /\
      In e' (entities (root (fst (Add q (Some e))))) /\
      orb.Point e' = orb.Point e.
Proof.
  intros q e Hq Hub Hok.
  set (q' := fst (Add q (Some e))).
  assert (Hq' : reachable q') by (apply reach_Add; exact Hq).
  assert (Hb : bound q' = bound q) by apply Add_bound.
  assert (Hc : orb.Contains (bound q) (orb.Point e) = true).
  { unfold Add in Hok.
    destruct (orb.Contains (bound q) (orb.Point e)); [reflexivity | discriminate Hok]. }
  assert (Hin : In e (entities (root q'))).
  { eapply Permutation_in; [apply Permutation_sym; apply (Add_entities q e Hc)|].
    left. reflexivity. }
  assert (Hp : smallPoint (orb.Point e)).
  { eapply insideBound_small; [exact Hub|]. apply Contains_inside. exact Hc. }
  assert (Hn : root q' <> Nil) by (intros H; rewrite H in Hin; destruct Hin).
  assert (Hub' : smallBound (bound q')) by (rewrite Hb; exact Hub).
  destruct (find_from_root q' (orb.Point e) None (reachable_rootInv q' Hq') Hn Hub' Hp)
    as (s & Ew & Hs).
  unfold Find, Matching.
  destruct (root q') as [|v c0 c1 c2 c3] eqn:Hr; [contradiction|].
  rewrite <- Hr in *. rewrite Ew. cbn [bind].
  destruct (fv_closest s) as [path|].
  - destruct Hs as (e' & Hv & _ & Hmin).
    exists e'. rewrite Hv. split; [reflexivity|].
    split; [apply (nodeAt_entities path); exact Hv|].
    specialize (Hmin e Hin eq_refl).
    assert (H0 : sqdist (orb.Point e) (orb.Point e) = 0) by (unfold sqdist; lia).
    assert (Hs' : smallPoint (orb.Point e')).
    { eapply insideBound_small; [exact Hub'|].
      apply rootInv_Good; [apply reachable_rootInv; exact Hq'|].
      apply (nodeAt_entities path). exact Hv. }
    pose proof (sqdist_small _ _ Hs' Hp) as Hnn.
    apply sqdist_zero. lia.
  - specialize (Hs e Hin). discriminate Hs.
Qed.

(** ** The range query, in the vocabulary of the package *)

Lemma inBoundAccepts_Contains (b : orb.BoundOf) (f : FilterFunc) e :
  inBoundAccepts b f e = passes f e && orb.Contains b (orb.Point e).
Proof.
  apply eq_true_iff_eq.
  rewrite inBoundAccepts_inside, andb_true_iff.
  split; intros [H1 H2]; (split; [exact H1|]).
  - apply Contains_inside. exact H2.
  - apply Contains_inside. exact H2.
Qed.

(** X5.  In every index built by [New], [Add] and [Remove], for every
    query rectangle and filter and whatever the coordinates,
    [InBoundMatching] returns without panicking, and its result is, up to
    order and with multiplicity, the list of the stored entities that pass
    the filter and whose point the query rectangle contains. *)
Theorem InBoundMatching_returns_exactly :
  forall q (buf : list E) (b : orb.BoundOf) (f : FilterFunc),
    reachable q ->
    exists l,
      InBoundMatching q buf b f = Ok l /\
      Permutation l
        (filter (fun e => passes f e && orb.Contains b (orb.Point e))
                (entities (root q))) /\
      (forall e, In e l <->
                 In e (entities (root q)) /\ passes f e = true /\
                 orb.Contains b (orb.Point e) = true).
Proof.
  intros q buf b f Hq.
  destruct (InBoundMatching_complete q buf b f Hq) as (l & Hl & Hperm).
  assert (Hperm' : Permutation l
            (filter (fun e => passes f e && orb.Contains b (orb.Point e))
                    (entities (root q)))).
  { rewrite Hperm. erewrite filter_ext; [apply Permutation_refl|].
    intros e. apply inBoundAccepts_Contains. }
  exists l. split; [exact Hl|]. split; [exact Hperm'|].
  intros e. split.
  - intros He. apply (Permutation_in _ Hperm') in He.
    apply filter_In in He. rewrite andb_true_iff in He. tauto.
  - intros (H1 & H2 & H3).
    apply (Permutation_in _ (Permutation_sym Hperm')).
    apply filter_In. rewrite andb_true_iff. tauto.
Qed.

(** X6.  Nothing is lost by insertion.  After [New b] and any sequence of
    [Add] calls, a range query over the universe rectangle [b] returns, up
    to order and with multiplicity, exactly the entities the calls were
    given that are non-nil and whose point [b] contains. *)
Theorem InBound_after_adds_returns_all_accepted :
  forall (b : orb.BoundOf) (ps : list (option E)) (buf : list E),
    exists l,
      InBound (addAll (New b) ps) buf b = Ok l /\
      Permutation l (accepted b ps).
Proof.
  intros b ps buf.
  assert (Hq : reachable (addAll (New b) ps))
    by (apply reachable_addAll; apply reach_New).
  destruct (InBound_universe_complete (addAll (New b) ps) buf Hq) as (l & Hl & Hperm).
  rewrite addAll_bound in Hl. cbn [New bound] in Hl.
  exists l. split; [exact Hl|].
  rewrite Hperm. rewrite addAll_entities. cbn [New root bound app].
  apply Permutation_refl.
Qed.

(** ** Removal, whatever the coordinates *)

(** X7.  At the coordinate type int64, on every platform: in every index
    built by [New], [Add] and [Remove] in which some node exists, for
    every target and matcher and whatever the coordinates: [Remove]
    returns without panicking and keeps the universe
    rectangle; it returns true exactly when some stored entity is accepted
    by the matcher (by default: has the target's point); when it returns
    true an accepted entity has left the index and every entity stored
    afterwards was stored before; when it returns false the index is
    unchanged. *)
Theorem Remove_found_iff_accepted :
  forall q (target : E) (eq : FilterFunc),
    reachable q -> root q <> Nil ->
    let accepts :=
      match eq with
      | Some g => g
      | None => fun x => orb.Equal (orb.Point target) (orb.Point x)
      end in
    exists q' found,
      Remove q (Some target) eq = Ok (q', found) /\
      bound q' = bound q /\
      (found = true <-> exists x, In x (entities (root q)) /\ accepts x = true) /\
      (found = true ->
         exists x lost,
           accepts x = true /\
           Permutation (entities (root q)) (x :: entities (root q') ++ lost)) /\
      (found = false -> q' = q).
Proof.
  intros q target eq Hq Hn accepts.
  pose proof (reachable_rootInv q Hq) as Hinv.
  destruct (findSound_from_root q (orb.Point target) (Some accepts) Hinv Hn)
    as (s & Ew & Hs).
  unfold Remove.
  replace (match eq with
           | Some g => Some g
           | None => Some (fun pointer : E =>
                             orb.Equal (orb.Point target) (orb.Point pointer))
           end) with (Some accepts) by (subst accepts; destruct eq; reflexivity).
  rewrite Ew. cbn [bind].
  destruct (fv_closest s) as [path|].
  - destruct Hs as (x & Hv & Hpass). cbn [passes] in Hpass.
    pose proof (nodeAt_entities path (root q) x Hv) as Hin.
    destruct (updateAt_removeNode_perm path (root q) x Hv) as [lost Hperm].
    eexists. exists true. split; [reflexivity|]. split; [reflexivity|].
    split; [split; [intros _; exists x; auto | reflexivity]|].
    split; [|discriminate].
    intros _. exists x, lost. cbn [root]. auto.
  - cbn [passes] in Hs.
    exists q, false. split; [reflexivity|]. split; [reflexivity|].
    split.
    { split; [discriminate|]. intros (x & Hin & Hacc).
      rewrite (Hs x Hin) in Hacc. discriminate. }
    split; [discriminate|]. reflexivity.
Qed.

Lemma allValued_Value_None n : allValued n -> Value n = None -> n = Nil.
Proof.
  destruct n as [|v c0 c1 c2 c3]; [reflexivity|].
  cbn [allValued Value]. intros [Hv _] H. contradiction.
Qed.

(** In a tree in which every node holds a value, [removeNode] clears no
    child: exactly one occurrence of the node's value goes. *)
Lemma removeNode_perm_exact n x :
  allValued n -> Value n = Some x ->
  Permutation (entities n) (x :: entities (removeNode n)).
Proof.
  revert x. induction n as [|v c0 IH0 c1 IH1 c2 IH2 c3 IH3]; intros x Ha Hv;
    [discriminate|].
  cbn [allValued] in Ha. destruct Ha as (_ & A0 & A1 & A2 & A3).
  cbn [Value] in Hv. subst v. rewrite removeNode_Node.
  destruct (Value c0) as [x0|] eqn:V0.
  { cbn [entities app]. apply perm_skip.
    rewrite (IH0 x0 A0 eq_refl). apply Permutation_refl. }
  rewrite (allValued_Value_None c0 A0 V0).
  destruct (Value c1) as [x1|] eqn:V1.
  { cbn [entities app]. apply perm_skip.
    rewrite (IH1 x1 A1 eq_refl). apply Permutation_refl. }
  rewrite (allValued_Value_None c1 A1 V1).
  destruct (Value c2) as [x2|] eqn:V2.
  { cbn [entities app]. apply perm_skip.
    rewrite (IH2 x2 A2 eq_refl). apply Permutation_refl. }
  rewrite (allValued_Value_None c2 A2 V2).
  destruct (Value c3) as [x3|] eqn:V3.
  { cbn [entities app]. apply perm_skip.
    rewrite (IH3 x3 A3 eq_refl). apply Permutation_refl. }
  rewrite (allValued_Value_None c3 A3 V3).
  cbn [entities app]. apply Permutation_refl.
Qed.

Lemma updateAt_removeNode_perm_exact (path : list nat) n x :
  allValued n -> Value (nodeAt path n) = Some x ->
  Permutation (entities n) (x :: entities (updateAt path removeNode n)).
Proof.
  revert n. induction path as [|i path IH]; intros n Ha Hv.
  - apply removeNode_perm_exact; assumption.
  - destruct n as [|v c0 c1 c2 c3].
    + cbn [nodeAt] in Hv. replace (Children Nil i) with (Nil (E := E)) in Hv
        by (destruct i; reflexivity).
      rewrite nodeAt_Nil in Hv. discriminate.
    + cbn [allValued] in Ha. destruct Ha as (_ & A0 & A1 & A2 & A3).
      cbn [nodeAt] in Hv.
      destruct i as [|[|[|[|i]]]]; cbn [Children] in Hv.
      * cbn [updateAt entities]. rewrite (IH c0 A0 Hv) at 1.
        cbn [app]. rewrite <- !Permutation_middle. apply Permutation_refl.
      * cbn [updateAt entities]. rewrite (IH c1 A1 Hv) at 1.
        cbn [app]. rewrite <- !Permutation_middle. apply Permutation_refl.
      * cbn [updateAt entities]. rewrite (IH c2 A2 Hv) at 1.
        cbn [app]. rewrite <- !Permutation_middle. apply Permutation_refl.
      * cbn [updateAt entities]. rewrite (IH c3 A3 Hv) at 1.
        cbn [app]. rewrite <- !Permutation_middle. apply Permutation_refl.
      * rewrite nodeAt_Nil in Hv. discriminate.
Qed.

(** X8.  The first removal after insertions only is exact (at the
    coordinate type int64, on every platform).  After [New b] and a
    sequence of [Add] calls of which at least one stored its entity,
    [Remove] returns without panicking, whatever the coordinates; when it
    returns true exactly one entity, and an accepted one, has left the
    index and all the others are still stored; when it returns false no
    stored entity is accepted and the index is unchanged. *)
Theorem Remove_after_adds_removes_exactly_one :
  forall (b : orb.BoundOf) (ps : list (option E)) (target : E) (eq : FilterFunc),
    accepted b ps <> [] ->
    let accepts :=
      match eq with
      | Some g => g
      | None => fun x => orb.Equal (orb.Point target) (orb.Point x)
      end in
    exists q' found,
      Remove (addAll (New b) ps) (Some target) eq = Ok (q', found) /\
      bound q' = b /\
      (found = true ->
         exists x, accepts x = true /\
                   Permutation (accepted b ps) (x :: entities (root q'))) /\
      (found = false ->
         q' = addAll (New b) ps /\
         forall x, In x (accepted b ps) -> accepts x = false).
Proof.
  intros b ps target eq Hne accepts.
  set (q := addAll (New b) ps).
  assert (Hq : reachable q) by (apply reachable_addAll; apply reach_New).
  assert (Hb : bound q = b) by (unfold q; rewrite addAll_bound; reflexivity).
  assert (Hent : Permutation (entities (root q)) (accepted b ps)).
  { unfold q. rewrite addAll_entities. cbn [New root bound app].
    apply Permutation_refl. }
  assert (Hall : allValued (root q))
    by (unfold q; apply allValued_addAll_from; exact I).
  assert (Hn : root q <> Nil).
  { intros H. rewrite H in Hent. cbn [entities] in Hent.
    apply Permutation_nil in Hent. contradiction. }
  pose proof (reachable_rootInv q Hq) as Hinv.
  destruct (findSound_from_root q (orb.Point target) (Some accepts) Hinv Hn)
    as (s & Ew & Hs).
  unfold Remove.
  replace (match eq with
           | Some g => Some g
           | None => Some (fun pointer : E =>
                             orb.Equal (orb.Point target) (orb.Point pointer))
           end) with (Some accepts) by (subst accepts; destruct eq; reflexivity).
  rewrite Ew. cbn [bind].
  destruct (fv_closest s) as [path|].
  - destruct Hs as (x & Hv & Hpass). cbn [passes] in Hpass.
    pose proof (updateAt_removeNode_perm_exact path (root q) x Hall Hv) as Hperm.
    eexists. exists true. split; [reflexivity|]. split; [exact Hb|].
    split; [|discriminate].
    intros _. exists x. split; [exact Hpass|]. cbn [root].
    rewrite <- Hent. exact Hperm.
  - cbn [passes] in Hs.
    exists q, false. split; [reflexivity|]. split; [exact Hb|].
    split; [discriminate|].
    intros _. split; [reflexivity|].
    intros x Hx. apply Hs.
    apply (Permutation_in _ (Permutation_sym Hent)). exact Hx.
Qed.

(** X9.  [Remove] on an index without any node, as after [New] or after
    [Add] calls that all failed: the nil root reaches [visit.Visit], which
    returns before touching it only when the universe rectangle is empty.
    So the call panics with a nil dereference when the universe rectangle
    is not empty, and returns false, leaving the index as it is, when it
    is empty. *)
Theorem Remove_without_root :
  forall q (target : E) (eq : FilterFunc),
    root q = Nil ->
    Remove q (Some target) eq =
    if orb.IsEmpty (bound q) then Ok (q, false) else Panic NilPointerDereference.
Proof.
  intros q target eq Hr. unfold Remove. rewrite Hr.
  cbn [visit_Visit visitor_Bound findVisitor_visitor fv_closestBound].
  unfold orb.IsEmpty.
  rewrite !Z.gtb_ltb.
  destruct (orb.X (orb.Max (bound q)) <? orb.X (orb.Min (bound q))) eqn:Hx;
  destruct (orb.Y (orb.Max (bound q)) <? orb.Y (orb.Min (bound q))) eqn:Hy;
  cbn [orb bind fv_closest]; rewrite ?orb_true_r; cbn [bind fv_closest];
    reflexivity.
Qed.

(** ** The k nearest *)

Lemma filter_andb {A : Type} (g h : A -> bool) (l : list A) :
  filter (fun x => g x && h x) l = filter h (filter g l).
Proof.
  induction l as [|x l IH]; [reflexivity|].
  cbn [filter]. destruct (g x); cbn [andb filter]; rewrite IH; reflexivity.
Qed.

Section NearestRadius.

Variable rt : node (E := E).
Variable univ : orb.BoundOf.
Variable p : orb.PointOf.
Variable f : FilterFunc (E := E).
Variable k M0 : Z.
Hypothesis univ_small : smallBound univ.
Hypothesis p_small : smallPoint p.
Hypothesis k_pos : 1 <= k.

Let Good (e : E) : Prop := insideBound univ (orb.Point e).

Lemma nearestR_Post_skip :
  forall s l, nearestInvR rt univ p f k M0 s ->
    (forall e, In e l -> Good e /\ ~ insideBound (visitor_Bound s) (orb.Point e)) ->
    nearestPostR p f s l s.
Proof.
  intros s l (_ & _ & _ & _ & _ & _ & Hall & _ & Hdisj) Hl.
  split; [lia|]. exists (filter (passes f) l). split; [apply Permutation_refl|].
  intros e He. apply filter_In in He. destruct He as [He _].
  destruct (Hl e He) as [Hg Hout].
  cbn [visitor_Bound nearestVisitor_visitor] in Hout.
  destruct Hdisj as [[_ Hb] | (_ & top & rest & Hitems & Hm & Hb)].
  - rewrite Hb in Hout. contradiction.
  - rewrite Hitems in Hall. inversion Hall as [|? ? (Hd & Hgt & _) _]; subst.
    rewrite Hb in Hout. rewrite Hm.
    assert (Hr : 0 <= hi_distance top <= 2 ^ 51).
    { rewrite Hd. apply sqdist_small; [|exact p_small].
      eapply insideBound_small; eauto. }
    apply Z.lt_le_incl.
    apply (outside_square_farther p (orb.Point e) (hi_distance top)); auto.
    eapply insideBound_small; eauto.
Qed.

Lemma nearestR_Post_visit :
  forall s path n e, nearestInvR rt univ p f k M0 s -> nodeAt path rt = n ->
    Value n = Some e -> Good e ->
    exists s', visitor_Visit s path n = Ok s' /\ nearestInvR rt univ p f k M0 s' /\
               nearestPostR p f s [e] s'.
Proof.
  intros s path n e Hinv Hat Hval Hg.
  pose proof Hinv as (Hpt & Hf & Hk & Hcap & Hsorted & Hlen & Hall & HM & Hdisj).
  cbn [visitor_Visit nearestVisitor_visitor]. unfold nearestVisitor_Visit.
  rewrite Hval, Hf, Hpt.
  assert (Hes : smallPoint (orb.Point e)) by (eapply insideBound_small; eauto).
  rewrite (DistanceSquared_small _ _ Hes p_small).
  destruct (passes f e) eqn:Hpass; cbn [negb].
  2: { exists s. split; [reflexivity|]. split; [exact Hinv|].
       unfold nearestPostR. cbn [filter]. rewrite Hpass.
       split; [lia|]. exists []. split; [apply Permutation_refl|]. intros ? []. }
  destruct (sqdist (orb.Point e) p <? nv_maxDistSquared s) eqn:Hlt.
  2: { apply Z.ltb_ge in Hlt.
       exists s. split; [reflexivity|]. split; [exact Hinv|].
       unfold nearestPostR. cbn [filter]. rewrite Hpass.
       split; [lia|]. exists [e]. split; [apply Permutation_refl|].
       intros e' [He'|[]]. subst e'. exact Hlt. }
  apply Z.ltb_lt in Hlt.
  unfold Push. rewrite Hcap.
  destruct (Z.of_nat (length (heap_items (nv_maxHeap s))) + 1 >? k + 1) eqn:Hc;
    [apply Z.gtb_lt in Hc; lia|].
  cbn [bind heap_items heap_cap]. rewrite Hk, heapInsert_length.
  set (it := {| hi_point := e; hi_distance := sqdist (orb.Point e) p |}).
  assert (Hit : hi_distance it = sqdist (orb.Point (hi_point it)) p /\
                insideBound univ (orb.Point (hi_point it)) /\
                hi_distance it < M0)
    by (subst it; cbn [hi_point hi_distance];
        split; [reflexivity|]; split; [exact Hg | lia]).
  pose proof (heapInsert_sorted it _ Hsorted) as Hs'.
  assert (Hall' : Forall (fun it => hi_distance it = sqdist (orb.Point (hi_point it)) p /\
                                    insideBound univ (orb.Point (hi_point it)) /\
                                    hi_distance it < M0)
                         (heapInsert it (heap_items (nv_maxHeap s)))).
  { eapply Permutation_Forall; [apply Permutation_sym, heapInsert_perm|].
    constructor; assumption. }
  assert (HleM : Forall (fun x => hi_distance x <= nv_maxDistSquared s)
                        (heapInsert it (heap_items (nv_maxHeap s)))).
  { eapply Permutation_Forall; [apply Permutation_sym, heapInsert_perm|].
    constructor; [subst it; cbn [hi_distance]; lia|].
    destruct Hdisj as [[Hm _] | (_ & top & rest & Hitems & Hm & _)].
    - rewrite Hm. eapply Forall_impl; [|exact Hall]. cbv beta. intros a Ha. lia.
    - rewrite Hitems in *. unfold heapSorted in Hsorted.
      apply StronglySorted_inv in Hsorted. destruct Hsorted as [_ Hx].
      rewrite Hm. constructor; [lia | exact Hx]. }
  pose proof (heapInsert_length it (heap_items (nv_maxHeap s))) as Hl'.
  pose proof (heapInsert_perm it (heap_items (nv_maxHeap s))) as Hperm.
  destruct (Z.of_nat (Datatypes.S (length (heap_items (nv_maxHeap s)))) >? k) eqn:Hfull.
  - apply Z.gtb_lt in Hfull. unfold Pop. cbn [heap_items heap_cap].
    destruct (heapInsert it (heap_items (nv_maxHeap s))) as [|x tail] eqn:Hins;
      [discriminate|].
    cbn [bind snd heap_items].
    destruct tail as [|top rest]; [cbn [length] in Hl'; lia|].
    inversion Hall' as [|? ? Hx Hall'']; subst.
    inversion Hall'' as [|? ? Htop _]; subst.
    inversion HleM as [|? ? _ HleM']; subst.
    inversion HleM' as [|? ? HtopM _]; subst.
    unfold heapSorted in Hs'.
    apply StronglySorted_inv in Hs'. destruct Hs' as [Hs'' Hxs].
    inversion Hxs as [|? ? Hxtop _]; subst.
    eexists. split; [reflexivity|]. split.
    + unfold nearestInvR.
      cbn [nv_point nv_filter nv_k nv_maxHeap nv_closestBound nv_maxDistSquared
           heap_items heap_cap].
      cbn [length] in Hl'.
      split; [reflexivity|]. split; [reflexivity|]. split; [reflexivity|].
      split; [reflexivity|].
      split; [exact Hs''|].
      split; [cbn [length]; lia|].
      split; [exact Hall''|].
      split; [lia|].
      right. split; [cbn [length]; lia|].
      exists top, rest. auto.
    + unfold nearestPostR.
      cbn [nv_maxHeap nv_maxDistSquared heap_items filter]. rewrite Hpass.
      split; [exact HtopM|].
      exists [hi_point x]. split.
      * apply (Permutation_map hi_point) in Hperm.
        cbn [map] in Hperm. subst it. cbn [hi_point] in Hperm.
        eapply Permutation_trans;
          [apply Permutation_sym; apply Permutation_cons_append|].
        eapply Permutation_trans; [apply Permutation_sym; exact Hperm|].
        apply Permutation_cons_append.
      * intros e' [He'|[]]. subst e'. destruct Hx as [Hx _]. lia.
  - assert (Hroom' : Z.of_nat (Datatypes.S (length (heap_items (nv_maxHeap s)))) <= k).
    { destruct (Z.gtb_spec (Z.of_nat (Datatypes.S (length (heap_items (nv_maxHeap s))))) k);
        [discriminate | lia]. }
    eexists. split; [reflexivity|]. split.
    + unfold nearestInvR.
      cbn [nv_point nv_filter nv_k nv_maxHeap nv_closestBound nv_maxDistSquared
           heap_items heap_cap].
      split; [reflexivity|]. split; [reflexivity|]. split; [reflexivity|].
      split; [reflexivity|]. split; [exact Hs'|].
      split; [rewrite Hl'; exact Hroom'|].
      split; [exact Hall'|].
      split; [exact HM|].
      destruct Hdisj as [Hinit | [Hfull' _]]; [left; exact Hinit | exfalso; lia].
    + unfold nearestPostR.
      cbn [nv_maxHeap nv_maxDistSquared heap_items filter]. rewrite Hpass.
      split; [lia|]. exists []. rewrite app_nil_r. split; [|intros ? []].
      apply (Permutation_map hi_point) in Hperm.
      cbn [map] in Hperm. subst it. cbn [hi_point] in Hperm.
      eapply Permutation_trans; [|apply Permutation_sym; exact Hperm].
      apply Permutation_sym. apply Permutation_cons_append.
Qed.

Lemma nearestR_Post_trans :
  forall s l1 s1 l2 s2, nearestPostR p f s l1 s1 -> nearestPostR p f s1 l2 s2 ->
    nearestPostR p f s (l1 ++ l2) s2.
Proof.
  unfold nearestPostR.
  intros s l1 s1 l2 s2 (M1 & far1 & P1 & F1) (M2 & far2 & P2 & F2).
  split; [lia|]. exists (far2 ++ far1). split.
  - rewrite filter_app, app_assoc, P1.
    rewrite <- app_assoc.
    rewrite (Permutation_app_comm far1 (filter (passes f) l2)).
    rewrite app_assoc, P2. rewrite <- app_assoc. apply Permutation_refl.
  - intros e He. apply in_app_or in He. destruct He as [He | He].
    + apply F2. exact He.
    + specialize (F1 e He). lia.
Qed.

Lemma nearestR_Post_perm :
  forall s l l' s', Permutation l l' -> nearestPostR p f s l s' ->
    nearestPostR p f s l' s'.
Proof.
  unfold nearestPostR. intros s l l' s' Hperm (M1 & far & P & F).
  split; [exact M1|]. exists far. split; [|exact F].
  rewrite <- (Permutation_filter (passes f) l l' Hperm). exact P.
Qed.

Lemma nearestR_walk left right bottom top s :
  rt <> Nil -> cellInv rt left right bottom top ->
  (forall e, In e (entities rt) -> Good e) ->
  nearestInvR rt univ p f k M0 s ->
  exists s', visit_Visit rt [] left right bottom top s = Ok s' /\
             nearestInvR rt univ p f k M0 s' /\ nearestPostR p f s (entities rt) s'.
Proof.
  intros Hn Hcell Hgood Hinv.
  apply (visit_Visit_spec rt Good (nearestInvR rt univ p f k M0) (nearestPostR p f)
           nearestR_Post_skip nearestR_Post_visit nearestR_Post_trans
           nearestR_Post_perm); auto.
Qed.

End NearestRadius.

(** X10.  [KNearestMatching] returns the k nearest, at the coordinate
    type int64.  In every index of int64 coordinates built by [New], [Add]
    and [Remove] whose universe rectangle has coordinates of magnitude at
    most 2^24, for a query point in that range, every [k >= 1] for which
    [make] grants the heap its capacity [k+1] (that is, [k] below the
    platform's limit), any filter and any optional radius: the candidates
    are the stored
    entities that pass the filter and whose squared distance to the query
    point is below the initial threshold (the greatest number without a
    radius, the wrapped square of the first radius otherwise).  The call
    returns [min(k, number of candidates)] candidates in non-decreasing
    order of distance, and every candidate it leaves out is at least as far
    as every entity it returns. *)
Theorem KNearestMatching_returns_the_k_nearest :
  forall q (buf : list E) (p : orb.PointOf) (k : Z) (f : FilterFunc)
         (maxDistance : list Z),
    reachable q -> smallBound (bound q) -> smallPoint p ->
    1 <= k < makeLimit ->
    let M0 := match maxDistance with
              | [] => math.MaxOf
              | r :: _ => math.mul r r
              end in
    let candidates :=
      filter (fun e => passes f e && (sqdist (orb.Point e) p <? M0))
             (entities (root q)) in
    exists res far,
      KNearestMatching q buf p k f maxDistance = Ok res /\
      Permutation candidates (res ++ far) /\
      StronglySorted Z.le (map (fun e => sqdist (orb.Point e) p) res) /\
      Z.of_nat (length res) = Z.min k (Z.of_nat (length candidates)) /\
      (forall e e', In e res -> In e' far ->
                    sqdist (orb.Point e) p <= sqdist (orb.Point e') p).
Proof.
  intros q buf p k f maxDistance Hq Hub Hp Hk M0 candidates. subst candidates.
  pose proof (reachable_rootInv q Hq) as Hinv.
  unfold KNearestMatching.
  destruct (root q) as [|v c0 c1 c2 c3] eqn:Hr.
  - exists [], []. cbn [entities filter length map app].
    split; [reflexivity|]. split; [constructor|]. split; [constructor|].
    split; [cbn; lia|]. intros e e' [].
  - rewrite <- Hr in *.
    assert (Hn : root q <> Nil) by (rewrite Hr; discriminate).
    destruct (heap_capacity_granted k ltac:(lia)) as [Hk1 Hmake].
    rewrite Hmake.
    assert (Hk' : 1 <= k) by lia.
    destruct (nearestR_walk (root q) (bound q) p f k M0 Hub Hp Hk' _ _ _ _
                (nearestVisitor_new q p k f maxDistance) Hn Hinv)
      as (s & Ew & Iw & Pw).
    + intros e He. apply rootInv_Good; auto.
    + unfold nearestInvR, nearestVisitor_new. subst M0.
      destruct maxDistance as [|r rs];
        cbn [nv_point nv_filter nv_k nv_maxHeap nv_closestBound nv_maxDistSquared
             heap_items heap_cap length];
        (split; [reflexivity|]); (split; [reflexivity|]); (split; [reflexivity|]);
        (split; [exact Hk1|]); (split; [constructor|]); (split; [cbn; lia|]);
        (split; [constructor|]); (split; [lia|]); left; split; reflexivity.
    + rewrite Ew. cbn [bind]. rewrite repack_rev, app_nil_r.
      destruct Iw as (_ & _ & _ & _ & Hsorted & Hlen & Hall & HM & Hdisj).
      destruct Pw as (_ & farAll & Pperm & Pfar).
      replace (heap_items (nv_maxHeap (nearestVisitor_new q p k f maxDistance)))
        with (@nil (heapItem (E := E))) in Pperm
        by (unfold nearestVisitor_new; destruct maxDistance; reflexivity).
      cbn [map app] in Pperm.
      set (items := heap_items (nv_maxHeap s)) in *.
      set (near := fun e : E => sqdist (orb.Point e) p <? M0).
      assert (Hnear : forall e, In e (map hi_point items) -> near e = true).
      { intros e He. apply in_map_iff in He. destruct He as (it & Hit & Hin).
        subst e. rewrite Forall_forall in Hall.
        destruct (Hall it Hin) as (Hd & _ & Hlt).
        unfold near. apply Z.ltb_lt. lia. }
      set (candidates := filter (fun e => passes f e && (sqdist (orb.Point e) p <? M0))
                                (entities (root q))).
      assert (Hcand : Permutation candidates
                        (rev (map hi_point items) ++ filter near farAll)).
      { subst candidates.
        change (fun e : E => passes f e && (sqdist (orb.Point e) p <? M0))
          with (fun e : E => passes f e && near e).
        rewrite filter_andb.
        rewrite (Permutation_filter near _ _ Pperm).
        rewrite filter_app, (filter_all near _ Hnear).
        apply Permutation_app_tail. apply Permutation_rev. }
      assert (Hfull : forall e', In e' (filter near farAll) ->
                Z.of_nat (length items) = k /\
                forall it, In it items -> hi_distance it <= sqdist (orb.Point e') p).
      { intros e' He'. apply filter_In in He'. destruct He' as [Hin' Hn'].
        unfold near in Hn'. apply Z.ltb_lt in Hn'.
        specialize (Pfar e' Hin').
        destruct Hdisj as [[Hm _] | (Hfull & top & rest & Hitems & Hm & _)]; [lia|].
        split; [exact Hfull|].
        intros it Hit. rewrite Hm in Pfar. rewrite Hitems in Hit, Hsorted.
        unfold heapSorted in Hsorted.
        apply StronglySorted_inv in Hsorted. destruct Hsorted as [_ Hx].
        rewrite Forall_forall in Hx.
        destruct Hit as [Hit | Hit]; [subst it; lia|].
        specialize (Hx it Hit). lia. }
      exists (rev (map hi_point items)), (filter near farAll).
      split; [reflexivity|]. split; [exact Hcand|].
      split.
      { rewrite map_rev.
        apply (StronglySorted_rev (fun a b => b <= a)).
        apply heap_distances_sorted; [exact Hsorted|].
        eapply Forall_impl; [|exact Hall]. cbv beta. tauto. }
      split.
      { rewrite (Permutation_length Hcand), length_app, Nat2Z.inj_add.
        rewrite length_rev, length_map.
        destruct (filter near farAll) as [|e' far'] eqn:Hfar.
        - cbn [length]. lia.
        - destruct (Hfull e' (or_introl eq_refl)) as [Hfl _]. lia. }
      intros e e' He He'. rewrite <- in_rev in He. apply in_map_iff in He.
      destruct He as (it & Hit & Hin). subst e.
      destruct (Hfull e' He') as [_ Hle].
      rewrite Forall_forall in Hall. destruct (Hall it Hin) as (Hd & _).
      rewrite <- Hd. apply Hle. exact Hin.
Qed.

End Properties.

(* ===================================================================== *)
(** * Concrete runs *)
(* ===================================================================== *)

Ltac granted :=
  unfold KNearest;
  rewrite KNearestMatching_granted
    by (apply small_capacity; change (2 ^ 16) with 65536; lia).

Section Runs.

Context {PF : Platform}.

(** An instance of C9: (11,5) lies outside (0,0)-(10,10), [Add] returns the
    error and the index is the one it was given. *)
Lemma Add_failure_leaves_index_witness :
  snd (Add single (Some (pt 11 5))) = Some ErrPointOutsideOfBounds /\
  fst (Add single (Some (pt 11 5))) = single.
Proof.
  split.
  - reflexivity.
  - apply (Add_failure_leaves_index single (Some (pt 11 5))).
    right. reflexivity.
Defined.

(** C7 as the code has it.  Given a maximum search radius [r],
    [KNearestMatching] sets the threshold to [r * r] and nothing else: the
    relevant bound of the traversal is the universe rectangle, as without
    a radius, and not the square of that radius around the query point.
    On the scenario index, with radius 1 around (1,1), the threshold is 1
    and the bound (0,0)-(10,10), not (0,0)-(2,2); the bound is still the
    universe after the root has been visited and when the traversal ends.
    So the test at the head of [visit.Visit] lets through the cell
    (5,10)x(5,10) of the root's child 1, which holds (9,9) and lies wholly
    outside the square of the radius, where the square would have pruned
    it.  The result is still the one entity within the radius. *)
Theorem KNearest_radius_leaves_bound_unseeded :
  (forall (q : QuadtreeOf (E := orb.PointOf)) (p : orb.PointOf) (k : Z)
          (f : FilterFunc) (r : Z) (rest : list Z),
     let v := nearestVisitor_new q p k f (r :: rest) in
     nv_maxDistSquared v = math.mul r r /\
     nv_closestBound v = bound q /\
     nv_closestBound v = nv_closestBound (nearestVisitor_new q p k f [])) /\
  (let v := nearestVisitor_new scenario (pt 1 1) 2 None [1] in
   nv_maxDistSquared v = 1 /\
   nv_closestBound v = universe10 /\
   squareAround (pt 1 1) 1 = {| orb.Min := pt 0 0; orb.Max := pt 2 2 |} /\
   nv_closestBound v <> squareAround (pt 1 1) 1 /\
   Value (nodeAt [1%nat] (root scenario)) = Some (pt 9 9) /\
   childCell 1 0 10 0 10 = (5, 10, 5, 10) /\
   pruned (nv_closestBound v) 5 10 5 10 = false /\
   pruned (squareAround (pt 1 1) 1) 5 10 5 10 = true /\
   (v1 <- nearestVisitor_Visit v [] (root scenario) ;;
    Ok (nv_closestBound v1, pruned (nv_closestBound v1) 5 10 5 10)) =
   Ok (universe10, false) /\
   (v' <- visit_Visit (root scenario) [] 0 10 0 10 v ;; Ok (nv_closestBound v')) =
   Ok universe10) /\
  KNearest scenario [] (pt 1 1) 2 [1] = Ok [pt 1 1].
Proof.
  split; [|split].
  - intros q p k f r rest v. subst v. repeat split; reflexivity.
  - cbv zeta. repeat split; try (vm_compute; reflexivity).
    intros H. vm_compute in H. discriminate H.
  - granted. vm_compute. reflexivity.
Qed.

(** C2 on a concrete run.  Add (5,5) and (1,9); remove (1,9): its node stays
    in the tree without a value.  Add (1,8): [add] walks through the
    value-less node and hangs the new leaf below it.  Remove (5,5):
    [removeNode] clears the value-less child together with the leaf below
    it.  [InBound] over the universe then returns nothing, although (1,8)
    was added and never removed. *)
Theorem InBound_loses_entity_after_Remove :
  Remove lossy2 (Some (pt 1 9)) None = Ok (lossy3, true) /\
  Add lossy3 (Some (pt 1 8)) = (lossy4, None) /\
  InBound lossy4 [] universe10 = Ok [pt 5 5; pt 1 8] /\
  Remove lossy4 (Some (pt 5 5)) None = Ok (lossy5, true) /\
  InBound lossy5 [] universe10 = Ok [] /\
  Find lossy5 (pt 1 8) = Ok None.
Proof.
  repeat split; vm_compute; reflexivity.
Qed.

(** C6 on a concrete run.  With one entity in the index, [KNearest] with
    [k = 0] pushes the entity, pops it again because the heap is longer than
    [k], and then reads [v.maxHeap[0]] on the empty heap: the call panics
    instead of returning an empty result.  On an index without any node
    the call returns before it builds the visitor. *)
Theorem KNearest_zero_panics :
  KNearest single [] (pt 0 0) 0 [] = Panic IndexOutOfRange /\
  KNearest (New universe10) [] (pt 0 0) 0 [] = Ok [].
Proof.
  split; granted; vm_compute; reflexivity.
Qed.

(** C4 on concrete runs.  The scenario index holds [N = 4] entities.  With
    [k = 2] and [k = 4] the result is as claimed; with [k = 0] the call
    panics and returns no list at all. *)
Theorem KNearest_scenario_runs :
  length (entities (root scenario)) = 4%nat /\
  KNearest scenario [] (pt 0 0) 2 [] = Ok [pt 1 1; pt 5 5] /\
  KNearest scenario [] (pt 0 0) 4 [] = Ok [pt 1 1; pt 5 5; pt 1 9; pt 9 9] /\
  KNearest scenario [] (pt 0 0) 0 [] = Panic IndexOutOfRange.
Proof.
  split; [vm_compute; reflexivity|].
  repeat split; granted; vm_compute; reflexivity.
Qed.

(** C5 on a concrete run.  [Remove] on an index in which nothing was ever
    added hands the nil root to [visit.Visit], which dereferences it: the
    call panics instead of returning false.  Once a node exists, removing
    an entity that is not stored returns false and the same index.  The
    queries test [q.root == nil] first and return. *)
Theorem Remove_on_new_index_panics :
  Remove (New universe10) (Some (pt 5 5)) None = Panic NilPointerDereference /\
  Remove single (Some (pt 1 1)) None = Ok (single, false) /\
  Find (New universe10) (pt 5 5) = Ok None /\
  KNearest (New universe10) [] (pt 5 5) 1 [] = Ok [] /\
  InBound (New universe10) [] universe10 = Ok [].
Proof.
  repeat split; vm_compute; reflexivity.
Qed.

Lemma scenario_reachable : reachable scenario.
Proof. unfold scenario. apply reachable_addAll. apply reach_New. Defined.

Lemma wide_reachable : reachable wide.
Proof. unfold wide. apply reachable_addAll. apply reach_New. Defined.

Lemma single_reachable : reachable single.
Proof. unfold single. apply reachable_addAll. apply reach_New. Defined.

Lemma universe10_small : smallBound universe10.
Proof. unfold smallBound, smallPoint, small. cbn. lia. Defined.

Lemma scenario_has_root : root scenario <> Nil.
Proof. vm_compute. discriminate. Defined.

Lemma origin_small : smallPoint (pt 0 0).
Proof. unfold smallPoint, small. cbn. lia. Defined.

Lemma centre_small : smallPoint (pt 5 5).
Proof. unfold smallPoint, small. cbn. lia. Defined.

(** An instance of the k-nearest lemma: the scenario index, query (0,0),
    [k = 2]. *)
Example KNearest_sorted_scenario :
  exists res : list orb.PointOf,
    KNearest scenario [] (pt 0 0) 2 [] = Ok res /\
    Z.of_nat (length res) <= 2 /\
    StronglySorted Z.le (map (fun e => sqdist (orb.Point e) (pt 0 0)) res) /\
    (forall e, In e res -> In e (entities (root scenario))) /\
    (Z.of_nat (length (entities (root scenario))) <= 2 ->
     Permutation res (entities (root scenario))).
Proof.
  apply (KNearest_sorted_within_k scenario [] (pt 0 0) 2
           scenario_reachable universe10_small origin_small).
  pose proof makeLimit_min. change (2 ^ 16) with 65536 in *. lia.
Qed.

End Runs.


(* ===================================================================== *)
(** * Instances of the theorems, on the example platform *)
(* ===================================================================== *)

#[local] Existing Instance examplePlatform.

Lemma example_capacity : 1 <= 2 < makeLimit.
Proof. vm_compute. split; [discriminate | reflexivity]. Defined.


(** An instance of X1: adding (1,1) to the index that holds (5,5). *)
Lemma Add_stores_the_entity_witness :
  snd (Add single (Some (pt 1 1))) = None /\
  Permutation (entities (root (fst (Add single (Some (pt 1 1))))))
              (pt 1 1 :: entities (root single)) /\
  bound (fst (Add single (Some (pt 1 1)))) = bound single.
Proof.
  split; [reflexivity|].
  apply (Add_stores_the_entity single (pt 1 1)). reflexivity.
Defined.

(** An instance of X2: (5,5) in the scenario index. *)
Lemma stored_entities_inside_bound_witness :
  reachable scenario /\ In (pt 5 5) (entities (root scenario)) /\
  orb.Contains (bound scenario) (orb.Point (pt 5 5)) = true.
Proof.
  assert (Hin : In (pt 5 5) (entities (root scenario))) by (vm_compute; auto 10).
  split; [exact scenario_reachable|]. split; [exact Hin|].
  exact (stored_entities_inside_bound scenario (pt 5 5) scenario_reachable Hin).
Defined.

(** An instance of X3 outside the range of exact arithmetic: the index
    [wide], query (0,0). *)
Lemma Matching_returns_stored_passing_witness :
  reachable wide /\
  exists r : option orb.PointOf,
    Matching wide (pt 0 0) None = Ok r /\
    (forall e, r = Some e -> In e (entities (root wide)) /\ passes None e = true) /\
    (r = None <-> forall e, In e (entities (root wide)) -> passes None e = false).
Proof.
  split; [exact wide_reachable|].
  exact (Matching_returns_stored_passing wide (pt 0 0) None wide_reachable).
Defined.

(** An instance of X4: adding (1,1) to the index that holds (5,5), then
    looking it up. *)
Lemma Find_after_Add_witness :
  reachable single /\ smallBound (bound single) /\
  snd (Add single (Some (pt 1 1))) = None /\
  exists e',
    Find (fst (Add single (Some (pt 1 1)))) (orb.Point (pt 1 1)) = Ok (Some e') /\
    In e' (entities (root (fst (Add single (Some (pt 1 1)))))) /\
    orb.Point e' = orb.Point (pt 1 1).
Proof.
  split; [exact single_reachable|]. split; [exact universe10_small|].
  split; [reflexivity|].
  apply (Find_after_Add single (pt 1 1) single_reachable universe10_small).
  reflexivity.
Defined.

(** An instance of X5: the scenario index, queried over its universe. *)
Lemma InBoundMatching_returns_exactly_witness :
  reachable scenario /\
  exists l,
    InBoundMatching scenario [] universe10 None = Ok l /\
    Permutation l
      (filter (fun e => passes None e && orb.Contains universe10 (orb.Point e))
              (entities (root scenario))) /\
    (forall e, In e l <->
               In e (entities (root scenario)) /\ passes None e = true /\
               orb.Contains universe10 (orb.Point e) = true).
Proof.
  split; [exact scenario_reachable|].
  exact (InBoundMatching_returns_exactly scenario [] universe10 None scenario_reachable).
Defined.

(** An instance of X7: removing (5,5) from the scenario index. *)
Lemma Remove_found_iff_accepted_witness :
  reachable scenario /\ root scenario <> Nil /\
  exists (q' : QuadtreeOf (E := orb.PointOf)) (found : bool),
    Remove scenario (Some (pt 5 5)) None = Ok (q', found) /\
    bound q' = bound scenario /\
    (found = true <->
     exists x, In x (entities (root scenario)) /\
               orb.Equal (orb.Point (pt 5 5)) (orb.Point x) = true).
Proof.
  split; [exact scenario_reachable|]. split; [exact scenario_has_root|].
  destruct (Remove_found_iff_accepted scenario (pt 5 5) None
              scenario_reachable scenario_has_root)
    as (q' & found & H1 & H2 & H3 & _).
  exists q', found. split; [exact H1|]. split; [exact H2 | exact H3].
Defined.

(** An instance of X8: (5,5) and (1,9) added, (1,9) removed. *)
Lemma Remove_after_adds_removes_exactly_one_witness :
  accepted universe10 [Some (pt 5 5); Some (pt 1 9)] <> [] /\
  exists (q' : QuadtreeOf (E := orb.PointOf)) (found : bool),
    Remove (addAll (New universe10) [Some (pt 5 5); Some (pt 1 9)])
           (Some (pt 1 9)) None = Ok (q', found) /\
    bound q' = universe10 /\
    (found = true ->
     exists x, orb.Equal (orb.Point (pt 1 9)) (orb.Point x) = true /\
               Permutation (accepted universe10 [Some (pt 5 5); Some (pt 1 9)])
                           (x :: entities (root q'))).
Proof.
  assert (Hne : accepted universe10 [Some (pt 5 5); Some (pt 1 9)] <> [])
    by (vm_compute; discriminate).
  split; [exact Hne|].
  destruct (Remove_after_adds_removes_exactly_one universe10
              [Some (pt 5 5); Some (pt 1 9)] (pt 1 9) None Hne)
    as (q' & found & H1 & H2 & H3 & _).
  exists q', found. split; [exact H1|]. split; [exact H2 | exact H3].
Defined.

(** An instance of X9: an index over the empty rectangle. *)
Lemma Remove_without_root_witness :
  root (New (E := orb.PointOf) orb.emptyBoundOf) = Nil /\
  Remove (New orb.emptyBoundOf) (Some (pt 5 5)) None =
  Ok (New orb.emptyBoundOf, false).
Proof.
  split; [reflexivity|].
  apply (Remove_without_root (New orb.emptyBoundOf) (pt 5 5) None). reflexivity.
Defined.

(** An instance of X10: the scenario index, query (0,0), [k = 2], no
    filter and no radius. *)
Lemma KNearestMatching_returns_the_k_nearest_witness :
  reachable scenario /\ smallBound (bound scenario) /\ smallPoint (pt 0 0) /\
  1 <= 2 < makeLimit /\
  exists res far : list orb.PointOf,
    KNearestMatching scenario [] (pt 0 0) 2 None [] = Ok res /\
    Permutation
      (filter (fun e => passes None e && (sqdist (orb.Point e) (pt 0 0) <? math.MaxOf))
              (entities (root scenario)))
      (res ++ far) /\
    StronglySorted Z.le (map (fun e => sqdist (orb.Point e) (pt 0 0)) res) /\
    Z.of_nat (length res) =
    Z.min 2 (Z.of_nat (length
      (filter (fun e => passes None e && (sqdist (orb.Point e) (pt 0 0) <? math.MaxOf))
              (entities (root scenario))))) /\
    (forall e e', In e res -> In e' far ->
                  sqdist (orb.Point e) (pt 0 0) <= sqdist (orb.Point e') (pt 0 0)).
Proof.
  split; [exact scenario_reachable|]. split; [exact universe10_small|].
  split; [exact origin_small|]. split; [exact example_capacity|].
  exact (KNearestMatching_returns_the_k_nearest scenario [] (pt 0 0) 2 None []
           scenario_reachable universe10_small origin_small example_capacity).
Defined.

(** An instance of X11: removing (5,5) from the scenario index. *)
Lemma Remove_removes_closest_accepted_witness :
  reachable scenario /\ root scenario <> Nil /\
  smallBound (bound scenario) /\ smallPoint (orb.Point (pt 5 5)) /\
  exists (q' : QuadtreeOf (E := orb.PointOf)) (found : bool),
    Remove scenario (Some (pt 5 5)) None = Ok (q', found) /\
    (found = true <->
     exists x, In x (entities (root scenario)) /\
               orb.Equal (orb.Point (pt 5 5)) (orb.Point x) = true).
Proof.
  split; [exact scenario_reachable|]. split; [exact scenario_has_root|].
  split; [exact universe10_small|]. split; [exact centre_small|].
  destruct (Remove_removes_closest_accepted scenario (pt 5 5) None
              scenario_reachable scenario_has_root universe10_small centre_small)
    as (q' & found & Hrem & Hiff & _).
  exists q', found. split; [exact Hrem | exact Hiff].
Defined.

End quadtree.

(* ===================================================================== *)
(** * Properties of the geometry primitives *)
(* ===================================================================== *)

Module geometry.

(** ** Bounds *)

Lemma Contains_iff (b : orb.BoundOf) (p : orb.PointOf) :
  orb.Contains b p = true <->
  orb.X (orb.Min b) <= orb.X p <= orb.X (orb.Max b) /\
  orb.Y (orb.Min b) <= orb.Y p <= orb.Y (orb.Max b).
Proof.
  unfold orb.Contains.
  destruct (Z.ltb_spec (orb.Y p) (orb.Y (orb.Min b)));
  destruct (Z.ltb_spec (orb.Y (orb.Max b)) (orb.Y p));
  destruct (Z.ltb_spec (orb.X p) (orb.X (orb.Min b)));
  destruct (Z.ltb_spec (orb.X (orb.Max b)) (orb.X p));
  cbn [orb]; split; intros H'; try discriminate; try reflexivity; lia.
Qed.

Lemma Contains_false_iff (b : orb.BoundOf) (p : orb.PointOf) :
  orb.Contains b p = false <->
  ~ (orb.X (orb.Min b) <= orb.X p <= orb.X (orb.Max b) /\
     orb.Y (orb.Min b) <= orb.Y p <= orb.Y (orb.Max b)).
Proof.
  rewrite <- Contains_iff. destruct (orb.Contains b p); split; intros H;
    try reflexivity; try discriminate H;
    [exfalso; apply H; reflexivity | intros H'; discriminate H'].
Qed.

Lemma IsEmpty_false_iff (b : orb.BoundOf) :
  orb.IsEmpty b = false <->
  orb.X (orb.Min b) <= orb.X (orb.Max b) /\ orb.Y (orb.Min b) <= orb.Y (orb.Max b).
Proof.
  unfold orb.IsEmpty.
  destruct (Z.gtb_spec (orb.X (orb.Min b)) (orb.X (orb.Max b)));
  destruct (Z.gtb_spec (orb.Y (orb.Min b)) (orb.Y (orb.Max b)));
  cbn [orb]; split; intros H'; try discriminate; try reflexivity; lia.
Qed.

Lemma IsEmpty_true_iff (b : orb.BoundOf) :
  orb.IsEmpty b = true <->
  orb.X (orb.Max b) < orb.X (orb.Min b) \/ orb.Y (orb.Max b) < orb.Y (orb.Min b).
Proof.
  unfold orb.IsEmpty.
  destruct (Z.gtb_spec (orb.X (orb.Min b)) (orb.X (orb.Max b)));
  destruct (Z.gtb_spec (orb.Y (orb.Min b)) (orb.Y (orb.Max b)));
  cbn [orb]; split; intros H'; try discriminate; try reflexivity; lia.
Qed.

Lemma Min_min (a b : Z) : math.Min a b = Z.min a b.
Proof. unfold math.Min. destruct (Z.ltb_spec a b); lia. Qed.

Lemma Max_max (a b : Z) : math.Max a b = Z.max a b.
Proof. unfold math.Max. destruct (Z.gtb_spec a b); lia. Qed.

(** The early return of [Extend] never changes its result. *)
Lemma Extend_hull (b : orb.BoundOf) (p : orb.PointOf) :
  orb.Extend b p = hull b {| orb.Min := p; orb.Max := p |}.
Proof.
  unfold orb.Extend, hull. cbn [orb.Min orb.Max].
  destruct (orb.Contains b p) eqn:Hc.
  - apply Contains_iff in Hc.
    destruct b as [[x0 y0] [x1 y1]]. cbn [orb.X orb.Y orb.Min orb.Max] in *.
    f_equal; f_equal; lia.
  - rewrite !Min_min, !Max_max. reflexivity.
Qed.

Lemma Contains_hull (b c : orb.BoundOf) (x : orb.PointOf) :
  orb.IsEmpty b = false -> orb.IsEmpty c = false ->
  (orb.Contains (hull b c) x = true <->
   forall d, orb.Contains d (orb.Min b) = true -> orb.Contains d (orb.Max b) = true ->
             orb.Contains d (orb.Min c) = true -> orb.Contains d (orb.Max c) = true ->
             orb.Contains d x = true).
Proof.
  intros Hb Hc. apply IsEmpty_false_iff in Hb, Hc. split.
  - intros H d. rewrite !Contains_iff in *. unfold hull in H.
    cbn [orb.X orb.Y orb.Min orb.Max] in H. lia.
  - intros H. apply H; apply Contains_iff; unfold hull;
      cbn [orb.X orb.Y orb.Min orb.Max]; lia.
Qed.

(** X12.  [IsEmpty] holds of a rectangle exactly when it contains no point
    at all; in particular a rectangle reduced to one point, which has no
    area, is not empty, and the rectangle [emptyBoundOf] is. *)
Theorem IsEmpty_iff_contains_nothing :
  forall b : orb.BoundOf,
    (orb.IsEmpty b = true <-> forall p, orb.Contains b p = false) /\
    (forall p, orb.IsEmpty {| orb.Min := p; orb.Max := p |} = false) /\
    orb.IsEmpty orb.emptyBoundOf = true.
Proof.
  intros b. split; [|split; [|reflexivity]].
  - rewrite IsEmpty_true_iff. split.
    + intros H p. apply Contains_false_iff. lia.
    + intros H. specialize (H (orb.Min b)). apply Contains_false_iff in H. lia.
  - intros p. apply IsEmpty_false_iff. cbn [orb.Min orb.Max]. lia.
Qed.

Lemma Extend_contains_point (b : orb.BoundOf) (p : orb.PointOf) :
  orb.Contains (orb.Extend b p) p = true.
Proof.
  rewrite Extend_hull. apply Contains_iff. unfold hull.
  cbn [orb.X orb.Y orb.Min orb.Max]. lia.
Qed.

Lemma Extend_contains_old (b : orb.BoundOf) (p x : orb.PointOf) :
  orb.Contains b x = true -> orb.Contains (orb.Extend b p) x = true.
Proof.
  rewrite Extend_hull. intros Hx. apply Contains_iff in Hx. apply Contains_iff.
  unfold hull. cbn [orb.X orb.Y orb.Min orb.Max]. lia.
Qed.

Lemma Extend_nonempty (b : orb.BoundOf) (p : orb.PointOf) :
  orb.IsEmpty b = false -> orb.IsEmpty (orb.Extend b p) = false.
Proof.
  rewrite Extend_hull. intros Hb. apply IsEmpty_false_iff in Hb.
  apply IsEmpty_false_iff. unfold hull. cbn [orb.X orb.Y orb.Min orb.Max]. lia.
Qed.

Lemma Extend_least (b c : orb.BoundOf) (p x : orb.PointOf) :
  orb.IsEmpty b = false ->
  orb.Contains c p = true ->
  (forall x, orb.Contains b x = true -> orb.Contains c x = true) ->
  orb.Contains (orb.Extend b p) x = true -> orb.Contains c x = true.
Proof.
  rewrite Extend_hull. intros Hb Hp Hsub Hx.
  assert (Hp' : orb.IsEmpty {| orb.Min := p; orb.Max := p |} = false)
    by (apply IsEmpty_false_iff; cbn [orb.Min orb.Max]; lia).
  apply (proj1 (Contains_hull b _ x Hb Hp') Hx); cbn [orb.Min orb.Max]; auto.
  - apply Hsub. apply Contains_iff. apply IsEmpty_false_iff in Hb. lia.
  - apply Hsub. apply Contains_iff. apply IsEmpty_false_iff in Hb. lia.
Qed.

(** X13.  [Extend b p] contains [p] and every point [b] contains; when [b]
    is not empty it is the least such rectangle: every rectangle that
    contains [p] and the points of [b] contains the points of
    [Extend b p]. *)
Theorem Extend_is_least_bound :
  forall (b : orb.BoundOf) (p : orb.PointOf),
    orb.Contains (orb.Extend b p) p = true /\
    (forall x, orb.Contains b x = true -> orb.Contains (orb.Extend b p) x = true) /\
    (orb.IsEmpty b = false ->
     forall c,
       orb.Contains c p = true ->
       (forall x, orb.Contains b x = true -> orb.Contains c x = true) ->
       forall x, orb.Contains (orb.Extend b p) x = true -> orb.Contains c x = true).
Proof.
  intros b p. split; [|split].
  - apply Extend_contains_point.
  - intros x. apply Extend_contains_old.
  - intros Hb c Hp Hsub x. apply Extend_least; assumption.
Qed.

Lemma Union_hull (b other : orb.BoundOf) :
  orb.IsEmpty other = false -> orb.Union b other = hull b other.
Proof.
  intros Ho. unfold orb.Union. rewrite Ho. cbv zeta. rewrite !Extend_hull.
  apply IsEmpty_false_iff in Ho.
  unfold hull, orb.LeftTop, orb.RightBottom, orb.Left, orb.Right, orb.Top, orb.Bottom.
  cbn [orb.X orb.Y orb.Min orb.Max].
  f_equal; f_equal; lia.
Qed.

(** X14.  [Union b other] contains every point that [b] contains and every
    point that [other] contains, whatever the two rectangles are. *)
Theorem Union_contains_both :
  forall (b other : orb.BoundOf) (x : orb.PointOf),
    orb.Contains b x = true \/ orb.Contains other x = true ->
    orb.Contains (orb.Union b other) x = true.
Proof.
  intros b other x H.
  destruct (orb.IsEmpty other) eqn:Ho.
  - unfold orb.Union. rewrite Ho. destruct H as [H | H]; [exact H|].
    apply IsEmpty_true_iff in Ho. apply Contains_iff in H. lia.
  - rewrite (Union_hull b other Ho). apply Contains_iff.
    unfold hull. cbn [orb.X orb.Y orb.Min orb.Max].
    destruct H as [H | H]; apply Contains_iff in H; lia.
Qed.

(** X15.  For two rectangles that are not empty, [Union] takes the least
    [Min] and the greatest [Max] in each coordinate, does not depend on the
    order of its operands, and is the least rectangle containing both:
    every rectangle that contains the points of both contains the points
    of their union. *)
Theorem Union_of_nonempty_bounds :
  forall b other : orb.BoundOf,
    orb.IsEmpty b = false -> orb.IsEmpty other = false ->
    orb.Union b other = hull b other /\
    orb.Union b other = orb.Union other b /\
    orb.IsEmpty (orb.Union b other) = false /\
    (forall c,
       (forall x, orb.Contains b x = true -> orb.Contains c x = true) ->
       (forall x, orb.Contains other x = true -> orb.Contains c x = true) ->
       forall x, orb.Contains (orb.Union b other) x = true -> orb.Contains c x = true).
Proof.
  intros b other Hb Ho.
  rewrite (Union_hull b other Ho), (Union_hull other b Hb).
  pose proof Hb as Hb'. pose proof Ho as Ho'.
  apply IsEmpty_false_iff in Hb', Ho'.
  split; [reflexivity|]. split; [|split].
  - unfold hull. f_equal; f_equal; lia.
  - apply IsEmpty_false_iff. unfold hull. cbn [orb.X orb.Y orb.Min orb.Max]. lia.
  - intros c Hcb Hco x Hx.
    apply (proj1 (Contains_hull b other x Hb Ho) Hx).
    + apply Hcb. apply Contains_iff. lia.
    + apply Hcb. apply Contains_iff. lia.
    + apply Hco. apply Contains_iff. lia.
    + apply Hco. apply Contains_iff. lia.
Qed.

Lemma Intersects_iff (a b : orb.BoundOf) :
  orb.Intersects a b = true <->
  orb.X (orb.Min b) <= orb.X (orb.Max a) /\ orb.X (orb.Min a) <= orb.X (orb.Max b) /\
  orb.Y (orb.Min b) <= orb.Y (orb.Max a) /\ orb.Y (orb.Min a) <= orb.Y (orb.Max b).
Proof.
  unfold orb.Intersects.
  destruct (Z.ltb_spec (orb.X (orb.Max a)) (orb.X (orb.Min b)));
  destruct (Z.gtb_spec (orb.X (orb.Min a)) (orb.X (orb.Max b)));
  destruct (Z.ltb_spec (orb.Y (orb.Max a)) (orb.Y (orb.Min b)));
  destruct (Z.gtb_spec (orb.Y (orb.Min a)) (orb.Y (orb.Max b)));
  cbn [orb]; split; intros H'; try discriminate; try reflexivity; lia.
Qed.

(** X16.  [Intersects] does not depend on the order of its operands, and
    two rectangles that are not empty intersect exactly when some point
    lies in both (touching rectangles included). *)
Theorem Intersects_iff_common_point :
  forall a b : orb.BoundOf,
    orb.Intersects a b = orb.Intersects b a /\
    (orb.IsEmpty a = false -> orb.IsEmpty b = false ->
     (orb.Intersects a b = true <->
      exists p, orb.Contains a p = true /\ orb.Contains b p = true)).
Proof.
  intros a b. split.
  - apply eq_true_iff_eq. rewrite !Intersects_iff. lia.
  - intros Ha Hb. apply IsEmpty_false_iff in Ha, Hb. rewrite Intersects_iff. split.
    + intros H.
      exists {| orb.X := Z.max (orb.X (orb.Min a)) (orb.X (orb.Min b));
                orb.Y := Z.max (orb.Y (orb.Min a)) (orb.Y (orb.Min b)) |}.
      split; apply Contains_iff; cbn [orb.X orb.Y]; lia.
    + intros (p & Hpa & Hpb). apply Contains_iff in Hpa, Hpb. lia.
Qed.

(** ** Wrap-around arithmetic *)

Lemma wrap_mod (z : Z) : math.wrap z mod 2 ^ 64 = z mod 2 ^ 64.
Proof.
  unfold math.wrap.
  rewrite Zminus_mod, Zmod_mod, <- Zminus_mod.
  f_equal. lia.
Qed.

Lemma wrap_congr (a b : Z) : a mod 2 ^ 64 = b mod 2 ^ 64 -> math.wrap a = math.wrap b.
Proof.
  intros H. unfold math.wrap.
  rewrite (Zplus_mod a), (Zplus_mod b), H. reflexivity.
Qed.

Lemma wrap_int64 (z : Z) : int64 z -> math.wrap z = z.
Proof. apply quadtree.wrap_small. Qed.

Lemma sub_mod (a b : Z) : math.sub a b mod 2 ^ 64 = (a - b) mod 2 ^ 64.
Proof. apply wrap_mod. Qed.

Lemma add_mod (a b : Z) : math.add a b mod 2 ^ 64 = (a + b) mod 2 ^ 64.
Proof. apply wrap_mod. Qed.

Lemma mul_mod (a b : Z) : math.mul a b mod 2 ^ 64 = (a * b) mod 2 ^ 64.
Proof. apply wrap_mod. Qed.

(** Subtracting [d] and then its opposite, or adding [d] and then its
    opposite, gives back an int64 value, overflow or not. *)
Lemma sub_sub_opp (x d : Z) :
  int64 x -> math.sub (math.sub x d) (math.sub 0 d) = x.
Proof.
  intros Hx. rewrite <- (wrap_int64 x Hx) at 2.
  unfold math.sub at 1. apply wrap_congr.
  rewrite Zminus_mod, !sub_mod, <- Zminus_mod. f_equal. lia.
Qed.

Lemma add_add_opp (x d : Z) :
  int64 x -> math.add (math.add x d) (math.sub 0 d) = x.
Proof.
  intros Hx. rewrite <- (wrap_int64 x Hx) at 2.
  unfold math.add at 1. apply wrap_congr.
  rewrite Zplus_mod, add_mod, sub_mod, <- Zplus_mod. f_equal. lia.
Qed.

(** X17.  Padding a rectangle by [d] and then by [-d] gives the rectangle
    back, for every rectangle with int64 coordinates and every [d], even
    when the intermediate coordinates overflow. *)
Theorem Pad_round_trip :
  forall (b : orb.BoundOf) (d : Z),
    int64Bound b ->
    orb.Pad (orb.Pad b d) (math.sub 0 d) = b.
Proof.
  intros [[x0 y0] [x1 y1]] d [[Hx0 Hy0] [Hx1 Hy1]].
  cbn [orb.X orb.Y orb.Min orb.Max] in *.
  unfold orb.Pad. cbn [orb.X orb.Y orb.Min orb.Max].
  rewrite !sub_sub_opp, !add_add_opp by assumption. reflexivity.
Qed.

Lemma quot2_between (a b : Z) : a <= b -> a <= Z.quot (a + b) 2 <= b.
Proof.
  intros H. pose proof (Z.quot_rem' (a + b) 2) as Hq.
  destruct (Z_le_gt_dec 0 (a + b)) as [Hs | Hs].
  - pose proof (Z.rem_bound_pos (a + b) 2 Hs ltac:(lia)). lia.
  - pose proof (Z.rem_bound_pos (- (a + b)) 2 ltac:(lia) ltac:(lia)) as Hr.
    rewrite Z.rem_opp_l in Hr by lia. lia.
Qed.

(** X18.  The centre of a rectangle that is not empty lies in the
    rectangle, provided the two sums [Min + Max] do not overflow; the
    division by two truncates towards zero. *)
Theorem Center_inside :
  forall b : orb.BoundOf,
    int64Bound b -> orb.IsEmpty b = false ->
    int64 (orb.X (orb.Min b) + orb.X (orb.Max b)) ->
    int64 (orb.Y (orb.Min b) + orb.Y (orb.Max b)) ->
    orb.Contains b (orb.Center b) = true /\
    orb.X (orb.Center b) = Z.quot (orb.X (orb.Min b) + orb.X (orb.Max b)) 2 /\
    orb.Y (orb.Center b) = Z.quot (orb.Y (orb.Min b) + orb.Y (orb.Max b)) 2.
Proof.
  intros b [[Hx0 Hy0] [Hx1 Hy1]] Hne Hsx Hsy.
  apply IsEmpty_false_iff in Hne. destruct Hne as [Hx Hy].
  pose proof (quot2_between _ _ Hx) as Qx.
  pose proof (quot2_between _ _ Hy) as Qy.
  unfold int64 in *.
  assert (Ex : orb.X (orb.Center b) = Z.quot (orb.X (orb.Min b) + orb.X (orb.Max b)) 2).
  { unfold orb.Center, math.div, math.add. cbn [orb.X].
    rewrite (quadtree.wrap_small (orb.X (orb.Min b) + orb.X (orb.Max b))) by assumption.
    apply quadtree.wrap_small. lia. }
  assert (Ey : orb.Y (orb.Center b) = Z.quot (orb.Y (orb.Min b) + orb.Y (orb.Max b)) 2).
  { unfold orb.Center, math.div, math.add. cbn [orb.Y].
    rewrite (quadtree.wrap_small (orb.Y (orb.Min b) + orb.Y (orb.Max b))) by assumption.
    apply quadtree.wrap_small. lia. }
  split; [|split; assumption].
  apply Contains_iff. rewrite Ex, Ey. lia.
Qed.

(** ** Rings, multi-points and polygons *)

Lemma min_absorb_r (a b : Z) : Z.min (Z.min a b) b = Z.min a b.
Proof. lia. Qed.

Lemma min_absorb_l (a b : Z) : Z.min (Z.min a b) a = Z.min a b.
Proof. lia. Qed.

Lemma max_absorb_r (a b : Z) : Z.max (Z.max a b) b = Z.max a b.
Proof. lia. Qed.

Lemma max_absorb_l (a b : Z) : Z.max (Z.max a b) a = Z.max a b.
Proof. lia. Qed.

(** X19.  The ring of a rectangle is closed; its bounding box is the
    rectangle itself exactly when the rectangle is not empty; and the
    polygon of a rectangle has the bounding box of that ring. *)
Theorem ToRing_closed_and_bound :
  forall b : orb.BoundOf,
    orb.RingOf_Closed (orb.ToRing b) = true /\
    (orb.RingOf_Bound (orb.ToRing b) = b <-> orb.IsEmpty b = false) /\
    orb.PolygonOf_Bound (orb.ToPolygon b) = orb.RingOf_Bound (orb.ToRing b).
Proof.
  intros b. split; [|split; [|reflexivity]].
  - unfold orb.RingOf_Closed, orb.ToRing. cbn [length last Nat.leb andb].
    unfold orb.Equal. rewrite !Z.eqb_refl. reflexivity.
  - unfold orb.RingOf_Bound, orb.MultiPointOf_Bound, orb.ToRing.
    cbn [fold_left]. rewrite !Extend_hull. unfold hull.
    rewrite IsEmpty_false_iff.
    destruct b as [[x0 y0] [x1 y1]]. cbn [orb.X orb.Y orb.Min orb.Max].
    repeat rewrite ?Z.min_id, ?Z.max_id, ?min_absorb_r, ?min_absorb_l,
      ?max_absorb_r, ?max_absorb_l.
    split.
    + intros H. injection H. lia.
    + intros H. f_equal; f_equal; lia.
Qed.

Lemma fold_Extend_spec (l : list orb.PointOf) :
  forall b0 : orb.BoundOf,
    orb.IsEmpty b0 = false ->
    orb.IsEmpty (fold_left orb.Extend l b0) = false /\
    (forall x, orb.Contains b0 x = true ->
               orb.Contains (fold_left orb.Extend l b0) x = true) /\
    (forall p, In p l -> orb.Contains (fold_left orb.Extend l b0) p = true) /\
    (forall c,
       (forall x, orb.Contains b0 x = true -> orb.Contains c x = true) ->
       (forall p, In p l -> orb.Contains c p = true) ->
       forall x, orb.Contains (fold_left orb.Extend l b0) x = true ->
                 orb.Contains c x = true).
Proof.
  induction l as [|p l IH]; intros b0 Hb0; cbn [fold_left].
  - split; [exact Hb0|]. split; [auto|]. split; [intros p []|]. auto.
  - destruct (IH (orb.Extend b0 p) (Extend_nonempty b0 p Hb0))
      as (Hne & Hold & Hin & Hleast).
    split; [exact Hne|]. split; [|split].
    + intros x Hx. apply Hold. apply Extend_contains_old. exact Hx.
    + intros p' [Hp' | Hp'].
      * subst p'. apply Hold. apply Extend_contains_point.
      * apply Hin. exact Hp'.
    + intros c Hc0 Hcl x Hx. apply (Hleast c); [|auto using in_cons|exact Hx].
      intros y Hy. apply (Extend_least b0 c p y Hb0); auto using in_eq.
Qed.

(** X20.  The bound of a multi-point (and so of a line string or a ring)
    that has at least one point is the bounding box of its points: it is
    not empty, contains every point, and every rectangle that contains all
    the points contains its points.  The bound of an empty multi-point
    contains no point. *)
Theorem MultiPointOf_Bound_is_bounding_box :
  forall mp : list orb.PointOf,
    (mp = [] -> forall x, orb.Contains (orb.MultiPointOf_Bound mp) x = false) /\
    (mp <> [] ->
     orb.IsEmpty (orb.MultiPointOf_Bound mp) = false /\
     (forall p, In p mp -> orb.Contains (orb.MultiPointOf_Bound mp) p = true) /\
     (forall c,
        (forall p, In p mp -> orb.Contains c p = true) ->
        forall x, orb.Contains (orb.MultiPointOf_Bound mp) x = true ->
                  orb.Contains c x = true)).
Proof.
  intros mp. split.
  - intros Hmp x. subst mp. cbn [orb.MultiPointOf_Bound].
    apply Contains_false_iff. unfold orb.emptyBoundOf.
    cbn [orb.X orb.Y orb.Min orb.Max]. lia.
  - intros Hmp. destruct mp as [|p0 mp]; [contradiction|].
    unfold orb.MultiPointOf_Bound.
    assert (H0 : orb.IsEmpty {| orb.Min := p0; orb.Max := p0 |} = false)
      by (apply IsEmpty_false_iff; cbn [orb.Min orb.Max]; lia).
    destruct (fold_Extend_spec (p0 :: mp) _ H0) as (Hne & _ & Hin & Hleast).
    split; [exact Hne|]. split; [exact Hin|].
    intros c Hc x Hx. apply (Hleast c); [|exact Hc|exact Hx].
    intros y Hy. apply Contains_iff in Hy. cbn [orb.X orb.Y orb.Min orb.Max] in Hy.
    assert (Hy0 : y = p0) by (destruct y, p0; cbn [orb.X orb.Y] in Hy; f_equal; lia).
    subst y. apply Hc. left. reflexivity.
Qed.

Lemma Equal_iff (p q : orb.PointOf) : orb.Equal p q = true <-> p = q.
Proof.
  unfold orb.Equal. rewrite andb_true_iff, !Z.eqb_eq.
  destruct p, q; cbn [orb.X orb.Y]. split.
  - intros [H1 H2]. subst. reflexivity.
  - intros H. injection H. auto.
Qed.

Lemma pointsEqual_iff (a : list orb.PointOf) :
  forall b, length a = length b -> (orb.pointsEqual a b = true <-> a = b).
Proof.
  induction a as [|p a IH]; intros [|q b] Hlen; cbn [length] in Hlen;
    try discriminate; cbn [orb.pointsEqual].
  - split; reflexivity.
  - injection Hlen as Hlen. specialize (IH b Hlen).
    destruct (orb.Equal p q) eqn:Hpq; cbn [negb].
    + apply Equal_iff in Hpq. subst q. rewrite IH. split.
      * intros H. subst. reflexivity.
      * intros H. injection H. auto.
    + split; [discriminate|]. intros H. injection H as H1 H2. subst q.
      assert (Hpp : orb.Equal p p = true) by (apply Equal_iff; reflexivity).
      rewrite Hpp in Hpq. discriminate.
Qed.

(** X21.  [Equal] on multi-points (and so on line strings and rings)
    decides equality of the two sequences of points: it returns true
    exactly when they have the same points in the same order. *)
Theorem MultiPointOf_Equal_iff :
  forall mp multiPoint : list orb.PointOf,
    orb.MultiPointOf_Equal mp multiPoint = true <-> mp = multiPoint.
Proof.
  intros a b. unfold orb.MultiPointOf_Equal.
  destruct (Nat.eqb_spec (length a) (length b)) as [Hlen | Hlen]; cbn [negb].
  - apply pointsEqual_iff. exact Hlen.
  - split; [discriminate|]. intros H. subst. contradiction.
Qed.

(** ** Reversal of a line string *)

Lemma length_setNth (ls : list orb.PointOf) :
  forall (i : nat) (p : orb.PointOf), length (orb.setNth ls i p) = length ls.
Proof.
  induction ls as [|x ls IH]; intros [|i] p; cbn [orb.setNth length]; auto.
Qed.

Lemma nth_error_setNth (ls : list orb.PointOf) :
  forall (i j : nat) (p : orb.PointOf),
    nth_error (orb.setNth ls i p) j =
    if (j =? i)%nat
    then (if (i <? length ls)%nat then Some p else None)
    else nth_error ls j.
Proof.
  induction ls as [|x ls IH]; intros i j p.
  - destruct i, j; cbn [orb.setNth nth_error length Nat.eqb Nat.ltb Nat.leb];
      try reflexivity; destruct (j =? i)%nat; reflexivity.
  - destruct i as [|i], j as [|j]; cbn [orb.setNth nth_error length Nat.eqb];
      try reflexivity.
    rewrite IH. reflexivity.
Qed.

(** The state of the slice after [j] iterations of the loop of [Reverse]:
    the first [j] and the last [j] entries are those of the reversed
    slice, the others are untouched. *)
Lemma Reverse_steps (ls : list orb.PointOf) :
  forall j : nat,
    (2 * j <= length ls + 1)%nat -> ls <> [] ->
    exists L,
      fold_left (fun (acc : result (list orb.PointOf)) (i : nat) =>
                   ls0 <- acc ;;
                   orb.swapAt ls0 (Z.of_nat i)
                              (Z.of_nat (length ls) - 1 - Z.of_nat i))
                (seq 0 j) (Ok ls) = Ok L /\
      length L = length ls /\
      forall i, (i < length ls)%nat ->
        nth_error L i =
        nth_error ls (if (i <? j)%nat || (length ls <? i + j + 1)%nat
                      then (length ls - 1 - i)%nat else i).
Proof.
  induction j as [|j IH]; intros Hj Hne.
  - exists ls. cbn [seq fold_left]. split; [reflexivity|]. split; [reflexivity|].
    intros i Hi.
    destruct (Nat.ltb_spec i 0); [lia|].
    destruct (Nat.ltb_spec (length ls) (i + 0 + 1)); [lia|]. reflexivity.
  - destruct (IH ltac:(lia) Hne) as (L & HL & Hlen & Hnth).
    rewrite seq_S, fold_left_app, HL. cbn [fold_left bind Nat.add].
    set (n := length ls) in *.
    assert (Hn : (1 <= n)%nat).
    { subst n. destruct ls; [contradiction | cbn [length]; lia]. }
    unfold orb.swapAt, orb.getAt.
    destruct (Z.ltb_spec (Z.of_nat n - 1 - Z.of_nat j) 0); [lia|].
    destruct (Z.ltb_spec (Z.of_nat j) 0); [lia|].
    replace (Z.to_nat (Z.of_nat n - 1 - Z.of_nat j)) with (n - 1 - j)%nat by lia.
    rewrite Nat2Z.id.
    assert (Ha : nth_error L (n - 1 - j) = nth_error ls (n - 1 - j)).
    { rewrite Hnth by lia.
      destruct (Nat.ltb_spec (n - 1 - j) j); [lia|].
      destruct (Nat.ltb_spec n (n - 1 - j + j + 1)); [lia|]. reflexivity. }
    assert (Hb : nth_error L j = nth_error ls j).
    { rewrite Hnth by lia.
      destruct (Nat.ltb_spec j j); [lia|].
      destruct (Nat.ltb_spec n (j + j + 1)); [lia|]. reflexivity. }
    rewrite Ha, Hb.
    destruct (nth_error ls (n - 1 - j)) as [a|] eqn:Ea;
      [|apply nth_error_None in Ea; fold n in Ea; lia].
    destruct (nth_error ls j) as [b|] eqn:Eb;
      [|apply nth_error_None in Eb; fold n in Eb; lia].
    eexists. split; [reflexivity|].
    split; [rewrite !length_setNth; exact Hlen|].
    intros i Hi.
    rewrite !nth_error_setNth, !length_setNth, Hlen.
    destruct (Nat.eqb_spec i (n - 1 - j)) as [E1 | E1].
    + destruct (Nat.ltb_spec (n - 1 - j) n); [|lia].
      rewrite <- Eb.
      destruct (Nat.ltb_spec i (S j)); destruct (Nat.ltb_spec n (i + S j + 1));
        cbn [orb]; try lia; f_equal; lia.
    + destruct (Nat.eqb_spec i j) as [E2 | E2].
      * destruct (Nat.ltb_spec j n); [|lia].
        rewrite <- Ea.
        destruct (Nat.ltb_spec i (S j)); [|lia]. cbn [orb]. f_equal. lia.
      * rewrite Hnth by exact Hi.
        destruct (Nat.ltb_spec i j); destruct (Nat.ltb_spec n (i + j + 1));
          destruct (Nat.ltb_spec i (S j)); destruct (Nat.ltb_spec n (i + S j + 1));
          cbn [orb]; try lia; reflexivity.
Qed.

(** X22.  [Reverse] on a line string (and so on a ring) that has at least
    one point returns with the points in the reverse order; on an empty
    line string it panics with an index out of range, because [l/2] is 0
    for [l = -1] and the loop body runs once. *)
Theorem LineStringOf_Reverse_is_rev :
  forall ls : list orb.PointOf,
    orb.LineStringOf_Reverse ls =
    match ls with
    | [] => Panic IndexOutOfRange
    | _ :: _ => Ok (rev ls)
    end.
Proof.
  intros [|p ls]; [reflexivity|].
  set (ls0 := p :: ls).
  assert (Hne : ls0 <> []) by discriminate.
  unfold orb.LineStringOf_Reverse. cbv zeta.
  set (n := length ls0).
  assert (Hn : (1 <= n)%nat) by (subst n ls0; cbn [length]; lia).
  rewrite Z.quot_div_nonneg by lia.
  pose proof (Z.div_mod (Z.of_nat n - 1) 2 ltac:(lia)) as Hdm.
  pose proof (Z.mod_pos_bound (Z.of_nat n - 1) 2 ltac:(lia)) as Hmb.
  set (m := Z.to_nat ((Z.of_nat n - 1) / 2 + 1)).
  assert (Hm1 : (2 * m <= n + 1)%nat) by (subst m; lia).
  assert (Hm2 : (n < 2 * m + 1)%nat) by (subst m; lia).
  destruct (Reverse_steps ls0 m Hm1 Hne) as (L & HL & Hlen & Hnth).
  fold n in HL, Hlen, Hnth. rewrite HL. f_equal.
  apply nth_error_ext. intros i. rewrite nth_error_rev. fold n.
  destruct (Nat.ltb_spec i n) as [Hi | Hi].
  - rewrite (Hnth i Hi).
    destruct (Nat.ltb_spec i m); destruct (Nat.ltb_spec n (i + m + 1));
      cbn [orb]; try lia; f_equal; lia.
  - apply nth_error_None. lia.
Qed.

(** ** Orientation of a ring *)

Lemma sub_translate (x o d : Z) :
  math.sub (math.add x d) (math.add o d) = math.sub x o.
Proof.
  unfold math.sub. apply wrap_congr.
  rewrite Zminus_mod, !add_mod, <- Zminus_mod. f_equal. lia.
Qed.

Lemma areaLoop_cons (offsetX offsetY : Z) (ri ri1 : orb.PointOf)
      (ps : list orb.PointOf) (area : Z) :
  orb.areaLoop offsetX offsetY (ri :: ri1 :: ps) area =
  orb.areaLoop offsetX offsetY (ri1 :: ps)
    (math.add area
       (math.sub
          (math.mul (math.sub (orb.X ri) offsetX) (math.sub (orb.Y ri1) offsetY))
          (math.mul (math.sub (orb.X ri1) offsetX) (math.sub (orb.Y ri) offsetY)))).
Proof. reflexivity. Qed.

Lemma areaLoop_translate (dx dy offsetX offsetY : Z) (ps : list orb.PointOf) :
  forall area,
    orb.areaLoop (math.add offsetX dx) (math.add offsetY dy) (translate dx dy ps) area =
    orb.areaLoop offsetX offsetY ps area.
Proof.
  unfold translate.
  induction ps as [|a ps IH]; intros area; [reflexivity|].
  destruct ps as [|b ps]; [reflexivity|].
  cbn [map] in *. rewrite !areaLoop_cons. cbn [orb.X orb.Y].
  rewrite !sub_translate. apply IH.
Qed.

(** X23.  The orientation of a ring does not change when every point is
    moved by the same vector, whatever the coordinates and the vector are:
    the offsets [r[0][0]] and [r[0][1]] cancel the translation even when
    the additions wrap around. *)
Theorem RingOf_Orientation_translation_invariant :
  forall (CCW CW dx dy : Z) (r : list orb.PointOf),
    orb.RingOf_Orientation CCW CW (translate dx dy r) =
    orb.RingOf_Orientation CCW CW r.
Proof.
  intros CCW CW dx dy [|r0 rest]; [reflexivity|].
  unfold orb.RingOf_Orientation.
  change (translate dx dy (r0 :: rest))
    with ({| orb.X := math.add (orb.X r0) dx; orb.Y := math.add (orb.Y r0) dy |}
            :: translate dx dy rest).
  cbv zeta. cbn [orb.X orb.Y].
  rewrite areaLoop_translate. reflexivity.
Qed.

(** X26.  At the coordinate type int64: for a rectangle that is not empty,
    with coordinates of magnitude at most 2^24, the ring of the rectangle
    is counter-clockwise
    when the rectangle has a positive width and a positive height, and
    degenerate (orientation 0) otherwise. *)
Theorem ToRing_orientation :
  forall (CCW CW : Z) (b : orb.BoundOf),
    smallBound b -> orb.IsEmpty b = false ->
    orb.RingOf_Orientation CCW CW (orb.ToRing b) =
    Ok (if (orb.X (orb.Min b) <? orb.X (orb.Max b)) &&
           (orb.Y (orb.Min b) <? orb.Y (orb.Max b))
        then CCW else 0).
Proof.
  intros CCW CW [[x0 y0] [x1 y1]] [[Sx0 Sy0] [Sx1 Sy1]] Hne.
  apply IsEmpty_false_iff in Hne.
  cbn [orb.X orb.Y orb.Min orb.Max] in *.
  apply quadtree.small_bounds in Sx0, Sy0, Sx1, Sy1.
  unfold orb.RingOf_Orientation, orb.ToRing. cbn [orb.X orb.Y orb.Min orb.Max].
  rewrite !areaLoop_cons. cbn [orb.areaLoop orb.X orb.Y].
  assert (E1 : math.sub x1 x0 = x1 - x0)
    by (apply quadtree.wrap_small; change (2 ^ 63) with 9223372036854775808; lia).
  assert (E2 : math.sub y1 y0 = y1 - y0)
    by (apply quadtree.wrap_small; change (2 ^ 63) with 9223372036854775808; lia).
  assert (E3 : math.sub x0 x0 = 0)
    by (unfold math.sub; rewrite Z.sub_diag; reflexivity).
  assert (E4 : math.sub y0 y0 = 0)
    by (unfold math.sub; rewrite Z.sub_diag; reflexivity).
  rewrite E1, E2, E3, E4.
  set (w := x1 - x0). set (h := y1 - y0).
  assert (Hw : 0 <= w <= 33554432) by (subst w; lia).
  assert (Hh : 0 <= h <= 33554432) by (subst h; lia).
  assert (Hwh : 0 <= w * h <= 33554432 * 33554432) by nia.
  assert (M1 : math.mul w h = w * h)
    by (apply quadtree.wrap_small; change (2 ^ 63) with 9223372036854775808; lia).
  assert (M2 : math.mul w 0 = 0)
    by (unfold math.mul; rewrite Z.mul_0_r; reflexivity).
  assert (M3 : math.mul 0 h = 0)
    by (unfold math.mul; rewrite Z.mul_0_l; reflexivity).
  assert (M4 : math.mul 0 0 = 0) by reflexivity.
  rewrite M1, M2, M3, M4.
  assert (S1 : math.sub (w * h) 0 = w * h)
    by (unfold math.sub; rewrite Z.sub_0_r; apply quadtree.wrap_small;
        change (2 ^ 63) with 9223372036854775808; lia).
  assert (S2 : math.sub 0 0 = 0) by reflexivity.
  rewrite S1, S2.
  assert (A1 : math.add 0 (w * h) = w * h)
    by (unfold math.add; rewrite Z.add_0_l; apply quadtree.wrap_small;
        change (2 ^ 63) with 9223372036854775808; lia).
  rewrite A1.
  assert (A2 : math.add (w * h) (w * h) = w * h + w * h)
    by (apply quadtree.wrap_small; change (2 ^ 63) with 9223372036854775808; lia).
  rewrite A2.
  assert (A3 : math.add (w * h + w * h) 0 = w * h + w * h)
    by (unfold math.add; rewrite Z.add_0_r; apply quadtree.wrap_small;
        change (2 ^ 63) with 9223372036854775808; lia).
  rewrite A3.
  destruct (Z.ltb_spec x0 x1) as [Hx | Hx]; destruct (Z.ltb_spec y0 y1) as [Hy | Hy];
    cbn [andb].
  - assert (Hpos : 0 < w * h) by (subst w h; nia).
    destruct (Z.gtb_spec (w * h + w * h) 0); [reflexivity | lia].
  - assert (Hz : h = 0) by (subst h; lia). rewrite Hz, Z.mul_0_r. reflexivity.
  - assert (Hz : w = 0) by (subst w; lia). rewrite Hz, Z.mul_0_l. reflexivity.
  - assert (Hz : w = 0) by (subst w; lia). rewrite Hz, Z.mul_0_l. reflexivity.
Qed.

(** ** Distances *)

(** X24.  The squared distance computed in int64 does not depend on the
    order of the two points, whatever their coordinates, and is never the
    greatest int64; for points with coordinates of magnitude at most 2^24
    it is the squared Euclidean distance, and it is zero exactly when the
    points are equal. *)
Theorem DistanceSquared_symmetric :
  forall a b : orb.PointOf,
    planar.DistanceSquared a b = planar.DistanceSquared b a /\
    planar.DistanceSquared a b < math.MaxOf /\
    (smallPoint a -> smallPoint b ->
     planar.DistanceSquared a b = sqdist a b /\
     (planar.DistanceSquared a b = 0 <-> a = b)).
Proof.
  intros a b. split; [|split].
  - unfold planar.DistanceSquared. cbv zeta.
    assert (H : forall x y, math.mul (math.sub x y) (math.sub x y) =
                            math.mul (math.sub y x) (math.sub y x)).
    { intros x y. unfold math.mul. apply wrap_congr.
      rewrite (Zmult_mod (math.sub x y)), (Zmult_mod (math.sub y x)), !sub_mod,
        <- !Zmult_mod.
      f_equal. ring. }
    rewrite (H (orb.X a)), (H (orb.Y a)). reflexivity.
  - apply quadtree.DistanceSquared_below_MaxOf.
  - intros Ha Hb. rewrite (quadtree.DistanceSquared_small a b Ha Hb).
    split; [reflexivity|]. split.
    + apply quadtree.sqdist_zero.
    + intros H. subst b. unfold sqdist. lia.
Qed.

(** X25.  For points with coordinates of magnitude at most 2^24,
    [planar.Distance] at int64 is the Euclidean distance truncated to an
    integer: the greatest [d >= 0] whose square is at most the squared
    distance. *)
Theorem Distance_is_truncated_root :
  forall (PF : Platform) (a b : orb.PointOf),
    smallPoint a -> smallPoint b ->
    let d := planar.Distance a b in
    0 <= d /\ d * d <= sqdist a b < (d + 1) * (d + 1) /\
    planar.Distance b a = d.
Proof.
  intros PF a b Ha Hb d.
  assert (Hd : forall p q, smallPoint p -> smallPoint q ->
                           planar.Distance p q = math.Sqrt (sqdist p q)).
  { intros p q Hp Hq. unfold planar.Distance. cbv zeta.
    pose proof (quadtree.DistanceSquared_small p q Hp Hq) as H.
    unfold planar.DistanceSquared in H. cbv zeta in H. rewrite H. reflexivity. }
  subst d. rewrite (Hd a b Ha Hb), (Hd b a Hb Ha).
  pose proof (quadtree.sqdist_small a b Ha Hb) as Hr.
  destruct (quadtree.Sqrt_bounds (sqdist a b) Hr) as [H0 H1].
  split; [lia|]. split; [exact H1|].
  f_equal. unfold sqdist. ring.
Qed.

(** ** Instances *)

#[local] Existing Instance quadtree.examplePlatform.

Lemma universe10_nonempty : orb.IsEmpty quadtree.universe10 = false.
Proof. reflexivity. Defined.

Lemma universe10_int64 : int64Bound quadtree.universe10.
Proof.
  unfold int64Bound, int64Point, int64. cbn.
  change (2 ^ 63) with 9223372036854775808. lia.
Defined.

(** An instance of X14: (15,15) lies in the second rectangle only. *)
Lemma Union_contains_both_witness :
  (orb.Contains quadtree.universe10 (quadtree.pt 15 15) = true \/
   orb.Contains {| orb.Min := quadtree.pt 5 5; orb.Max := quadtree.pt 20 20 |}
                (quadtree.pt 15 15) = true) /\
  orb.Contains
    (orb.Union quadtree.universe10
               {| orb.Min := quadtree.pt 5 5; orb.Max := quadtree.pt 20 20 |})
    (quadtree.pt 15 15) = true.
Proof.
  assert (H : orb.Contains quadtree.universe10 (quadtree.pt 15 15) = true \/
              orb.Contains {| orb.Min := quadtree.pt 5 5; orb.Max := quadtree.pt 20 20 |}
                           (quadtree.pt 15 15) = true)
    by (right; reflexivity).
  split; [exact H|].
  exact (Union_contains_both quadtree.universe10
           {| orb.Min := quadtree.pt 5 5; orb.Max := quadtree.pt 20 20 |}
           (quadtree.pt 15 15) H).
Defined.

(** An instance of X15: the rectangles (0,0)-(10,10) and (5,5)-(20,20). *)
Lemma Union_of_nonempty_bounds_witness :
  orb.IsEmpty quadtree.universe10 = false /\
  orb.IsEmpty {| orb.Min := quadtree.pt 5 5; orb.Max := quadtree.pt 20 20 |} = false /\
  orb.Union quadtree.universe10
            {| orb.Min := quadtree.pt 5 5; orb.Max := quadtree.pt 20 20 |} =
  orb.Union {| orb.Min := quadtree.pt 5 5; orb.Max := quadtree.pt 20 20 |}
            quadtree.universe10.
Proof.
  split; [reflexivity|]. split; [reflexivity|].
  apply (Union_of_nonempty_bounds quadtree.universe10
           {| orb.Min := quadtree.pt 5 5; orb.Max := quadtree.pt 20 20 |});
    reflexivity.
Defined.

(** An instance of X17 in which the padded coordinates overflow. *)
Lemma Pad_round_trip_witness :
  int64Bound quadtree.universe10 /\
  orb.Pad (orb.Pad quadtree.universe10 (2 ^ 63 - 1)) (math.sub 0 (2 ^ 63 - 1)) =
  quadtree.universe10.
Proof.
  split; [exact universe10_int64|].
  exact (Pad_round_trip quadtree.universe10 (2 ^ 63 - 1) universe10_int64).
Defined.

(** An instance of X18: the centre of (0,0)-(10,10). *)
Lemma Center_inside_witness :
  int64Bound quadtree.universe10 /\ orb.IsEmpty quadtree.universe10 = false /\
  int64 (0 + 10) /\ int64 (0 + 10) /\
  orb.Contains quadtree.universe10 (orb.Center quadtree.universe10) = true.
Proof.
  assert (Hs : int64 (0 + 10))
    by (unfold int64; change (2 ^ 63) with 9223372036854775808; lia).
  split; [exact universe10_int64|]. split; [reflexivity|].
  split; [exact Hs|]. split; [exact Hs|].
  apply (Center_inside quadtree.universe10 universe10_int64 universe10_nonempty Hs Hs).
Defined.

(** An instance of X25: the distance between (0,0) and (1,1) is 1, the
    square root of 2 truncated. *)
Lemma Distance_is_truncated_root_witness :
  smallPoint (quadtree.pt 0 0) /\ smallPoint (quadtree.pt 1 1) /\
  0 <= planar.Distance (quadtree.pt 0 0) (quadtree.pt 1 1) /\
  planar.Distance (quadtree.pt 0 0) (quadtree.pt 1 1) *
  planar.Distance (quadtree.pt 0 0) (quadtree.pt 1 1)
  <= sqdist (quadtree.pt 0 0) (quadtree.pt 1 1)
  < (planar.Distance (quadtree.pt 0 0) (quadtree.pt 1 1) + 1) *
    (planar.Distance (quadtree.pt 0 0) (quadtree.pt 1 1) + 1).
Proof.
  assert (H1 : smallPoint (quadtree.pt 1 1))
    by (unfold smallPoint, small; cbn; lia).
  split; [exact quadtree.origin_small|]. split; [exact H1|].
  destruct (Distance_is_truncated_root quadtree.examplePlatform
              (quadtree.pt 0 0) (quadtree.pt 1 1)
              quadtree.origin_small H1) as (H0 & Hd & _).
  split; [exact H0 | exact Hd].
Defined.

(** An instance of X26: the ring of (0,0)-(10,10), with the values 1 and
    -1 for the two orientations. *)
Lemma ToRing_orientation_witness :
  smallBound quadtree.universe10 /\ orb.IsEmpty quadtree.universe10 = false /\
  orb.RingOf_Orientation 1 (-1) (orb.ToRing quadtree.universe10) = Ok 1.
Proof.
  split; [exact quadtree.universe10_small|]. split; [reflexivity|].
  exact (ToRing_orientation 1 (-1) quadtree.universe10
           quadtree.universe10_small universe10_nonempty).
Defined.

End geometry.
